(** * Potionality: result resolution engine and share-state codec

    A shallow embedding of the quiz engine module (clamp, score
    normalisation, condition evaluation, result resolution, the live
    profile text, URL codecs) and of the functions of [App] around it: the
    score update of [handleAnswer], [finalizeQuiz], the state kept in the
    page URL ([updateUrlState], [buildResultShareUrl],
    [buildPotionOnlyUrl], [restoreFromUrl]) and [wrapText] of the share
    card, with the properties of the specification and further properties
    of the code stated over it.

    Conventions of the embedding.
    - A JavaScript string is the list of its UTF-16 code units.
    - A JavaScript number is a finite value, [NaN], [+Infinity] or
      [-Infinity].  A finite value is an exact rational: the scores,
      weights, priorities and thresholds of a quiz are small integers, on
      which the arithmetic of doubles is exact.
    - An optional property is an [option]; [None] is [undefined].
    - An object used as a dictionary ([ScoreMap], [weights]) is the list
      of its entries in [Object.entries] order: the properties whose names
      are array indices first, ascending, then the others in the order of
      their creation.  Property names are not names inherited from
      [Object.prototype].
    - A call that may throw returns an [outcome]; [try]/[catch] is a match
      on it.
    - What the platform provides ([JSON], [encodeURIComponent], the
      conversion of strings and objects to numbers, the measure of a text on
      a canvas) is a parameter of the definitions that call it; the query of
      the page URL is the list of name-value pairs that [URLSearchParams]
      reads and writes. *)

From Stdlib Require Import List String Ascii Bool Arith ZArith NArith.
From Stdlib Require Import QArith Qabs Qround Lia Lqa Permutation Sorted.
From Stdlib Require DecimalFacts DecimalPos DecimalN.
Import ListNotations.

Close Scope Q_scope.
Local Open Scope list_scope.

(** ** JavaScript strings *)

Definition jsstring : Type := list N.

Definition js (s : string) : jsstring :=
  List.map N_of_ascii (list_ascii_of_string s).

Definition jsstring_eqb (s t : jsstring) : bool :=
  if list_eq_dec N.eq_dec s t then true else false.

(** Truthiness of a string: the empty string is falsy. *)
Definition truthy_string (s : jsstring) : bool :=
  match s with
  | [] => false
  | _ :: _ => true
  end.

(** [x && ...] / [!x] / [x || d] on an optional string property. *)
Definition truthy_opt_string (o : option jsstring) : bool :=
  match o with
  | Some s => truthy_string s
  | None => false
  end.

Definition string_or (o : option jsstring) (d : jsstring) : jsstring :=
  match o with
  | Some s => if truthy_string s then s else d
  | None => d
  end.

(** [a === b] on two optional strings ([undefined === undefined] holds). *)
Definition opt_string_eqb (a b : option jsstring) : bool :=
  match a, b with
  | Some s, Some t => jsstring_eqb s t
  | None, None => true
  | _, _ => false
  end.

(** ** JavaScript numbers *)

Inductive number : Type :=
| Fin (q : Q)
| NaN
| PosInf
| NegInf.

Definition Qlt_bool (a b : Q) : bool := negb (Qle_bool b a).

Definition num_of_Z (z : Z) : number := Fin (inject_Z z).

Definition num_neg (a : number) : number :=
  match a with
  | Fin q => Fin (Qopp q)
  | NaN => NaN
  | PosInf => NegInf
  | NegInf => PosInf
  end.

(** [a + b] *)
Definition num_add (a b : number) : number :=
  match a, b with
  | NaN, _ | _, NaN => NaN
  | Fin x, Fin y => Fin (Qplus x y)
  | PosInf, NegInf | NegInf, PosInf => NaN
  | PosInf, _ | _, PosInf => PosInf
  | NegInf, _ | _, NegInf => NegInf
  end.

(** [a - b] *)
Definition num_sub (a b : number) : number := num_add a (num_neg b).

(** [a < b]; every comparison with [NaN] is false. *)
Definition num_lt (a b : number) : bool :=
  match a, b with
  | NaN, _ | _, NaN => false
  | Fin x, Fin y => Qlt_bool x y
  | NegInf, NegInf => false
  | NegInf, _ => true
  | _, NegInf => false
  | PosInf, _ => false
  | Fin _, PosInf => true
  end.

(** [a <= b] *)
Definition num_le (a b : number) : bool :=
  match a, b with
  | NaN, _ | _, NaN => false
  | Fin x, Fin y => Qle_bool x y
  | NegInf, _ => true
  | _, PosInf => true
  | _, NegInf => false
  | PosInf, _ => false
  end.

(** [a > b] and [a >= b] *)
Definition num_gt (a b : number) : bool := num_lt b a.
Definition num_ge (a b : number) : bool := num_le b a.

(** [a === b] on numbers *)
Definition num_eq (a b : number) : bool :=
  match a, b with
  | Fin x, Fin y => Qeq_bool x y
  | PosInf, PosInf => true
  | NegInf, NegInf => true
  | _, _ => false
  end.

Definition Number_isFinite (a : number) : bool :=
  match a with
  | Fin _ => true
  | _ => false
  end.

Definition Math_abs (a : number) : number :=
  match a with
  | Fin q => Fin (Qabs q)
  | NaN => NaN
  | PosInf | NegInf => PosInf
  end.

(** [Math.max(a, b)] and [Math.min(a, b)]: [NaN] if an argument is. *)
Definition Math_max (a b : number) : number :=
  match a, b with
  | NaN, _ | _, NaN => NaN
  | _, _ => if num_lt a b then b else a
  end.

Definition Math_min (a b : number) : number :=
  match a, b with
  | NaN, _ | _, NaN => NaN
  | _, _ => if num_lt b a then b else a
  end.

(** [Math.round]: the nearest integer, halves towards [+Infinity]. *)
Definition Math_round (a : number) : number :=
  match a with
  | Fin q => Fin (inject_Z (Qfloor (Qplus q (1 # 2))))
  | _ => a
  end.

(** Truthiness of a number: [0] and [NaN] are falsy. *)
Definition truthy_number (a : number) : bool :=
  match a with
  | Fin q => negb (Qeq_bool q 0)
  | NaN => false
  | _ => true
  end.

(** [Number(x)] of an optional numeric property: [Number(undefined)] is
    [NaN]. *)
Definition Number_of (o : option number) : number :=
  match o with
  | Some n => n
  | None => NaN
  end.

(** [x ?? d] *)
Definition nullish_or {A : Type} (o : option A) (d : A) : A :=
  match o with
  | Some x => x
  | None => d
  end.

(** [x || d] on an optional number *)
Definition number_or (o : option number) (d : number) : number :=
  match o with
  | Some n => if truthy_number n then n else d
  | None => d
  end.

(** [arr[n]] for a number [n]: defined at the non-negative integers below
    the length. *)
Definition Array_get {A : Type} (l : list A) (n : number) : option A :=
  match n with
  | Fin q =>
      if Qeq_bool q (inject_Z (Qfloor q)) && Qle_bool 0 q
      then nth_error l (Z.to_nat (Qfloor q))
      else None
  | _ => None
  end.

(** [Array.prototype.sort(compare)]: a stable sort; an element moves behind
    another only where [compare] is positive ([NaN] counts as [0]).  For a
    consistent comparator this is the order ECMAScript prescribes. *)
Fixpoint sort_insert {A : Type} (compare : A -> A -> number) (x : A)
  (l : list A) : list A :=
  match l with
  | [] => [x]
  | y :: l' =>
      if num_gt (compare x y) (Fin 0)
      then y :: sort_insert compare x l'
      else x :: l
  end.

Definition Array_sort {A : Type} (compare : A -> A -> number) (l : list A)
  : list A :=
  fold_right (sort_insert compare) [] l.

(** ** Exceptions *)

Inductive exn : Type :=
| InvalidCharacterError
| SyntaxError
| URIError.

Inductive outcome (A : Type) : Type :=
| Returned (a : A)
| Thrown (e : exn).

Arguments Returned {A} a.
Arguments Thrown {A} e.

Definition bind {A B : Type} (m : outcome A) (k : A -> outcome B)
  : outcome B :=
  match m with
  | Returned a => k a
  | Thrown e => Thrown e
  end.

(** [try { body } catch { return handler }] *)
Definition try_catch {A : Type} (body : outcome A) (handler : A) : outcome A :=
  match body with
  | Returned a => Returned a
  | Thrown _ => Returned handler
  end.

(** ** Data model *)

Record Dimension : Type := {
  dim_id : jsstring;
  dim_label : jsstring;
  dim_left : jsstring;
  dim_right : jsstring;
  dim_description : option jsstring
}.

(** [Record<string, V>]: the entries in [Object.entries] order. *)
Definition dict (V : Type) : Type := list (jsstring * V).

Definition ScoreMap : Type := dict number.

(** [obj[k]] *)
Fixpoint obj_get {V : Type} (k : jsstring) (m : dict V) : option V :=
  match m with
  | [] => None
  | (k', v) :: m' => if jsstring_eqb k k' then Some v else obj_get k m'
  end.

(** The value of a run of decimal digits, accumulated on [acc]. *)
Fixpoint decimal_value (s : jsstring) (acc : N) : option N :=
  match s with
  | [] => Some acc
  | c :: rest =>
      if ((48 <=? c) && (c <=? 57))%N
      then decimal_value rest (10 * acc + (c - 48))%N
      else None
  end.

(** The number of a property name that is an array index: the decimal
    text, without a leading zero, of an integer below [2^32 - 1]. *)
Definition array_index (k : jsstring) : option N :=
  match k with
  | [] => None
  | c :: rest =>
      if (c =? 48)%N && negb (match rest with [] => true | _ :: _ => false end)
      then None
      else
        match decimal_value k 0 with
        | Some i => if (i <? 4294967295)%N then Some i else None
        | None => None
        end
  end.

(** The order of the own properties of an object: the array indices come
    first, ascending, and the other names follow in the order of their
    creation.  [listed_before k k'] tells whether a new property [k] is
    listed before the property [k']. *)
Definition listed_before (k k' : jsstring) : bool :=
  match array_index k, array_index k' with
  | Some i, Some i' => (i <? i')%N
  | Some _, None => true
  | None, _ => false
  end.

(** [k in obj], for an own property *)
Definition obj_has {V : Type} (k : jsstring) (m : dict V) : bool :=
  existsb (fun entry => jsstring_eqb k (fst entry)) m.

(** [obj[k] = v] for an existing property, which keeps its place *)
Fixpoint obj_update {V : Type} (k : jsstring) (v : V) (m : dict V) : dict V :=
  match m with
  | [] => []
  | (k', v') :: m' =>
      if jsstring_eqb k k' then (k', v) :: m' else (k', v') :: obj_update k v m'
  end.

(** [obj[k] = v] for a new property, which takes its place in the order of
    the own properties *)
Fixpoint obj_insert {V : Type} (k : jsstring) (v : V) (m : dict V) : dict V :=
  match m with
  | [] => [(k, v)]
  | (k', v') :: m' =>
      if listed_before k k' then (k, v) :: m else (k', v') :: obj_insert k v m'
  end.

(** [obj[k] = v] *)
Definition obj_set {V : Type} (k : jsstring) (v : V) (m : dict V) : dict V :=
  if obj_has k m then obj_update k v m else obj_insert k v m.

(** The names of the own properties once a new property [k] is created. *)
Fixpoint keys_insert (k : jsstring) (keys : list jsstring) : list jsstring :=
  match keys with
  | [] => [k]
  | k' :: rest =>
      if listed_before k k' then k :: keys else k' :: keys_insert k rest
  end.

Definition Object_entries {V : Type} (m : dict V) : list (jsstring * V) := m.
Definition Object_keys {V : Type} (m : dict V) : list jsstring := List.map fst m.
Definition Object_values {V : Type} (m : dict V) : list V := List.map snd m.

Record QuestionOption : Type := {
  opt_text : jsstring;
  opt_image : option jsstring;
  opt_weights : option (dict number)
}.

Record ResultPalette : Type := {
  pal_primary : option jsstring;
  pal_secondary : option jsstring;
  pal_accent : option jsstring
}.

Record TastingNotes : Type := {
  tn_top : option jsstring;
  tn_mid : option jsstring;
  tn_base : option jsstring
}.

Record ResultCondition : Type := {
  cond_type : option jsstring;
  cond_dim : option jsstring;
  cond_op : option jsstring;
  cond_value : option number;
  cond_min : option number;
  cond_max : option number;
  cond_a : option jsstring;
  cond_b : option jsstring;
  cond_rank : option number;
  cond_dims : option (list jsstring)
}.

Record ResultProfile : Type := {
  rp_id : jsstring;
  rp_title : jsstring;
  rp_summary : jsstring;
  rp_lore : option jsstring;
  rp_image : option jsstring;
  rp_palette : option ResultPalette;
  rp_tasting_notes : option TastingNotes;
  rp_side_effect : option jsstring;
  rp_signature_ritual : option jsstring;
  rp_signals : option (list jsstring);
  rp_priority : option number;
  rp_conditions : option (list ResultCondition);
  rp_extra : option jsstring
}.

(** [{ ...r, summary, extra }] and [{ ...r, extra }] *)
Definition with_summary_extra (r : ResultProfile) (summary extra : jsstring)
  : ResultProfile :=
  {| rp_id := rp_id r;
     rp_title := rp_title r;
     rp_summary := summary;
     rp_lore := rp_lore r;
     rp_image := rp_image r;
     rp_palette := rp_palette r;
     rp_tasting_notes := rp_tasting_notes r;
     rp_side_effect := rp_side_effect r;
     rp_signature_ritual := rp_signature_ritual r;
     rp_signals := rp_signals r;
     rp_priority := rp_priority r;
     rp_conditions := rp_conditions r;
     rp_extra := Some extra |}.

Definition with_extra (r : ResultProfile) (extra : jsstring) : ResultProfile :=
  with_summary_extra r (rp_summary r) extra.

(** [===] on result objects.  The results of a configuration are distinct
    objects with unique ids, so reference identity is equality of
    contents. *)
Definition number_eq_dec (a b : number) : {a = b} + {a <> b}.
Proof.
  decide equality.
  destruct q as [n d], q0 as [n0 d0].
  destruct (Z.eq_dec n n0); [|right; congruence].
  destruct (Pos.eq_dec d d0); [left|right]; congruence.
Defined.

Definition jsstring_eq_dec (a b : jsstring) : {a = b} + {a <> b} :=
  list_eq_dec N.eq_dec a b.

Definition opt_eq_dec {A : Type} (dec : forall x y : A, {x = y} + {x <> y})
  (a b : option A) : {a = b} + {a <> b}.
Proof. decide equality. Defined.

Definition ResultCondition_eq_dec (a b : ResultCondition)
  : {a = b} + {a <> b}.
Proof.
  decide equality;
    first [ apply (opt_eq_dec jsstring_eq_dec)
          | apply (opt_eq_dec number_eq_dec)
          | apply (opt_eq_dec (list_eq_dec jsstring_eq_dec)) ].
Defined.

Definition ResultPalette_eq_dec (a b : ResultPalette) : {a = b} + {a <> b}.
Proof. decide equality; apply (opt_eq_dec jsstring_eq_dec). Defined.

Definition TastingNotes_eq_dec (a b : TastingNotes) : {a = b} + {a <> b}.
Proof. decide equality; apply (opt_eq_dec jsstring_eq_dec). Defined.

Definition ResultProfile_eq_dec (a b : ResultProfile) : {a = b} + {a <> b}.
Proof.
  decide equality;
    first [ apply jsstring_eq_dec
          | apply (opt_eq_dec jsstring_eq_dec)
          | apply (opt_eq_dec number_eq_dec)
          | apply (opt_eq_dec ResultPalette_eq_dec)
          | apply (opt_eq_dec TastingNotes_eq_dec)
          | apply (opt_eq_dec (list_eq_dec jsstring_eq_dec))
          | apply (opt_eq_dec (list_eq_dec ResultCondition_eq_dec)) ].
Defined.

(** [results.indexOf(x)]: the first index holding [x], or [-1]. *)
Fixpoint indexOf_from (results : list ResultProfile) (x : ResultProfile)
  (i : Z) : Z :=
  match results with
  | [] => (-1)%Z
  | r :: rest =>
      if ResultProfile_eq_dec r x then i else indexOf_from rest x (i + 1)%Z
  end.

Definition indexOf (results : list ResultProfile) (x : ResultProfile) : Z :=
  indexOf_from results x 0%Z.

(** ** The quiz engine *)

(** [clamp(value, min = -24, max = 24)]; every call in the sources passes
    both bounds. *)
Definition clamp (value min max : number) : number :=
  Math_max min (Math_min max value).

Definition createInitialScores (dimensions : list Dimension) : ScoreMap :=
  fold_left (fun acc dim => obj_set (dim_id dim) (Fin 0) acc) dimensions [].

(** [input?.[k]] for [input : ScoreMap | null | undefined] *)
Definition opt_get (input : option ScoreMap) (k : jsstring) : option number :=
  match input with
  | Some m => obj_get k m
  | None => None
  end.

Definition normalizeScoresForDimensions (input : option ScoreMap)
  (dimensions : list Dimension) (min max : number) : ScoreMap :=
  fold_left
    (fun normalized dim =>
       let value := Number_of (opt_get input (dim_id dim)) in
       obj_set (dim_id dim)
         (if Number_isFinite value
          then clamp (Math_round value) min max
          else Fin 0)
         normalized)
    dimensions [].

Record ScoreEntry : Type := {
  se_id : jsstring;
  se_value : number
}.

Definition getSortedScores (scoreMap : ScoreMap) : list ScoreEntry :=
  Array_sort (fun a b => num_sub (se_value b) (se_value a))
    (List.map (fun '(id, value) => {| se_id := id; se_value := value |})
       (Object_entries scoreMap)).

(** The [case] labels of the [switch (type)] in [meetsCondition]. *)
Inductive kind : Type :=
| K_min | K_max_le | K_max_ge | K_diff_greater | K_diff_abs_lte
| K_top_is | K_not_top_is | K_rank_is | K_top_diff_gte | K_top_diff_lte
| K_total_min | K_total_max | K_sum_min | K_sum_max | K_spread_between
| K_default.

Definition kinds : list (string * kind) :=
  [ ("min", K_min); ("max_le", K_max_le); ("max_ge", K_max_ge);
    ("diff_greater", K_diff_greater); ("diff_abs_lte", K_diff_abs_lte);
    ("top_is", K_top_is); ("not_top_is", K_not_top_is);
    ("rank_is", K_rank_is); ("top_diff_gte", K_top_diff_gte);
    ("top_diff_lte", K_top_diff_lte); ("total_min", K_total_min);
    ("total_max", K_total_max); ("sum_min", K_sum_min);
    ("sum_max", K_sum_max); ("spread_between", K_spread_between) ]%string.

Fixpoint switch_on (labels : list (string * kind)) (t : jsstring) : kind :=
  match labels with
  | [] => K_default
  | (label, k) :: rest =>
      if jsstring_eqb t (js label) then k else switch_on rest t
  end.

(** [switch (type)]: an absent [type] takes the [default] branch. *)
Definition switch_type (type : option jsstring) : kind :=
  match type with
  | Some t => switch_on kinds t
  | None => K_default
  end.

(** [Object.values(scoreMap).reduce((sum, val) => sum + val, 0)] *)
Definition total_of (scoreMap : ScoreMap) : number :=
  fold_left (fun sum val => num_add sum val) (Object_values scoreMap) (Fin 0).

(** [dims.reduce((acc, id) => acc + (scoreMap[id] ?? 0), 0)] *)
Definition sum_over (dims : list jsstring) (scoreMap : ScoreMap) : number :=
  fold_left (fun acc id => num_add acc (nullish_or (obj_get id scoreMap) (Fin 0)))
    dims (Fin 0).

(** [Math.max(...values)] and [Math.min(...values)] *)
Definition Math_max_list (values : list number) : number :=
  fold_left Math_max values NegInf.

Definition Math_min_list (values : list number) : number :=
  fold_left Math_min values PosInf.

Definition meetsCondition (cond : option ResultCondition) (scoreMap : ScoreMap)
  : bool :=
  match cond with
  | None => true
  | Some cond =>
    if truthy_opt_string (cond_dim cond)
       && negb (truthy_opt_string (cond_type cond))
    then
      let value := nullish_or (obj_get (nullish_or (cond_dim cond) []) scoreMap)
                     (Fin 0) in
      match cond_min cond, cond_max cond with
      | None, None =>
          let op := string_or (cond_op cond) (js "gte") in
          let target := nullish_or (cond_value cond) (Fin 0) in
          if jsstring_eqb op (js "gt") then num_gt value target
          else if jsstring_eqb op (js "lt") then num_lt value target
          else if jsstring_eqb op (js "lte") then num_le value target
          else if jsstring_eqb op (js "eq") then num_eq value target
          else num_ge value target
      | _, _ =>
          let min := nullish_or (cond_min cond) NegInf in
          let max := nullish_or (cond_max cond) PosInf in
          num_ge value min && num_le value max
      end
    else
      let type := cond_type cond in
      let dim := string_or (cond_dim cond) (js "calm") in
      let value := nullish_or (cond_value cond) (Fin 0) in
      match switch_type type with
      | K_min => num_ge (nullish_or (obj_get dim scoreMap) (Fin 0)) value
      | K_max_le => num_le (nullish_or (obj_get dim scoreMap) (Fin 0)) value
      | K_max_ge => num_ge (nullish_or (obj_get dim scoreMap) (Fin 0)) value
      | K_diff_greater =>
          if negb (truthy_opt_string (cond_a cond))
             || negb (truthy_opt_string (cond_b cond))
          then false
          else
            let a := nullish_or (cond_a cond) [] in
            let b := nullish_or (cond_b cond) [] in
            num_gt (nullish_or (obj_get a scoreMap) (Fin 0))
                   (num_add (nullish_or (obj_get b scoreMap) (Fin 0)) value)
      | K_diff_abs_lte =>
          if negb (truthy_opt_string (cond_a cond))
             || negb (truthy_opt_string (cond_b cond))
          then false
          else
            let a := nullish_or (cond_a cond) [] in
            let b := nullish_or (cond_b cond) [] in
            num_le (Math_abs (num_sub (nullish_or (obj_get a scoreMap) (Fin 0))
                                      (nullish_or (obj_get b scoreMap) (Fin 0))))
                   value
      | K_top_is =>
          let sorted := getSortedScores scoreMap in
          opt_string_eqb (option_map se_id (nth_error sorted 0)) (cond_dim cond)
      | K_not_top_is =>
          let sorted := getSortedScores scoreMap in
          negb (opt_string_eqb (option_map se_id (nth_error sorted 0))
                  (cond_dim cond))
      | K_rank_is =>
          let sorted := getSortedScores scoreMap in
          let rank := Math_max (Fin 1)
                        (number_or (Some (Number_of (cond_rank cond))) (Fin 1)) in
          opt_string_eqb
            (option_map se_id (Array_get sorted (num_sub rank (Fin 1))))
            (cond_dim cond)
      | K_top_diff_gte =>
          let sorted := getSortedScores scoreMap in
          let top := nullish_or (option_map se_value (nth_error sorted 0)) (Fin 0) in
          let second := nullish_or (option_map se_value (nth_error sorted 1)) (Fin 0) in
          num_ge (num_sub top second) value
      | K_top_diff_lte =>
          let sorted := getSortedScores scoreMap in
          let top := nullish_or (option_map se_value (nth_error sorted 0)) (Fin 0) in
          let second := nullish_or (option_map se_value (nth_error sorted 1)) (Fin 0) in
          num_le (num_sub top second) value
      | K_total_min => num_ge (total_of scoreMap) value
      | K_total_max => num_le (total_of scoreMap) value
      | K_sum_min =>
          let dims := nullish_or (cond_dims cond) [] in
          num_ge (sum_over dims scoreMap) value
      | K_sum_max =>
          let dims := nullish_or (cond_dims cond) [] in
          num_le (sum_over dims scoreMap) value
      | K_spread_between =>
          let values := Object_values scoreMap in
          let spread :=
            match values with
            | [] => Fin 0
            | _ :: _ => num_sub (Math_max_list values) (Math_min_list values)
            end in
          let min := nullish_or (cond_min cond) (Fin 0) in
          let max := nullish_or (cond_max cond) PosInf in
          num_ge spread min && num_le spread max
      | K_default => true
      end
  end.

Definition resultMatchesConditions (result : ResultProfile)
  (scoreMap : ScoreMap) : bool :=
  let conditions := nullish_or (rp_conditions result) [] in
  match conditions with
  | [] => true
  | _ :: _ => forallb (fun cond => meetsCondition (Some cond) scoreMap) conditions
  end.

(** The body of [candidates.forEach((result, index) => ...)] on the state
    [(best, bestPriority)]. *)
Definition resolve_step (results : list ResultProfile)
  (state : option ResultProfile * number) (result : ResultProfile) (index : Z)
  : option ResultProfile * number :=
  let '(best, bestPriority) := state in
  let priority :=
    if Number_isFinite (Number_of (rp_priority result))
    then Number_of (rp_priority result)
    else Fin 0 in
  if num_gt priority bestPriority then (Some result, priority)
  else
    match best with
    | Some b =>
        if num_eq priority bestPriority
        then
          let bestIndex := indexOf results b in
          if (index <? bestIndex)%Z then (Some result, bestPriority)
          else (best, bestPriority)
        else (best, bestPriority)
    | None =>
        if num_eq priority bestPriority then (Some result, bestPriority)
        else (best, bestPriority)
    end.

Fixpoint forEach_candidates (results candidates : list ResultProfile)
  (index : Z) (state : option ResultProfile * number)
  : option ResultProfile * number :=
  match candidates with
  | [] => state
  | result :: rest =>
      forEach_candidates results rest (index + 1)%Z
        (resolve_step results state result index)
  end.

Definition resolveConditionalResult (results : list ResultProfile)
  (scoreMap : ScoreMap) : option ResultProfile :=
  let candidates :=
    filter (fun result => resultMatchesConditions result scoreMap) results in
  match candidates with
  | [] => None
  | _ :: _ => fst (forEach_candidates results candidates 0%Z (None, NegInf))
  end.

(** The literal object used when [results] is empty. *)
Definition placeholder : ResultProfile :=
  {| rp_id := js "fallback";
     rp_title := js "Your Potion";
     rp_summary := js "";
     rp_lore := Some (js "");
     rp_image := None;
     rp_palette := None;
     rp_tasting_notes := None;
     rp_side_effect := None;
     rp_signature_ritual := None;
     rp_signals := Some [];
     rp_priority := None;
     rp_conditions := None;
     rp_extra := None |}.

Definition fallbackMap : dict jsstring :=
  List.map (fun '(k, v) => (js k, js v))
    [ ("calm", "potion_top_calm"); ("courage", "potion_top_courage");
      ("focus", "potion_top_focus"); ("charm", "potion_top_charm");
      ("tempo", "potion_top_tempo"); ("insight", "potion_top_insight");
      ("resolve", "potion_top_resolve"); ("wonder", "potion_top_wonder")
    ]%string.

(** [results.find((result) => result.id === id)] *)
Definition find_by_id (results : list ResultProfile) (id : jsstring)
  : option ResultProfile :=
  find (fun result => jsstring_eqb (rp_id result) id) results.

(** [Object.entries(scoreMap).sort(|b| - |a|).map(([id]) => id)] *)
Definition dominant_of (scoreMap : ScoreMap) : list jsstring :=
  List.map fst
    (Array_sort (fun a b => num_sub (Math_abs (snd b)) (Math_abs (snd a)))
       (Object_entries scoreMap)).

(** [results.find(potion_calm) || results[0] || { id: "fallback", ... }] *)
Definition defaultResult_of (results : list ResultProfile) : ResultProfile :=
  match find_by_id results (js "potion_calm") with
  | Some r => r
  | None =>
      match results with
      | r :: _ => r
      | [] => placeholder
      end
  end.

Definition signal_of (scoreMap : ScoreMap) : jsstring :=
  let scoreValues := Object_values scoreMap in
  let total :=
    fold_left (fun sum val => num_add sum (Math_abs val)) scoreValues (Fin 0) in
  if num_gt total (num_of_Z 18) then js "High signal"
  else if num_gt total (num_of_Z 10) then js "Moderate signal"
  else js "Soft signal".

Definition computeResult (results : list ResultProfile) (scoreMap : ScoreMap)
  : ResultProfile :=
  let signal := signal_of scoreMap in
  match resolveConditionalResult results scoreMap with
  | Some conditional =>
      let summary := string_or (Some (rp_summary conditional)) (js "") in
      with_summary_extra conditional summary
        (string_or (rp_extra conditional) (js ""))
  | None =>
      let dominant := dominant_of scoreMap in
      let defaultResult := defaultResult_of results in
      match dominant with
      | [] => with_extra defaultResult signal
      | top :: _ =>
          let secondary := nth_error dominant 1 in
          let mappedId := obj_get top fallbackMap in
          let resolved :=
            match
              match mappedId with
              | Some id => find_by_id results id
              | None => None
              end
            with
            | Some r => r
            | None => defaultResult
            end in
          with_summary_extra resolved
            (string_or (Some (rp_summary resolved)) (js ""))
            (js "Dominant: " ++ top ++
             (if truthy_opt_string secondary
              then js ", Secondary: " ++ nullish_or secondary []
              else js ""))
      end
  end.

(** The score update of [handleAnswer]: [nextScores] after the loop over
    [Object.entries(option.weights || {})]. *)
Definition handleAnswer_nextScores (scores : ScoreMap) (option : QuestionOption)
  : ScoreMap :=
  fold_left
    (fun nextScores '(dimId, delta) =>
       let numericDelta := delta in
       obj_set dimId
         (clamp
            (num_add (number_or (obj_get dimId nextScores) (Fin 0))
               (if Number_isFinite numericDelta then numericDelta else Fin 0))
            (num_of_Z (-20)) (num_of_Z 20))
         nextScores)
    (Object_entries (nullish_or (opt_weights option) []))
    scores.

(** ** Share-state codec *)

(** *** The platform's [btoa] and [atob] *)

Local Open Scope N_scope.

(** The base64 alphabet: [A-Z], [a-z], [0-9], [+], [/]. *)
Definition b64_char (i : N) : N :=
  if i <? 26 then 65 + i
  else if i <? 52 then 97 + (i - 26)
  else if i <? 62 then 48 + (i - 52)
  else if i =? 62 then 43
  else 47.

Definition b64_index (c : N) : option N :=
  if (65 <=? c) && (c <=? 90) then Some (c - 65)
  else if (97 <=? c) && (c <=? 122) then Some (c - 97 + 26)
  else if (48 <=? c) && (c <=? 57) then Some (c - 48 + 52)
  else if c =? 43 then Some 62
  else if c =? 47 then Some 63
  else None.

(** The 6-bit groups of a byte sequence, the last one filled with zero bits. *)
Fixpoint sextets (bytes : list N) : list N :=
  match bytes with
  | b1 :: b2 :: b3 :: rest =>
      b1 / 4 :: (b1 mod 4) * 16 + b2 / 16 :: (b2 mod 16) * 4 + b3 / 64
        :: b3 mod 64 :: sextets rest
  | [b1; b2] => [b1 / 4; (b1 mod 4) * 16 + b2 / 16; (b2 mod 16) * 4]
  | [b1] => [b1 / 4; (b1 mod 4) * 16]
  | [] => []
  end.

(** The bytes of a sequence of 6-bit groups; the bits of an incomplete last
    byte are discarded. *)
Fixpoint unsextets (groups : list N) : list N :=
  match groups with
  | s1 :: s2 :: s3 :: s4 :: rest =>
      s1 * 4 + s2 / 16 :: (s2 mod 16) * 16 + s3 / 4 :: (s3 mod 4) * 64 + s4
        :: unsextets rest
  | [s1; s2; s3] => [s1 * 4 + s2 / 16; (s2 mod 16) * 16 + s3 / 4]
  | [s1; s2] => [s1 * 4 + s2 / 16]
  | _ => []
  end.

(** The number of characters missing to a multiple of four. *)
Definition pad_length (n : nat) : nat := ((4 - n mod 4) mod 4)%nat.

(** [btoa(text)]: throws on a code unit above U+00FF. *)
Definition btoa (text : jsstring) : outcome jsstring :=
  if forallb (fun c => c <=? 255) text
  then
    let body := List.map b64_char (sextets text) in
    Returned (body ++ repeat 61 (pad_length (List.length body)))
  else Thrown InvalidCharacterError.

Definition is_ascii_whitespace (c : N) : bool :=
  (c =? 9) || (c =? 10) || (c =? 12) || (c =? 13) || (c =? 32).

(** Removes one or two trailing [=]. *)
Definition remove_padding (data : jsstring) : jsstring :=
  match rev data with
  | c :: r =>
      if c =? 61
      then
        match r with
        | c' :: r' => if c' =? 61 then rev r' else rev r
        | [] => rev r
        end
      else data
  | [] => data
  end.

Fixpoint b64_indices (data : jsstring) : option (list N) :=
  match data with
  | [] => Some []
  | c :: rest =>
      match b64_index c, b64_indices rest with
      | Some i, Some l => Some (i :: l)
      | _, _ => None
      end
  end.

(** [atob(data)]: the forgiving base64 decoding of the HTML standard. *)
Definition atob (data : jsstring) : outcome jsstring :=
  let data := filter (fun c => negb (is_ascii_whitespace c)) data in
  let data :=
    if (List.length data mod 4 =? 0)%nat then remove_padding data else data in
  if (List.length data mod 4 =? 1)%nat then Thrown InvalidCharacterError
  else
    match b64_indices data with
    | Some groups => Returned (unsextets groups)
    | None => Thrown InvalidCharacterError
    end.

(** *** The URL-safe alphabet *)

(** [s.replace(/c/g, d)] for single characters [c] and [d] *)
Definition replace_all (c d : N) (s : jsstring) : jsstring :=
  List.map (fun x => if x =? c then d else x) s.

(** [s.replace(/c+$/g, "")] *)
Fixpoint strip_trailing (c : N) (s : jsstring) : jsstring :=
  match s with
  | [] => []
  | x :: rest =>
      match strip_trailing c rest with
      | [] => if x =? c then [] else [x]
      | r => x :: r
      end
  end.

Definition toBase64Url (text : jsstring) : outcome jsstring :=
  bind (btoa text)
    (fun b => Returned (strip_trailing 61 (replace_all 47 95 (replace_all 43 45 b)))).

Definition fromBase64Url (encoded : jsstring) : outcome jsstring :=
  let padded := replace_all 95 47 (replace_all 45 43 encoded) in
  let padLen := pad_length (List.length padded) in
  atob (padded ++ repeat 61 padLen).

Local Close Scope N_scope.

(** *** Values and payloads *)

(** The values [JSON.parse] returns and [JSON.stringify] takes. *)
#[local] Unset Elimination Schemes.
Inductive value : Type :=
| VNull
| VBool (b : bool)
| VNum (n : number)
| VStr (s : jsstring)
| VArr (items : list value)
| VObj (fields : list (jsstring * value)).
#[local] Set Elimination Schemes.

Record SharedStateV1 : Type := {
  ss_v : number;
  ss_resultId : jsstring;
  ss_scores : ScoreMap;
  ss_answers : list number
}.

(** The payload object [{ v, resultId, scores, answers }]. *)
Definition payload_value (payload : SharedStateV1) : value :=
  VObj [ (js "v", VNum (ss_v payload));
         (js "resultId", VStr (ss_resultId payload));
         (js "scores",
           VObj (List.map (fun '(k, n) => (k, VNum n)) (ss_scores payload)));
         (js "answers", VArr (List.map VNum (ss_answers payload))) ].

(** [x?.name] for the names [v] and [resultId], which only an object
    carries. *)
Definition get_prop (x : value) (name : jsstring) : option value :=
  match x with
  | VObj fields => obj_get name fields
  | _ => None
  end.

(** [x !== 1] and [typeof x !== "string"] on a property read *)
Definition is_one (x : option value) : bool :=
  match x with
  | Some (VNum n) => num_eq n (Fin 1)
  | _ => false
  end.

Definition is_string (x : option value) : bool :=
  match x with
  | Some (VStr _) => true
  | _ => false
  end.

Section Codec.

(** [JSON.stringify] and [JSON.parse] are the platform's. *)
Variable JSON_stringify : value -> jsstring.
Variable JSON_parse : jsstring -> outcome value.

(** [JSON.parse(decodeURIComponent(rawValue)) as ScoreMap]: the platform's
    decoding of the legacy parameter, at the type the source casts it to. *)
Variable parse_legacy : jsstring -> outcome (option ScoreMap).

Definition encodeShareState (payload : SharedStateV1) : outcome jsstring :=
  toBase64Url (JSON_stringify (payload_value payload)).

Definition decodeShareState (rawValue : option jsstring)
  : outcome (option value) :=
  if negb (truthy_opt_string rawValue) then Returned None
  else
    try_catch
      (bind (fromBase64Url (nullish_or rawValue []))
         (fun text =>
            bind (JSON_parse text)
              (fun parsed =>
                 if negb (is_one (get_prop parsed (js "v")))
                    || negb (is_string (get_prop parsed (js "resultId")))
                 then Returned None
                 else Returned (Some parsed))))
      None.

Definition decodeLegacyScoresFromUrl (rawValue : option jsstring)
  (dimensions : list Dimension) : outcome (option ScoreMap) :=
  if negb (truthy_opt_string rawValue) then Returned None
  else
    try_catch
      (bind (parse_legacy (nullish_or rawValue []))
         (fun parsed =>
            Returned
              (Some (normalizeScoresForDimensions parsed dimensions
                       (num_of_Z (-10)) (num_of_Z 10)))))
      None.

End Codec.

(** *** A reference JSON text layer

    An executable serializer and parser for JSON texts, used to run the
    codec end to end.  A number is written as [Number::toString] writes
    the double it stands for when it is an integer below 10^21 or a
    decimal fraction of at most 15 significant digits; a string is written
    as [QuoteJSONString] writes it, a surrogate without its pair as an
    escape. *)

Local Open Scope N_scope.

Fixpoint uint_text (u : Decimal.uint) : jsstring :=
  match u with
  | Decimal.Nil => []
  | Decimal.D0 u => 48 :: uint_text u
  | Decimal.D1 u => 49 :: uint_text u
  | Decimal.D2 u => 50 :: uint_text u
  | Decimal.D3 u => 51 :: uint_text u
  | Decimal.D4 u => 52 :: uint_text u
  | Decimal.D5 u => 53 :: uint_text u
  | Decimal.D6 u => 54 :: uint_text u
  | Decimal.D7 u => 55 :: uint_text u
  | Decimal.D8 u => 56 :: uint_text u
  | Decimal.D9 u => 57 :: uint_text u
  end.

(** The text of an integer, printed in full. *)
Definition integer_text (z : Z) : jsstring :=
  (if (z <? 0)%Z then [45] else []) ++ uint_text (N.to_uint (Z.abs_N z)).

(** The least number of decimal places, [places] and at most [fuel] more,
    after which [num / den] is an integer, with that integer. *)
Fixpoint decimal_places (fuel : nat) (num den : N) (places : nat)
  : option (nat * N) :=
  if num mod den =? 0 then Some (places, num / den)
  else
    match fuel with
    | O => None
    | S fuel' => decimal_places fuel' (10 * num) den (S places)
    end.

(** [Number::toString] of the positive number with the decimal digits
    [digits], the last [places] of them decimal places (one at least, the
    last digit not [0]): with [n] the place of the decimal point, the
    digits around the point for [0 < n <= 21], [0.] and [-n] zeros in front
    of the digits for [-6 < n <= 0], and the exponent [n - 1] after the
    digits otherwise. *)
Definition decimal_text (digits : jsstring) (places : nat) : jsstring :=
  let n := (Z.of_nat (List.length digits) - Z.of_nat places)%Z in
  if ((0 <? n) && (n <=? 21))%Z
  then firstn (Z.to_nat n) digits ++ 46 :: skipn (Z.to_nat n) digits
  else if ((-6 <? n) && (n <=? 0))%Z
  then 48 :: 46 :: List.repeat 48 (Z.to_nat (- n)) ++ digits
  else
    match digits with
    | [] => []
    | [d] => [d]
    | d :: rest => d :: 46 :: rest
    end
    ++ 101 :: (if (n - 1 <? 0)%Z then 45 else 43)
       :: integer_text (Z.abs (n - 1)).

(** [Number::toString] inside [JSON.stringify]: a non-finite number is
    written [null].  A rational that is no decimal fraction is the value
    of no double; its text is that of its integer part. *)
Definition number_text (n : number) : jsstring :=
  match n with
  | Fin q =>
      let z := Qfloor q in
      if Qeq_bool q (inject_Z z) then integer_text z
      else
        match decimal_places 400 (Z.abs_N (Qnum q)) (Npos (Qden q)) 0 with
        | Some (places, s) =>
            (if (Qnum q <? 0)%Z then [45] else [])
            ++ decimal_text (uint_text (N.to_uint s)) places
        | None => integer_text z
        end
  | _ => js "null"
  end.

Definition hex_digit (i : N) : N := if i <? 10 then 48 + i else 87 + i.

Definition is_high_surrogate (c : N) : bool := (55296 <=? c) && (c <=? 56319).
Definition is_low_surrogate (c : N) : bool := (56320 <=? c) && (c <=? 57343).

(** The escape [\uxxxx] of a code unit, with lower-case digits. *)
Definition unicode_escape (c : N) : jsstring :=
  [92; 117; hex_digit (c / 4096); hex_digit ((c / 256) mod 16);
   hex_digit ((c / 16) mod 16); hex_digit (c mod 16)].

Definition escape_char (c : N) : jsstring :=
  if c =? 34 then [92; 34]
  else if c =? 92 then [92; 92]
  else if c =? 8 then [92; 98]
  else if c =? 12 then [92; 102]
  else if c =? 10 then [92; 110]
  else if c =? 13 then [92; 114]
  else if c =? 9 then [92; 116]
  else if c <? 32 then [92; 117; 48; 48; hex_digit (c / 16); hex_digit (c mod 16)]
  else [c].

(** The characters of a string in a JSON text: a surrogate pair is
    written as it is, a surrogate without its pair as an escape. *)
Fixpoint escape_text (s : jsstring) : jsstring :=
  match s with
  | [] => []
  | c :: rest =>
      if is_high_surrogate c
      then
        match rest with
        | d :: rest' =>
            if is_low_surrogate d then c :: d :: escape_text rest'
            else unicode_escape c ++ escape_text rest
        | [] => unicode_escape c
        end
      else if is_low_surrogate c then unicode_escape c ++ escape_text rest
      else escape_char c ++ escape_text rest
  end.

Definition string_text (s : jsstring) : jsstring :=
  34 :: escape_text s ++ [34].

(** The texts of the elements of [l], separated by commas. *)
Fixpoint join_text {A : Type} (f : A -> jsstring) (l : list A) : jsstring :=
  match l with
  | [] => []
  | x :: rest =>
      f x ++
      match rest with
      | [] => []
      | _ :: _ => 44 :: join_text f rest
      end
  end.

Fixpoint stringify_text (v : value) : jsstring :=
  match v with
  | VNull => js "null"
  | VBool true => js "true"
  | VBool false => js "false"
  | VNum n => number_text n
  | VStr s => string_text s
  | VArr items => 91 :: join_text stringify_text items ++ [93]
  | VObj fields =>
      123 :: join_text
               (fun '(k, x) => string_text k ++ 58 :: stringify_text x)
               fields ++ [125]
  end.

Definition is_json_ws (c : N) : bool :=
  (c =? 9) || (c =? 10) || (c =? 13) || (c =? 32).

Fixpoint skip_ws (s : jsstring) : jsstring :=
  match s with
  | c :: rest => if is_json_ws c then skip_ws rest else s
  | [] => []
  end.

Definition is_digit (c : N) : bool := (48 <=? c) && (c <=? 57).

(** The leading digits of [s], accumulated on [acc], their count and the
    rest. *)
Fixpoint take_digits (s : jsstring) (acc : N) (count : nat)
  : N * nat * jsstring :=
  match s with
  | c :: rest =>
      if is_digit c then take_digits rest (10 * acc + (c - 48)) (S count)
      else (acc, count, s)
  | [] => (acc, count, [])
  end.

Definition hex_value (c : N) : option N :=
  if is_digit c then Some (c - 48)
  else if (97 <=? c) && (c <=? 102) then Some (c - 87)
  else if (65 <=? c) && (c <=? 70) then Some (c - 55)
  else None.

(** The optional sign [c] in front of [s]. *)
Definition take_sign (c : N) (s : jsstring) : bool * jsstring :=
  match s with
  | x :: r => if x =? c then (true, r) else (false, s)
  | [] => (false, s)
  end.

(** A number token without its sign: [int frac? exp?] *)
Definition parse_unsigned (s1 : jsstring) : option (number * jsstring) :=
  let '(int, int_count, s2) := take_digits s1 0 0%nat in
  let leading_zero := fst (take_sign 48 s1) in
  if (int_count =? 0)%nat || (leading_zero && negb (int_count =? 1)%nat)
  then None
  else
    let frac :=
      match take_sign 46 s2 with
      | (true, r) =>
          let '(f, f_count, r') := take_digits r 0 0%nat in
          if (f_count =? 0)%nat then None else Some (f, f_count, r')
      | (false, _) => Some (0, 0%nat, s2)
      end in
    match frac with
    | None => None
    | Some (f, f_count, s3) =>
        let exp :=
          if fst (take_sign 101 s3) || fst (take_sign 69 s3)
          then
            let r := tl s3 in
            let '(exp_negative, r1) := take_sign 45 r in
            let r1 := if exp_negative then r1 else snd (take_sign 43 r) in
            let '(e, e_count, r2) := take_digits r1 0 0%nat in
            if (e_count =? 0)%nat then None
            else Some ((if exp_negative then - Z.of_N e else Z.of_N e)%Z, r2)
          else Some (0%Z, s3) in
        match exp with
        | None => None
        | Some (e, s4) =>
            let mantissa :=
              match f_count with
              | O => inject_Z (Z.of_N int)
              | S _ =>
                  Qplus (inject_Z (Z.of_N int))
                    (Qmake (Z.of_N f) (Pos.pow 10 (Pos.of_nat f_count)))
              end in
            Some (Fin (Qmult mantissa (Qpower (inject_Z 10) e)), s4)
        end
    end.

(** A number token: [-? int frac? exp?] *)
Definition parse_number (s : jsstring) : option (number * jsstring) :=
  let '(negative, s1) := take_sign 45 s in
  match parse_unsigned s1 with
  | Some (n, rest) => Some (if negative then num_neg n else n, rest)
  | None => None
  end.

(** [s] without its prefix [p], when it starts with [p]. *)
Fixpoint strip_prefix (p s : jsstring) : option jsstring :=
  match p, s with
  | [], _ => Some s
  | a :: p', b :: s' => if a =? b then strip_prefix p' s' else None
  | _ :: _, [] => None
  end.

(** The character an escape [\e] stands for. *)
Definition unescape (e : N) : option N :=
  if e =? 34 then Some 34
  else if e =? 92 then Some 92
  else if e =? 47 then Some 47
  else if e =? 98 then Some 8
  else if e =? 102 then Some 12
  else if e =? 110 then Some 10
  else if e =? 114 then Some 13
  else if e =? 116 then Some 9
  else None.

(** The characters of a string token after its opening quote. *)
Fixpoint parse_chars (s : jsstring) : option (jsstring * jsstring) :=
  match s with
  | [] => None
  | c :: rest =>
      if c =? 34 then Some ([], rest)
      else if c =? 92 then
        match rest with
        | [] => None
        | e :: rest1 =>
            if e =? 117 then
              match rest1 with
              | h1 :: h2 :: h3 :: h4 :: rest2 =>
                  match hex_value h1, hex_value h2, hex_value h3,
                        hex_value h4, parse_chars rest2 with
                  | Some a, Some b, Some c, Some d, Some (chars, rest') =>
                      Some (((a * 16 + b) * 16 + c) * 16 + d :: chars, rest')
                  | _, _, _, _, _ => None
                  end
              | _ => None
              end
            else
              match unescape e, parse_chars rest1 with
              | Some c', Some (chars, rest') => Some (c' :: chars, rest')
              | _, _ => None
              end
        end
      else if c <? 32 then None
      else
        match parse_chars rest with
        | Some (chars, rest') => Some (c :: chars, rest')
        | None => None
        end
  end.

Local Close Scope N_scope.

(** A JSON value, the elements of an array after [[], the members of an
    object after [{]; [fuel] bounds the number of nested calls. *)
Fixpoint parse_value (fuel : nat) (s : jsstring) : option (value * jsstring) :=
  match fuel with
  | O => None
  | S fuel' =>
      let s := skip_ws s in
      match strip_prefix (js "null") s, strip_prefix (js "true") s,
            strip_prefix (js "false") s with
      | Some rest, _, _ => Some (VNull, rest)
      | None, Some rest, _ => Some (VBool true, rest)
      | None, None, Some rest => Some (VBool false, rest)
      | None, None, None =>
          match s with
          | [] => None
          | c :: rest =>
              if (c =? 34)%N then
                match parse_chars rest with
                | Some (chars, rest') => Some (VStr chars, rest')
                | None => None
                end
              else if (c =? 91)%N then
                match strip_prefix [93%N] (skip_ws rest) with
                | Some rest' => Some (VArr [], rest')
                | None =>
                    match parse_elements fuel' rest with
                    | Some (items, rest') => Some (VArr items, rest')
                    | None => None
                    end
                end
              else if (c =? 123)%N then
                match strip_prefix [125%N] (skip_ws rest) with
                | Some rest' => Some (VObj [], rest')
                | None =>
                    match parse_members fuel' rest with
                    | Some (members, rest') =>
                        Some (VObj (fold_left (fun o '(k, x) => obj_set k x o)
                                      members []), rest')
                    | None => None
                    end
                end
              else
                match parse_number s with
                | Some (n, rest') => Some (VNum n, rest')
                | None => None
                end
          end
      end
  end
with parse_elements (fuel : nat) (s : jsstring)
  : option (list value * jsstring) :=
  match fuel with
  | O => None
  | S fuel' =>
      match parse_value fuel' s with
      | Some (x, rest) =>
          match strip_prefix [93%N] (skip_ws rest),
                strip_prefix [44%N] (skip_ws rest) with
          | Some rest', _ => Some ([x], rest')
          | None, Some rest' =>
              match parse_elements fuel' rest' with
              | Some (items, rest'') => Some (x :: items, rest'')
              | None => None
              end
          | None, None => None
          end
      | None => None
      end
  end
with parse_members (fuel : nat) (s : jsstring)
  : option (list (jsstring * value) * jsstring) :=
  match fuel with
  | O => None
  | S fuel' =>
      match strip_prefix [34%N] (skip_ws s) with
      | Some rest =>
          match parse_chars rest with
          | Some (k, rest1) =>
              match strip_prefix [58%N] (skip_ws rest1) with
              | Some rest2 =>
                  match parse_value fuel' rest2 with
                  | Some (x, rest3) =>
                      match strip_prefix [125%N] (skip_ws rest3),
                            strip_prefix [44%N] (skip_ws rest3) with
                      | Some rest', _ => Some ([(k, x)], rest')
                      | None, Some rest' =>
                          match parse_members fuel' rest' with
                          | Some (members, rest'') =>
                              Some ((k, x) :: members, rest'')
                          | None => None
                          end
                      | None, None => None
                      end
                  | None => None
                  end
              | None => None
              end
          | None => None
          end
      | None => None
      end
  end.

Definition parse_text (s : jsstring) : outcome value :=
  match parse_value (2 * List.length s + 2) s with
  | Some (x, rest) =>
      match skip_ws rest with
      | [] => Returned x
      | _ :: _ => Thrown SyntaxError
      end
  | None => Thrown SyntaxError
  end.

(** ** The live profile *)

(** [parts.join(sep)] on strings *)
Fixpoint Array_join (sep : jsstring) (parts : list jsstring) : jsstring :=
  match parts with
  | [] => []
  | part :: rest =>
      part ++
      match rest with
      | [] => []
      | _ :: _ => sep ++ Array_join sep rest
      end
  end.

(** The arrows U+2191 and U+2193, and the separator: a space, the middle
    dot U+00B7, a space. *)
Definition arrow_up : jsstring := [8593%N].
Definition arrow_down : jsstring := [8595%N].
Definition middle_dot : jsstring := [32%N; 183%N; 32%N].

Definition buildLiveProfileText (scoreMap : ScoreMap) : jsstring :=
  let top :=
    Array_join middle_dot
      (List.map
         (fun '(id, value) =>
            id ++ js " " ++
            (if num_gt value (Fin 0) then arrow_up else arrow_down))
         (firstn 2
            (Array_sort
               (fun a b => num_sub (Math_abs (snd b)) (Math_abs (snd a)))
               (Object_entries scoreMap)))) in
  if truthy_string top
  then js "Current leaning: " ++ top
  else js "Answer a few questions to see your shape.".

(** ** The share card: wrapping text *)

(** [a * b] *)
Definition num_mul (a b : number) : number :=
  match a, b with
  | NaN, _ | _, NaN => NaN
  | Fin x, Fin y => Fin (Qmult x y)
  | Fin x, PosInf | PosInf, Fin x =>
      if Qeq_bool x 0 then NaN else if Qlt_bool 0 x then PosInf else NegInf
  | Fin x, NegInf | NegInf, Fin x =>
      if Qeq_bool x 0 then NaN else if Qlt_bool 0 x then NegInf else PosInf
  | PosInf, PosInf | NegInf, NegInf => PosInf
  | PosInf, NegInf | NegInf, PosInf => NegInf
  end.

(** [s.split(sep)] for a separator of one character: the pieces between
    the separators, at least one. *)
Fixpoint String_split (sep : N) (s : jsstring) : list jsstring :=
  match s with
  | [] => [[]]
  | c :: rest =>
      if (c =? sep)%N then [] :: String_split sep rest
      else
        match String_split sep rest with
        | piece :: pieces => (c :: piece) :: pieces
        | [] => [[c]]
        end
  end.

(** A call [ctx.fillText(text, x, y)]. *)
Record fillText_call : Type := {
  ft_text : jsstring;
  ft_x : number;
  ft_y : number
}.

Section Canvas.

(** [ctx.measureText(text).width] is the platform's. *)
Variable measureText_width : jsstring -> number.

(** The body of [words.forEach((word) => ...)] in [wrapText], on the state
    [(line, offsetY, drawnLines)] and the calls of [fillText] made so
    far. *)
Definition wrapText_word (x maxWidth lineHeight : number) (measureOnly : bool)
  (state : jsstring * number * number * list fillText_call) (word : jsstring)
  : jsstring * number * number * list fillText_call :=
  let '(line, offsetY, drawnLines, calls) := state in
  let test := line ++ word ++ js " " in
  if num_gt (measureText_width test) maxWidth && truthy_string line
  then
    (word ++ js " ", num_add offsetY lineHeight, num_add drawnLines (Fin 1),
     if measureOnly then calls
     else calls ++ [{| ft_text := line; ft_x := x; ft_y := offsetY |}])
  else (test, offsetY, drawnLines, calls).

(** [wrapText(ctx, text, x, y, maxWidth, lineHeight, measureOnly)]: the
    calls of [ctx.fillText] it makes, in order, and the height it
    returns. *)
Definition wrapText (text : jsstring) (x y maxWidth lineHeight : number)
  (measureOnly : bool) : list fillText_call * number :=
  let words := String_split 32 text in
  let '(line, offsetY, drawnLines, calls) :=
    fold_left (wrapText_word x maxWidth lineHeight measureOnly) words
      ([], y, Fin 0, []) in
  let '(drawnLines, calls) :=
    if truthy_string line
    then
      (num_add drawnLines (Fin 1),
       if measureOnly then calls
       else calls ++ [{| ft_text := line; ft_x := x; ft_y := offsetY |}])
    else (drawnLines, calls) in
  (calls, Math_max lineHeight (num_mul drawnLines lineHeight)).

End Canvas.

(** ** The legacy codec: encoding *)

(** The object [JSON.stringify] is given for a score vector. *)
Definition scores_value (scores : ScoreMap) : value :=
  VObj (List.map (fun '(k, n) => (k, VNum n)) scores).

Section LegacyEncoding.

Variable JSON_stringify : value -> jsstring.

(** [encodeURIComponent] is the platform's; it throws [URIError] on a
    surrogate without its pair, which a text of [JSON.stringify] does not
    contain. *)
Variable encodeURIComponent : jsstring -> outcome jsstring.

Definition encodeLegacyScoresForUrl (scoreMap : ScoreMap)
  (dimensions : list Dimension) : outcome jsstring :=
  let normalized :=
    normalizeScoresForDimensions (Some scoreMap) dimensions
      (num_of_Z (-10)) (num_of_Z 10) in
  encodeURIComponent (JSON_stringify (scores_value normalized)).

End LegacyEncoding.

(** ** The state in the page URL *)

Record Question : Type := {
  q_id : jsstring;
  q_prompt : jsstring;
  q_image : option jsstring;
  q_options : list QuestionOption
}.

Record QuizData : Type := {
  qd_title : jsstring;
  qd_subtitle : jsstring;
  qd_dimensions : list Dimension;
  qd_questions : list Question;
  qd_results : list ResultProfile
}.

Record RestoredState : Type := {
  rs_result : ResultProfile;
  rs_scores : ScoreMap;
  rs_answers : list number
}.

(** The query of the page URL as a [URLSearchParams] object holds it: the
    list of its name-value pairs.  What [updateUrlState] writes with
    [replaceState] is what [restoreFromUrl] reads from
    [window.location.search]: the URL Standard's serializer and parser give
    back the pairs of well-formed strings. *)
Definition URLSearchParams : Type := list (jsstring * jsstring).

(** [params.get(name)]: the value of the first pair named [name], or
    [null]. *)
Fixpoint searchParams_get (name : jsstring) (params : URLSearchParams)
  : option jsstring :=
  match params with
  | [] => None
  | (k, v) :: rest =>
      if jsstring_eqb k name then Some v else searchParams_get name rest
  end.

(** [params.delete(name)]: removes every pair named [name]. *)
Definition searchParams_delete (name : jsstring) (params : URLSearchParams)
  : URLSearchParams :=
  filter (fun '(k, _) => negb (jsstring_eqb k name)) params.

(** [params.set(name, value)]: sets the value of the first pair named
    [name] and removes the others; appends a pair when there is none. *)
Fixpoint searchParams_set (name value : jsstring) (params : URLSearchParams)
  : URLSearchParams :=
  match params with
  | [] => [(name, value)]
  | (k, v) :: rest =>
      if jsstring_eqb k name
      then (k, value) :: searchParams_delete name rest
      else (k, v) :: searchParams_set name value rest
  end.

(** Truthiness of a property read of a parsed JSON value. *)
Definition truthy_value (x : option value) : bool :=
  match x with
  | None | Some VNull => false
  | Some (VBool b) => b
  | Some (VNum n) => truthy_number n
  | Some (VStr s) => truthy_string s
  | Some (VArr _) | Some (VObj _) => true
  end.

(** [results.find((item) => item.id === x)] for a property read [x]: an id
    is a string, which only a string is strictly equal to. *)
Definition find_by_value (results : list ResultProfile) (x : option value)
  : option ResultProfile :=
  match x with
  | Some (VStr id) => find_by_id results id
  | _ => None
  end.

Definition Number_isInteger (n : number) : bool :=
  match n with
  | Fin q => Qeq_bool q (inject_Z (Qfloor q))
  | _ => false
  end.

(** [items.map(f)] for an [f] that may throw: the first exception ends the
    call. *)
Fixpoint Array_map_outcome {A B : Type} (f : A -> outcome B) (items : list A)
  : outcome (list B) :=
  match items with
  | [] => Returned []
  | x :: rest =>
      bind (f x) (fun y =>
      bind (Array_map_outcome f rest) (fun ys => Returned (y :: ys)))
  end.

Section UrlState.

Variable JSON_stringify : value -> jsstring.
Variable JSON_parse : jsstring -> outcome value.
Variable encodeURIComponent : jsstring -> outcome jsstring.
Variable parse_legacy : jsstring -> outcome (option ScoreMap).

(** [Number(x)] of a string, an array or an object is the platform's: a
    string is read as a numeric literal, an array or an object is converted
    through its primitive value, and that conversion can throw. *)
Variable ToNumber : value -> outcome number.

(** [Number(x)] of a property read of a parsed JSON value. *)
Definition Number_of_value (x : option value) : outcome number :=
  match x with
  | None => Returned NaN
  | Some VNull => Returned (Fin 0)
  | Some (VBool b) => Returned (if b then Fin 1 else Fin 0)
  | Some (VNum n) => Returned n
  | Some other => ToNumber other
  end.

(** [normalizeScoresForDimensions(input, dimensions, min, max)] for an
    [input] that [JSON.parse] produced, as [restoreFromUrl] passes it.
    [input?.[dim.id]] is a property of an object and [undefined] on any
    other value: dimension ids are ordinary names, which strings, arrays
    and numbers do not carry. *)
Definition normalizeScoresForDimensions_of_value (input : option value)
  (dimensions : list Dimension) (min max : number) : outcome ScoreMap :=
  fold_left
    (fun acc dim =>
       bind acc (fun normalized =>
       bind (Number_of_value
               match input with
               | Some x => get_prop x (dim_id dim)
               | None => None
               end)
         (fun value =>
            Returned
              (obj_set (dim_id dim)
                 (if Number_isFinite value
                  then clamp (Math_round value) min max
                  else Fin 0)
                 normalized))))
    dimensions (Returned []).

(** [Array.isArray(answers) ? answers.map((value) => Number(value))
    .filter((value) => Number.isInteger(value) && value >= 0) : []] *)
Definition restored_answers (answers : option value) : outcome (list number) :=
  match answers with
  | Some (VArr items) =>
      bind (Array_map_outcome (fun value => Number_of_value (Some value)) items)
        (fun values =>
           Returned
             (filter
                (fun value => Number_isInteger value && num_ge value (Fin 0))
                values))
  | _ => Returned []
  end.

(** [restoreFromUrl(data)], reading the query [search] of the page URL. *)
Definition restoreFromUrl (data : QuizData) (search : URLSearchParams)
  : outcome (option RestoredState) :=
  bind (decodeShareState JSON_parse (searchParams_get (js "state") search))
    (fun sharedState =>
       let direct :=
         let resultId := searchParams_get (js "result") search in
         if negb (truthy_opt_string resultId) then Returned None
         else
           match find_by_id (qd_results data) (nullish_or resultId []) with
           | None => Returned None
           | Some directResult =>
               bind (decodeLegacyScoresFromUrl parse_legacy
                       (searchParams_get (js "scores") search)
                       (qd_dimensions data))
                 (fun decoded =>
                    let restoredScores :=
                      match decoded with
                      | Some scores => scores
                      | None => createInitialScores (qd_dimensions data)
                      end in
                    Returned
                      (Some {| rs_result := directResult;
                               rs_scores := restoredScores;
                               rs_answers := [] |}))
           end in
       match sharedState with
       | Some state =>
           if truthy_value (get_prop state (js "resultId"))
           then
             match find_by_value (qd_results data)
                     (get_prop state (js "resultId")) with
             | Some result =>
                 bind (normalizeScoresForDimensions_of_value
                         (get_prop state (js "scores")) (qd_dimensions data)
                         (num_of_Z (-20)) (num_of_Z 20))
                   (fun scores =>
                 bind (restored_answers (get_prop state (js "answers")))
                   (fun answers =>
                      Returned
                        (Some {| rs_result := result;
                                 rs_scores := scores;
                                 rs_answers := answers |})))
             | None => direct
             end
           else direct
       | None => direct
       end).

(** [updateUrlState(resultId, scoreMap, answers, dimensions)]: the query
    it leaves in the page URL, from the query [search]. *)
Definition updateUrlState (resultId : option jsstring)
  (scoreMap : option ScoreMap) (answers : option (list number))
  (dimensions : list Dimension) (search : URLSearchParams)
  : outcome URLSearchParams :=
  match scoreMap with
  | Some scores =>
      if negb (truthy_opt_string resultId)
      then
        Returned
          (searchParams_delete (js "scores")
             (searchParams_delete (js "result")
                (searchParams_delete (js "state") search)))
      else
        let resultId := nullish_or resultId [] in
        bind (encodeLegacyScoresForUrl JSON_stringify encodeURIComponent
                scores dimensions)
          (fun legacyScores =>
             let sharedPayload :=
               {| ss_v := Fin 1;
                  ss_resultId := resultId;
                  ss_scores :=
                    normalizeScoresForDimensions (Some scores) dimensions
                      (num_of_Z (-20)) (num_of_Z 20);
                  ss_answers := nullish_or answers [] |} in
             bind (encodeShareState JSON_stringify sharedPayload)
               (fun state =>
                  Returned
                    (searchParams_set (js "scores") legacyScores
                       (searchParams_set (js "result") resultId
                          (searchParams_set (js "state") state search)))))
  | None =>
      Returned
        (searchParams_delete (js "scores")
           (searchParams_delete (js "result")
              (searchParams_delete (js "state") search)))
  end.

(** [buildResultShareUrl(resultId, scoreMap, answers, dimensions)]: the
    query of the URL it returns. *)
Definition buildResultShareUrl (resultId : jsstring) (scoreMap : ScoreMap)
  (answers : list number) (dimensions : list Dimension)
  (search : URLSearchParams) : outcome URLSearchParams :=
  bind (encodeLegacyScoresForUrl JSON_stringify encodeURIComponent
          scoreMap dimensions)
    (fun legacyScores =>
       let sharedPayload :=
         {| ss_v := Fin 1;
            ss_resultId := resultId;
            ss_scores :=
              normalizeScoresForDimensions (Some scoreMap) dimensions
                (num_of_Z (-20)) (num_of_Z 20);
            ss_answers := answers |} in
       bind (encodeShareState JSON_stringify sharedPayload)
         (fun state =>
            Returned
              (searchParams_set (js "scores") legacyScores
                 (searchParams_set (js "result") resultId
                    (searchParams_set (js "state") state search))))).

(** [finalizeQuiz(nextScores, nextAnswers)] for loaded [data]: the result
    it shows ([setLastResult]) and the query [syncUrl] leaves in the page
    URL. *)
Definition finalizeQuiz (data : QuizData) (nextScores : ScoreMap)
  (nextAnswers : list number) (search : URLSearchParams)
  : ResultProfile * outcome URLSearchParams :=
  let resolvedResult := computeResult (qd_results data) nextScores in
  (resolvedResult,
   updateUrlState (Some (rp_id resolvedResult)) (Some nextScores)
     (Some nextAnswers) (qd_dimensions data) search).

End UrlState.

(** [buildPotionOnlyUrl(resultId)]: the query of the URL it returns. *)
Definition buildPotionOnlyUrl (resultId : jsstring) (search : URLSearchParams)
  : URLSearchParams :=
  searchParams_delete (js "scores")
    (searchParams_delete (js "state")
       (searchParams_set (js "result") resultId search)).

(** *** A reference URI component layer

    An executable [encodeURIComponent] and [decodeURIComponent], used to
    run the legacy codec end to end. *)

Local Open Scope N_scope.

(** The characters [encodeURIComponent] leaves as they are: letters,
    digits and [- _ . ! ~ * ' ( )]. *)
Definition uri_unreserved (c : N) : bool :=
  (65 <=? c) && (c <=? 90) || (97 <=? c) && (c <=? 122)
  || (48 <=? c) && (c <=? 57)
  || existsb (N.eqb c) [45; 95; 46; 33; 126; 42; 39; 40; 41].

Definition upper_hex_digit (i : N) : N := if i <? 10 then 48 + i else 55 + i.

(** [%XX] for the byte [b] *)
Definition percent_byte (b : N) : jsstring :=
  [37; upper_hex_digit (b / 16); upper_hex_digit (b mod 16)].

(** The UTF-8 bytes of a code point. *)
Definition utf8_bytes (cp : N) : list N :=
  if cp <? 128 then [cp]
  else if cp <? 2048 then [192 + cp / 64; 128 + cp mod 64]
  else if cp <? 65536
  then [224 + cp / 4096; 128 + (cp / 64) mod 64; 128 + cp mod 64]
  else [240 + cp / 262144; 128 + (cp / 4096) mod 64; 128 + (cp / 64) mod 64;
        128 + cp mod 64].

Fixpoint encodeURIComponent_text (s : jsstring) : outcome jsstring :=
  match s with
  | [] => Returned []
  | c :: rest =>
      if uri_unreserved c
      then bind (encodeURIComponent_text rest) (fun r => Returned (c :: r))
      else if is_low_surrogate c then Thrown URIError
      else if is_high_surrogate c
      then
        match rest with
        | d :: rest' =>
            if is_low_surrogate d
            then
              let cp := 65536 + (c - 55296) * 1024 + (d - 56320) in
              bind (encodeURIComponent_text rest')
                (fun r => Returned (flat_map percent_byte (utf8_bytes cp) ++ r))
            else Thrown URIError
        | [] => Thrown URIError
        end
      else
        bind (encodeURIComponent_text rest)
          (fun r => Returned (flat_map percent_byte (utf8_bytes c) ++ r))
  end.

(** The byte of an escape [%XX] at the head of [s], and what follows it. *)
Definition take_percent_byte (s : jsstring) : option (N * jsstring) :=
  match s with
  | p :: h :: l :: rest =>
      if p =? 37
      then
        match hex_value h, hex_value l with
        | Some x, Some y => Some (16 * x + y, rest)
        | _, _ => None
        end
      else None
  | _ => None
  end.

(** The payload bits of [count] continuation bytes [10xxxxxx] in front of
    [s], appended to [acc]. *)
Fixpoint take_continuation (count : nat) (acc : N) (s : jsstring)
  : option (N * jsstring) :=
  match count with
  | O => Some (acc, s)
  | S count' =>
      match take_percent_byte s with
      | Some (b, rest) =>
          if (128 <=? b) && (b <=? 191)
          then take_continuation count' (acc * 64 + (b - 128)) rest
          else None
      | None => None
      end
  end.

(** The UTF-16 code units of a code point. *)
Definition utf16_units (cp : N) : jsstring :=
  if cp <? 65536 then [cp]
  else [55296 + (cp - 65536) / 1024; 56320 + (cp - 65536) mod 1024].

Fixpoint decodeURIComponent_fuel (fuel : nat) (s : jsstring)
  : outcome jsstring :=
  match fuel with
  | O => match s with [] => Returned [] | _ :: _ => Thrown URIError end
  | S fuel' =>
      match s with
      | [] => Returned []
      | c :: rest =>
          if negb (c =? 37)
          then bind (decodeURIComponent_fuel fuel' rest)
                 (fun r => Returned (c :: r))
          else
            match take_percent_byte s with
            | None => Thrown URIError
            | Some (b, rest1) =>
                if b <? 128
                then bind (decodeURIComponent_fuel fuel' rest1)
                       (fun r => Returned (b :: r))
                else
                  let sequence :=
                    if (192 <=? b) && (b <=? 223)
                    then option_map (pair 128) (take_continuation 1 (b - 192) rest1)
                    else if (224 <=? b) && (b <=? 239)
                    then option_map (pair 2048) (take_continuation 2 (b - 224) rest1)
                    else if (240 <=? b) && (b <=? 247)
                    then option_map (pair 65536) (take_continuation 3 (b - 240) rest1)
                    else None in
                  match sequence with
                  | Some (least, (cp, rest2)) =>
                      if (least <=? cp) && (cp <=? 1114111)
                         && negb ((55296 <=? cp) && (cp <=? 57343))
                      then bind (decodeURIComponent_fuel fuel' rest2)
                             (fun r => Returned (utf16_units cp ++ r))
                      else Thrown URIError
                  | None => Thrown URIError
                  end
            end
      end
  end.

Definition decodeURIComponent_text (s : jsstring) : outcome jsstring :=
  decodeURIComponent_fuel (List.length s) s.

Local Close Scope N_scope.

(** A parsed legacy value at the type the source casts it to,
    [ScoreMap | null]: [null], or an object of numbers.  Other values are
    outside this reference and reported as a failed parse. *)
Fixpoint numbers_of_fields (fields : list (jsstring * value))
  : option ScoreMap :=
  match fields with
  | [] => Some []
  | (k, VNum n) :: rest =>
      option_map (cons (k, n)) (numbers_of_fields rest)
  | _ :: _ => None
  end.

Definition parse_legacy_text (raw : jsstring) : outcome (option ScoreMap) :=
  bind (decodeURIComponent_text raw) (fun text =>
  bind (parse_text text) (fun parsed =>
    match parsed with
    | VNull => Returned None
    | VObj fields =>
        match numbers_of_fields fields with
        | Some scores => Returned (Some scores)
        | None => Thrown SyntaxError
        end
    | _ => Thrown SyntaxError
    end)).

(** * Specification vocabulary and example inputs *)

(** ** Conditions *)

(** The legacy dialect: a [dim] field is present and no [type] field is. *)
Definition legacy_shape (cond : ResultCondition) : bool :=
  truthy_opt_string (cond_dim cond) && negb (truthy_opt_string (cond_type cond)).

(** The recognized kinds of the typed dialect. *)
Definition recognized_kinds : list jsstring :=
  List.map js
    [ "min"; "max_le"; "max_ge"; "diff_greater"; "diff_abs_lte"; "top_is";
      "not_top_is"; "rank_is"; "top_diff_gte"; "top_diff_lte"; "total_min";
      "total_max"; "sum_min"; "sum_max"; "spread_between" ]%string.

Definition recognized (type : option jsstring) : Prop :=
  exists t, type = Some t /\ In t recognized_kinds.

(** A condition of an unknown kind:
    [{ type: "at_least", dim: "calm", value: 99 }]. *)
Definition unknown_condition : ResultCondition :=
  {| cond_type := Some (js "at_least");
     cond_dim := Some (js "calm");
     cond_op := None;
     cond_value := Some (num_of_Z 99);
     cond_min := None;
     cond_max := None;
     cond_a := None;
     cond_b := None;
     cond_rank := None;
     cond_dims := None |}.

(** A typed condition without [dim]: [{ type: "min", value: 3 }]. *)
Definition min_without_dim : ResultCondition :=
  {| cond_type := Some (js "min");
     cond_dim := None;
     cond_op := None;
     cond_value := Some (num_of_Z 3);
     cond_min := None;
     cond_max := None;
     cond_a := None;
     cond_b := None;
     cond_rank := None;
     cond_dims := None |}.

(** [{ type: "min", dim: "calm", value: v }] *)
Definition calm_at_least (v : Z) : ResultCondition :=
  {| cond_type := Some (js "min");
     cond_dim := Some (js "calm");
     cond_op := None;
     cond_value := Some (num_of_Z v);
     cond_min := None;
     cond_max := None;
     cond_a := None;
     cond_b := None;
     cond_rank := None;
     cond_dims := None |}.

(** Typed conditions of the scenarios: [{ type: "spread_between", min, max }]
    and [{ type: "sum_min", dims, value }]. *)
Definition spread_between (min max : Z) : ResultCondition :=
  {| cond_type := Some (js "spread_between");
     cond_dim := None;
     cond_op := None;
     cond_value := None;
     cond_min := Some (num_of_Z min);
     cond_max := Some (num_of_Z max);
     cond_a := None;
     cond_b := None;
     cond_rank := None;
     cond_dims := None |}.

Definition sum_min (dims : list string) (value : Z) : ResultCondition :=
  {| cond_type := Some (js "sum_min");
     cond_dim := None;
     cond_op := None;
     cond_value := Some (num_of_Z value);
     cond_min := None;
     cond_max := None;
     cond_a := None;
     cond_b := None;
     cond_rank := None;
     cond_dims := Some (List.map js dims) |}.

(** ** Ranking *)

(** The comparators of the sources, [(a, b) => key(b) - key(a)]: descending
    order of [key]. *)
Definition descending_by {A : Type} (key : A -> number) (a b : A) : number :=
  num_sub (key b) (key a).

(** The entry [{ id, value }] of [getSortedScores] for an entry of the
    vector. *)
Definition score_entry (e : jsstring * number) : ScoreEntry :=
  let '(id, value) := e in {| se_id := id; se_value := value |}.

(** A vector with a tie for the maximal value: [{ a: 1, b: 3, c: 3, d: 2 }]. *)
Definition tie_vector : ScoreMap :=
  [ (js "a", num_of_Z 1); (js "b", num_of_Z 3); (js "c", num_of_Z 3);
    (js "d", num_of_Z 2) ].

(** ** The order of own properties *)

(** A name that is no array index. *)
Definition ordinary_name (k : jsstring) : bool :=
  match array_index k with
  | None => true
  | Some _ => false
  end.

(** Names in the order in which an object lists its own properties: no
    name comes after one that it is listed before, so the array indices
    come first, ascending. *)
Definition own_key_order (keys : list jsstring) : Prop :=
  StronglySorted (fun k k' => listed_before k' k = false) keys.

(** ** Score vectors *)

(** What normalisation into [[lo, hi]] over [dimensions] promises of its
    output [m] for the input [input]: the keys are the configured ids, once
    each, and every value is an integer of the range, [0] where the input
    has no finite number and the rounded input clamped otherwise. *)
Definition normalized_within (input : option ScoreMap)
  (dimensions : list Dimension) (lo hi : Z) (m : ScoreMap) : Prop :=
  (forall k, In k (Object_keys m) <-> In k (List.map dim_id dimensions)) /\
  NoDup (Object_keys m) /\
  forall k v, obj_get k m = Some v ->
    exists z : Z,
      v = num_of_Z z /\ (lo <= z <= hi)%Z /\
      match Number_of (opt_get input k) with
      | Fin q => z = Z.max lo (Z.min hi (Qfloor (Qplus q (1 # 2))))
      | _ => z = 0%Z
      end.

(** The value [handleAnswer] stores for a dimension with old value [old]
    (absent when [None]) and weight [delta]. *)
Definition accumulated (old : option number) (delta : number) : number :=
  clamp
    (num_add (number_or old (Fin 0))
       (if Number_isFinite delta then delta else Fin 0))
    (num_of_Z (-20)) (num_of_Z 20).

(** An option with weights [{ calm: 3, tempo: Infinity, focus: -30 }]. *)
Definition sample_option : QuestionOption :=
  {| opt_text := js "A bowl of still water that never spills.";
     opt_image := None;
     opt_weights :=
       Some [ (js "calm", num_of_Z 3); (js "tempo", PosInf);
              (js "focus", num_of_Z (-30)) ] |}.

(** The vector [{ calm: 19, courage: 2, tempo: -4 }]. *)
Definition sample_scores : ScoreMap :=
  [ (js "calm", num_of_Z 19); (js "courage", num_of_Z 2);
    (js "tempo", num_of_Z (-4)) ].

(** A dimension [{ id, label: id, left: "", right: "" }]. *)
Definition dimension (id : string) : Dimension :=
  {| dim_id := js id;
     dim_label := js id;
     dim_left := js "";
     dim_right := js "";
     dim_description := None |}.

(** Dimensions with array indices among their ids: [b], [2], [1]. *)
Definition indexed_dimensions : list Dimension :=
  List.map dimension ["b"; "2"; "1"]%string.

(** A raw score map [{ a: 2.5, b: -3.5, c: Infinity, z: 100 }]. *)
Definition raw_scores : ScoreMap :=
  [ (js "a", Fin (5 # 2)); (js "b", Fin (-7 # 2)); (js "c", PosInf);
    (js "z", num_of_Z 100) ].

(** ** Results *)

(** [Number.isFinite(result.priority) ? Number(result.priority) : 0] *)
Definition priority_of (result : ResultProfile) : number :=
  if Number_isFinite (Number_of (rp_priority result))
  then Number_of (rp_priority result)
  else Fin 0.

(** Example results: [{ id, title, summary, priority, conditions }]. *)
Definition result_with (id : string) (priority : option Z)
  (conditions : option (list ResultCondition)) : ResultProfile :=
  {| rp_id := js id;
     rp_title := js id;
     rp_summary := js "A summary.";
     rp_lore := None;
     rp_image := None;
     rp_palette := None;
     rp_tasting_notes := None;
     rp_side_effect := None;
     rp_signature_ritual := None;
     rp_signals := None;
     rp_priority := option_map num_of_Z priority;
     rp_conditions := conditions;
     rp_extra := None |}.

(** Two results that [sample_scores] cannot reach, then two unconditional
    results of priority 3. *)
Definition earlier : ResultProfile := result_with "earlier" (Some 3%Z) None.
Definition later : ResultProfile := result_with "later" (Some 3%Z) None.

Definition tie_results : list ResultProfile :=
  [ result_with "unreached_a" (Some 9%Z) (Some [calm_at_least 100]);
    result_with "unreached_b" (Some 9%Z) (Some [calm_at_least 100]);
    earlier;
    later ].

(** Results none of which [sample_scores] matches. *)
Definition unmatched_results : list ResultProfile :=
  [ result_with "potion_storm" (Some 9%Z) (Some [calm_at_least 100]);
    result_with "potion_calm" None (Some [calm_at_least 100]);
    result_with "potion_top_calm" None (Some [calm_at_least 100]) ].

(** ** Codec *)

(** A string [btoa] accepts: code units up to U+00FF. *)
Definition latin1 (s : jsstring) : Prop := Forall (fun c => (c <= 255)%N) s.

(** The two [replace] calls of [toBase64Url] and of [fromBase64Url], on one
    character. *)
Definition to_url_char (c : N) : N :=
  let c := if (c =? 43)%N then 45%N else c in
  if (c =? 47)%N then 95%N else c.

Definition from_url_char (c : N) : N :=
  let c := if (c =? 45)%N then 43%N else c in
  if (c =? 95)%N then 47%N else c.

(** [JSON.parse(fromBase64Url(rawValue))] *)
Definition parsed_state (JSON_parse : jsstring -> outcome value)
  (rawValue : jsstring) : outcome value :=
  bind (fromBase64Url rawValue) JSON_parse.

(** The payload checks of [decodeShareState]: [v] is [1] and [resultId] is
    a string. *)
Definition valid_state (parsed : value) : bool :=
  is_one (get_prop parsed (js "v"))
  && is_string (get_prop parsed (js "resultId")).

(** A share state [{ v: 1, resultId: "potion_calm", scores: { calm: 16,
    tempo: -4 }, answers: [0, 2, 11] }]. *)
Definition sample_state : SharedStateV1 :=
  {| ss_v := Fin 1;
     ss_resultId := js "potion_calm";
     ss_scores := [ (js "calm", num_of_Z 16); (js "tempo", num_of_Z (-4)) ];
     ss_answers := [ num_of_Z 0; num_of_Z 2; num_of_Z 11 ] |}.

(** A share state whose result id is the single character U+4E2D. *)
Definition wide_state : SharedStateV1 :=
  {| ss_v := Fin 1;
     ss_resultId := [20013%N];
     ss_scores := [];
     ss_answers := [] |}.

(** A share state with an answer that is not a number JSON can write:
    [{ v: 1, resultId: "potion_calm", scores: {}, answers: [NaN] }]. *)
Definition nan_state : SharedStateV1 :=
  {| ss_v := Fin 1;
     ss_resultId := js "potion_calm";
     ss_scores := [];
     ss_answers := [NaN] |}.

(** ** The reference JSON text layer *)

(** The end of a number token in the text of a payload. *)
Definition token_end (rest : jsstring) : Prop :=
  match rest with
  | [] => True
  | c :: _ => c = 44%N \/ c = 93%N \/ c = 125%N
  end.

(** A number that is an integer. *)
Definition is_integer (n : number) : Prop := exists z : Z, n = num_of_Z z.

(** A value that [parse_value] reads back from its text, with any fuel from
    [fuel0] on, in front of the end of a token. *)
Definition reads_back (fuel0 : nat) (x : value) : Prop :=
  forall (fuel : nat) (rest : jsstring),
    (fuel0 <= fuel)%nat -> token_end rest ->
    parse_value fuel (stringify_text x ++ rest) = Some (x, rest).

(** A share state whose numbers are integers and whose scores have distinct
    keys, listed as an object lists them. *)
Definition plain_state (payload : SharedStateV1) : Prop :=
  is_integer (ss_v payload) /\
  NoDup (Object_keys (ss_scores payload)) /\
  own_key_order (Object_keys (ss_scores payload)) /\
  Forall (fun entry => is_integer (snd entry)) (ss_scores payload) /\
  Forall is_integer (ss_answers payload).

(** ** Conditions, continued *)

(** [{ ...cond, a: cond.b, b: cond.a }] *)
Definition swap_ab (cond : ResultCondition) : ResultCondition :=
  {| cond_type := cond_type cond;
     cond_dim := cond_dim cond;
     cond_op := cond_op cond;
     cond_value := cond_value cond;
     cond_min := cond_min cond;
     cond_max := cond_max cond;
     cond_a := cond_b cond;
     cond_b := cond_a cond;
     cond_rank := cond_rank cond;
     cond_dims := cond_dims cond |}.

(** [{ ...cond, type }] *)
Definition with_type (type : string) (cond : ResultCondition)
  : ResultCondition :=
  {| cond_type := Some (js type);
     cond_dim := cond_dim cond;
     cond_op := cond_op cond;
     cond_value := cond_value cond;
     cond_min := cond_min cond;
     cond_max := cond_max cond;
     cond_a := cond_a cond;
     cond_b := cond_b cond;
     cond_rank := cond_rank cond;
     cond_dims := cond_dims cond |}.

(** A [rank] that [rank_is] reads as the first rank: absent, [NaN], or at
    most [1]. *)
Definition first_rank (rank : option number) : Prop :=
  match rank with
  | None => True
  | Some n => n = NaN \/ num_le n (Fin 1) = true
  end.

(** The legacy forms [{ dim, op, value }] and [{ dim, min, max }], and the
    typed form [{ type, dim, value }]. *)
Definition legacy_op (dim : jsstring) (op : option jsstring)
  (value : option number) : ResultCondition :=
  {| cond_type := None;
     cond_dim := Some dim;
     cond_op := op;
     cond_value := value;
     cond_min := None;
     cond_max := None;
     cond_a := None;
     cond_b := None;
     cond_rank := None;
     cond_dims := None |}.

Definition legacy_range (dim : jsstring) (min max : option number)
  : ResultCondition :=
  {| cond_type := None;
     cond_dim := Some dim;
     cond_op := None;
     cond_value := None;
     cond_min := min;
     cond_max := max;
     cond_a := None;
     cond_b := None;
     cond_rank := None;
     cond_dims := None |}.

Definition typed (type : string) (dim : jsstring) (value : option number)
  : ResultCondition :=
  {| cond_type := Some (js type);
     cond_dim := Some dim;
     cond_op := None;
     cond_value := value;
     cond_min := None;
     cond_max := None;
     cond_a := None;
     cond_b := None;
     cond_rank := None;
     cond_dims := None |}.

(** [{ type: "diff_abs_lte", a, b, value }] *)
Definition diff_abs_lte (a b : option string) (value : Z) : ResultCondition :=
  {| cond_type := Some (js "diff_abs_lte");
     cond_dim := None;
     cond_op := None;
     cond_value := Some (num_of_Z value);
     cond_min := None;
     cond_max := None;
     cond_a := option_map js a;
     cond_b := option_map js b;
     cond_rank := None;
     cond_dims := None |}.

(** [{ type: "rank_is", dim, rank }] *)
Definition rank_is (dim : string) (rank : option number) : ResultCondition :=
  {| cond_type := Some (js "rank_is");
     cond_dim := Some (js dim);
     cond_op := None;
     cond_value := None;
     cond_min := None;
     cond_max := None;
     cond_a := None;
     cond_b := None;
     cond_rank := rank;
     cond_dims := None |}.
(** ** Score vectors, continued *)

(** A score of the range of play: a finite number of [[-20, 20]]. *)
Definition in_play_range (v : number) : Prop :=
  exists q : Q,
    v = Fin q /\ Qle (inject_Z (-20)) q /\ Qle q (inject_Z 20).

(** A vector as play over [dimensions] produces it: one entry for each
    configured dimension, listed as the vector of a fresh session lists
    them, each an integer of [[-20, 20]]. *)
Definition playable (dimensions : list Dimension) (m : ScoreMap) : Prop :=
  Object_keys m = Object_keys (createInitialScores dimensions) /\
  NoDup (Object_keys m) /\
  Forall (fun e => exists z : Z, snd e = num_of_Z z /\ (-20 <= z <= 20)%Z) m.

(** Weights a configuration of integer steps gives an option: integers, on
    configured dimensions, once each. *)
Definition integer_weights (dimensions : list Dimension)
  (weights : dict number) : Prop :=
  NoDup (Object_keys weights) /\
  Forall (fun e => In (fst e) (List.map dim_id dimensions) /\
                   exists z : Z, snd e = num_of_Z z) weights.

(** An option with the weights [{ a: 3, b: -30 }]. *)
Definition integer_option : QuestionOption :=
  {| opt_text := js "A lantern";
     opt_image := None;
     opt_weights := Some [ (js "a", num_of_Z 3); (js "b", num_of_Z (-30)) ] |}.

(** The characters of the URL-safe base64 alphabet: [A-Z], [a-z], [0-9],
    [-] and [_]. *)
Definition url_safe (c : N) : bool :=
  ((65 <=? c) && (c <=? 90) || (97 <=? c) && (c <=? 122)
   || (48 <=? c) && (c <=? 57) || (c =? 45) || (c =? 95))%N.

(** ** The live profile *)

(** How [buildLiveProfileText] shows the dimension [id] of a vector: its id
    and an arrow, up for a positive score and down for any other. *)
Definition leaning (scoreMap : ScoreMap) (id : jsstring) : jsstring :=
  id ++ js " " ++
  (if num_gt (nullish_or (obj_get id scoreMap) (Fin 0)) (Fin 0)
   then arrow_up else arrow_down).

(** ** The state in the page URL *)

(** The payload [updateUrlState] and [buildResultShareUrl] encode. *)
Definition share_payload (resultId : jsstring) (scoreMap : ScoreMap)
  (answers : list number) (dimensions : list Dimension) : SharedStateV1 :=
  {| ss_v := Fin 1;
     ss_resultId := resultId;
     ss_scores :=
       normalizeScoresForDimensions (Some scoreMap) dimensions
         (num_of_Z (-20)) (num_of_Z 20);
     ss_answers := answers |}.

(** The answers [restoreFromUrl] keeps: the non-negative integers. *)
Definition kept_answer (value : number) : bool :=
  Number_isInteger value && num_ge value (Fin 0).

(** A quiz with the dimensions [a], [b], [c] and the results of
    [unmatched_results]. *)
Definition sample_quiz : QuizData :=
  {| qd_title := js "Potionality";
     qd_subtitle := js "";
     qd_dimensions := List.map dimension ["a"; "b"; "c"]%string;
     qd_questions := [];
     qd_results := unmatched_results |}.

(** A query with stale and repeated parameters. *)
Definition stale_search : URLSearchParams :=
  [ (js "result", js "potion_storm"); (js "lang", js "en");
    (js "state", js "e30"); (js "result", js "potion_calm") ].

(** A conversion of strings, arrays and objects to numbers that gives
    [NaN]; the examples convert numbers only. *)
Definition ToNumber_NaN (x : value) : outcome number := Returned NaN.

(** ** The share card *)

(** A line [wrapText] may draw: one that is not wider than [maxWidth], or a
    single word of the text, which is not broken. *)
Definition fits_or_single_word (measureText_width : jsstring -> number)
  (maxWidth : number) (words : list jsstring) (line : jsstring) : Prop :=
  num_gt (measureText_width line) maxWidth = false \/
  exists word, In word words /\ line = word ++ js " ".

(** A width of ten units for each character. *)
Definition ten_per_character (text : jsstring) : number :=
  num_of_Z (10 * Z.of_nat (List.length text)).

(** * Properties *)

(** [lia] reads divisions by a constant as their Euclidean equations. *)
Ltac Zify.zify_post_hook ::= Z.to_euclidean_division_equations.

(** ** Strings and dictionaries *)

Lemma jsstring_eqb_eq (s t : jsstring) : jsstring_eqb s t = true <-> s = t.
Proof.
  unfold jsstring_eqb. destruct (list_eq_dec N.eq_dec s t); split;
    congruence.
Qed.

Lemma jsstring_eqb_refl (s : jsstring) : jsstring_eqb s s = true.
Proof. now apply jsstring_eqb_eq. Qed.

Lemma jsstring_eqb_neq (s t : jsstring) : jsstring_eqb s t = false <-> s <> t.
Proof.
  unfold jsstring_eqb. destruct (list_eq_dec N.eq_dec s t); split;
    congruence.
Qed.

(** ** Condition evaluation *)

Lemma switch_default_unrecognized (type : option jsstring) :
  ~ recognized type -> switch_type type = K_default.
Proof.
  intros H. destruct type as [t|]; [|reflexivity].
  unfold switch_type, kinds, switch_on.
  repeat match goal with
  | |- context [jsstring_eqb t ?l] =>
      destruct (jsstring_eqb t l) eqn:?E;
      [ exfalso; apply H; exists t; split; [reflexivity|];
        apply jsstring_eqb_eq in E; rewrite E; unfold recognized_kinds;
        simpl; tauto
      | clear E ]
  end.
  reflexivity.
Qed.

(** C6. Condition evaluation fails open: an absent condition holds, and so
    does a condition whose type is none of the recognized kinds and which
    has not the legacy shape ([dim] without [type]); [meetsCondition] is a
    total function, so no evaluation raises an error. *)
Theorem meetsCondition_fails_open (scoreMap : ScoreMap) :
  meetsCondition None scoreMap = true /\
  (forall cond : ResultCondition,
      legacy_shape cond = false ->
      ~ recognized (cond_type cond) ->
      meetsCondition (Some cond) scoreMap = true) /\
  (forall cond : option ResultCondition,
      exists b : bool, meetsCondition cond scoreMap = b).
Proof.
  split; [reflexivity|]. split.
  - intros cond Hshape Hkind. unfold meetsCondition.
    unfold legacy_shape in Hshape. rewrite Hshape.
    rewrite (switch_default_unrecognized _ Hkind). reflexivity.
  - intros cond. eexists. reflexivity.
Qed.

Lemma meetsCondition_fails_open_witness :
  meetsCondition (Some unknown_condition) [] = true.
Proof.
  apply (proj1 (proj2 (meetsCondition_fails_open []))).
  - reflexivity.
  - intros [t [Ht Hin]]. injection Ht as <-.
    unfold recognized_kinds in Hin. simpl in Hin.
    repeat (destruct Hin as [Hin|Hin]; [discriminate Hin|]). exact Hin.
Defined.

(** C10. A typed condition of kind [min], [max_le] or [max_ge] without a
    [dim] field is evaluated on the dimension ["calm"]: [{ type: "min",
    value: v }] is [(scoreMap["calm"] ?? 0) >= v]. *)
Theorem typed_condition_defaults_to_calm (cond : ResultCondition)
  (scoreMap : ScoreMap) :
  cond_dim cond = None ->
  let calm := nullish_or (obj_get (js "calm") scoreMap) (Fin 0) in
  let v := nullish_or (cond_value cond) (Fin 0) in
  (cond_type cond = Some (js "min") ->
   meetsCondition (Some cond) scoreMap = num_ge calm v) /\
  (cond_type cond = Some (js "max_le") ->
   meetsCondition (Some cond) scoreMap = num_le calm v) /\
  (cond_type cond = Some (js "max_ge") ->
   meetsCondition (Some cond) scoreMap = num_ge calm v).
Proof.
  intros Hdim calm v. unfold meetsCondition. rewrite Hdim.
  repeat split; intros Htype; rewrite Htype; reflexivity.
Qed.

Lemma typed_condition_defaults_to_calm_witness :
  meetsCondition (Some min_without_dim)
    [(js "calm", num_of_Z 4); (js "tempo", num_of_Z 9)] = true /\
  meetsCondition (Some min_without_dim) [(js "tempo", num_of_Z 9)] = false.
Proof.
  split.
  - rewrite (proj1 (typed_condition_defaults_to_calm min_without_dim
                      [(js "calm", num_of_Z 4); (js "tempo", num_of_Z 9)]
                      eq_refl) eq_refl).
    reflexivity.
  - rewrite (proj1 (typed_condition_defaults_to_calm min_without_dim
                      [(js "tempo", num_of_Z 9)] eq_refl) eq_refl).
    reflexivity.
Defined.

(** ** Numbers *)

Lemma Qlt_bool_iff (a b : Q) : Qlt_bool a b = true <-> Qlt a b.
Proof.
  unfold Qlt_bool. rewrite negb_true_iff. split.
  - intros H. apply Qnot_le_lt. intros Hle.
    apply Qle_bool_iff in Hle. congruence.
  - intros H. destruct (Qle_bool b a) eqn:E; [|reflexivity].
    apply Qle_bool_iff in E. exfalso. apply (Qlt_not_le _ _ H E).
Qed.

Lemma Qlt_bool_false_iff (a b : Q) : Qlt_bool a b = false <-> Qle b a.
Proof.
  unfold Qlt_bool. rewrite negb_false_iff. apply Qle_bool_iff.
Qed.

(** [a - b > 0] fails when [a <= b] and holds when [b < a]. *)
Lemma num_sub_not_positive (a b : number) :
  num_le a b = true -> num_gt (num_sub a b) (Fin 0) = false.
Proof.
  destruct a as [x| | |], b as [y| | |]; simpl; try discriminate;
    try reflexivity.
  intros H. apply Qle_bool_iff in H. apply Qlt_bool_false_iff. lra.
Qed.

Lemma num_sub_positive (a b : number) :
  num_lt b a = true -> num_gt (num_sub a b) (Fin 0) = true.
Proof.
  destruct a as [x| | |], b as [y| | |]; simpl; try discriminate;
    try reflexivity.
  intros H. apply Qlt_bool_iff in H. apply Qlt_bool_iff. lra.
Qed.

(** Conversely, for numbers other than [NaN]. *)
Lemma num_sub_positive_inv (a b : number) :
  num_gt (num_sub a b) (Fin 0) = true -> num_lt b a = true.
Proof.
  destruct a as [x| | |], b as [y| | |]; simpl; try discriminate;
    try reflexivity.
  intros H. apply Qlt_bool_iff in H. apply Qlt_bool_iff. lra.
Qed.

Lemma num_sub_not_positive_inv (a b : number) :
  a <> NaN -> b <> NaN ->
  num_gt (num_sub a b) (Fin 0) = false -> num_le a b = true.
Proof.
  destruct a as [x| | |], b as [y| | |]; simpl; try congruence.
  intros _ _ H. apply Qlt_bool_false_iff in H. apply Qle_bool_iff. lra.
Qed.

Lemma num_lt_le (a b : number) : num_lt a b = true -> num_le a b = true.
Proof.
  destruct a as [x| | |], b as [y| | |]; simpl; try congruence.
  intros H. apply Qlt_bool_iff in H. apply Qle_bool_iff. lra.
Qed.

(** Two numbers equal to a third do not differ by a positive amount. *)
Lemma num_sub_equal (a b k : number) :
  num_eq a k = true -> num_eq b k = true ->
  num_gt (num_sub b a) (Fin 0) = false.
Proof.
  destruct a as [x| | |], b as [y| | |], k as [z| | |]; simpl;
    try discriminate; try reflexivity.
  intros Ha Hb. apply Qeq_bool_iff in Ha, Hb. apply Qlt_bool_false_iff.
  lra.
Qed.

(** ** The stable sort *)

Section StableSort.

Context {A : Type}.
Variable key : A -> number.

Local Abbreviation descending := (descending_by key).

Lemma sort_insert_In (x y : A) (l : list A) :
  In y (sort_insert descending x l) <-> y = x \/ In y l.
Proof.
  induction l as [|z l IH]; cbn [sort_insert In].
  - intuition congruence.
  - destruct (num_gt (descending x z) (Fin 0)); cbn [In].
    + rewrite IH. intuition congruence.
    + intuition congruence.
Qed.

Lemma Array_sort_In (y : A) (l : list A) :
  In y (Array_sort descending l) <-> In y l.
Proof.
  induction l as [|x l IH]; [reflexivity|].
  unfold Array_sort in *. cbn [fold_right In].
  rewrite sort_insert_In, IH. intuition congruence.
Qed.

Lemma Array_sort_length (l : list A) :
  List.length (Array_sort descending l) = List.length l.
Proof.
  assert (Hins : forall x m,
             List.length (sort_insert descending x m) = S (List.length m)).
  { intros x m. induction m as [|z m IH]; cbn [sort_insert]; [reflexivity|].
    destruct (num_gt (descending x z) (Fin 0)); cbn [List.length];
      congruence. }
  induction l as [|x l IH]; [reflexivity|].
  unfold Array_sort in *. cbn [fold_right List.length].
  rewrite Hins. congruence.
Qed.

(** An element that no element of the list exceeds stays in front. *)
Lemma sort_insert_front (x : A) (l : list A) :
  (forall y, In y l -> num_le (key y) (key x) = true) ->
  sort_insert descending x l = x :: l.
Proof.
  destruct l as [|z l]; [reflexivity|]. intros H. cbn [sort_insert].
  unfold descending_by. rewrite num_sub_not_positive; [reflexivity|].
  apply H. now left.
Qed.

(** A strictly smaller element goes behind the head. *)
Lemma sort_insert_behind (x e : A) (l : list A) :
  num_lt (key x) (key e) = true ->
  sort_insert descending x (e :: l) = e :: sort_insert descending x l.
Proof.
  intros H. cbn [sort_insert]. unfold descending_by.
  now rewrite num_sub_positive.
Qed.

(** The head of the sorted list is the first element whose key no element
    exceeds: the elements before it are strictly smaller. *)
Lemma Array_sort_head (pre post : list A) (e : A) :
  (forall y, In y pre -> num_lt (key y) (key e) = true) ->
  (forall y, In y post -> num_le (key y) (key e) = true) ->
  exists rest, Array_sort descending (pre ++ e :: post) = e :: rest.
Proof.
  intros Hpre Hpost. induction pre as [|x pre IH].
  - exists (Array_sort descending post). unfold Array_sort.
    cbn [app fold_right]. apply sort_insert_front. intros y Hy. apply Hpost.
    now apply Array_sort_In.
  - destruct IH as [rest IH].
    { intros y Hy. apply Hpre. now right. }
    exists (sort_insert descending x rest).
    unfold Array_sort in *. cbn [app fold_right]. rewrite IH.
    apply sort_insert_behind. apply Hpre. now left.
Qed.

(** The sort permutes its input. *)
Lemma Array_sort_Permutation (l : list A) :
  Permutation (Array_sort descending l) l.
Proof.
  assert (Hins : forall x m, Permutation (sort_insert descending x m) (x :: m)).
  { intros x m. induction m as [|z m IH]; cbn [sort_insert]; [reflexivity|].
    destruct (num_gt (descending x z) (Fin 0)); [|reflexivity].
    rewrite IH. apply perm_swap. }
  induction l as [|x l IH]; [reflexivity|].
  unfold Array_sort in *. cbn [fold_right]. rewrite Hins. now constructor.
Qed.

(** The sort is stable: the elements of one key keep their order. *)
Lemma sort_insert_stable (k : number) (x : A) (l : list A) :
  filter (fun e => num_eq (key e) k) (sort_insert descending x l)
  = filter (fun e => num_eq (key e) k) (x :: l).
Proof.
  induction l as [|y l IH]; cbn [sort_insert]; [reflexivity|].
  destruct (num_gt (descending x y) (Fin 0)) eqn:E; [|reflexivity].
  cbn [filter] in *. rewrite IH.
  destruct (num_eq (key x) k) eqn:Ex, (num_eq (key y) k) eqn:Ey;
    try reflexivity.
  unfold descending_by in E. rewrite (num_sub_equal _ _ _ Ex Ey) in E.
  discriminate E.
Qed.

Lemma Array_sort_stable (k : number) (l : list A) :
  filter (fun e => num_eq (key e) k) (Array_sort descending l)
  = filter (fun e => num_eq (key e) k) l.
Proof.
  induction l as [|x l IH]; [reflexivity|].
  unfold Array_sort in *. cbn [fold_right].
  rewrite sort_insert_stable. cbn [filter]. now rewrite IH.
Qed.

(** The sorted list is descending, for keys other than [NaN]. *)
Lemma sort_insert_Sorted (x : A) (l : list A) :
  key x <> NaN -> (forall y, In y l -> key y <> NaN) ->
  Sorted (fun a b => num_le (key b) (key a) = true) l ->
  Sorted (fun a b => num_le (key b) (key a) = true)
    (sort_insert descending x l).
Proof.
  intros Hx Hl Hs. induction l as [|y l IH]; cbn [sort_insert].
  - repeat constructor.
  - assert (Hy : key y <> NaN) by (apply Hl; now left).
    destruct (num_gt (descending x y) (Fin 0)) eqn:E.
    + apply Sorted_inv in Hs. destruct Hs as [Hs Hhd].
      constructor.
      * apply IH; [|exact Hs]. intros z Hz. apply Hl. now right.
      * unfold descending_by in E. apply num_sub_positive_inv in E.
        destruct l as [|z l]; cbn [sort_insert].
        -- constructor. now apply num_lt_le.
        -- destruct (num_gt (descending x z) (Fin 0)).
           ++ constructor. now inversion Hhd.
           ++ constructor. now apply num_lt_le.
    + constructor; [exact Hs|]. constructor.
      unfold descending_by in E. now apply num_sub_not_positive_inv.
Qed.

Lemma Array_sort_Sorted (l : list A) :
  (forall y, In y l -> key y <> NaN) ->
  Sorted (fun a b => num_le (key b) (key a) = true) (Array_sort descending l).
Proof.
  induction l as [|x l IH]; intros H; [constructor|].
  unfold Array_sort in *. cbn [fold_right].
  apply sort_insert_Sorted.
  - apply H. now left.
  - intros y Hy. apply H. right. exact (proj1 (Array_sort_In y l) Hy).
  - apply IH. intros y Hy. apply H. now right.
Qed.

End StableSort.

(** ** Dictionaries *)

Lemma obj_has_In {V : Type} (k : jsstring) (m : dict V) :
  obj_has k m = true <-> In k (Object_keys m).
Proof.
  unfold obj_has. induction m as [|[k' v'] m IH]; cbn [existsb Object_keys
    List.map fst In].
  - split; [discriminate|tauto].
  - rewrite Bool.orb_true_iff, IH. cbn [fst].
    split; (intros [H | H]; [left|right; exact H]).
    + apply jsstring_eqb_eq in H. now symmetry.
    + subst k'. apply jsstring_eqb_refl.
Qed.

Lemma obj_has_false {V : Type} (k : jsstring) (m : dict V) :
  obj_has k m = false <-> ~ In k (Object_keys m).
Proof.
  rewrite <- obj_has_In. destruct (obj_has k m); intuition congruence.
Qed.

Lemma obj_get_update_same {V : Type} (k : jsstring) (v : V) (m : dict V) :
  In k (Object_keys m) -> obj_get k (obj_update k v m) = Some v.
Proof.
  induction m as [|[k' v'] m IH]; cbn [Object_keys List.map fst In obj_update];
    [tauto|].
  intros Hin. destruct (jsstring_eqb k k') eqn:E; cbn [obj_get]; rewrite E.
  - reflexivity.
  - apply IH. destruct Hin as [Hin | Hin]; [|exact Hin].
    apply jsstring_eqb_neq in E. congruence.
Qed.

Lemma obj_get_insert_same {V : Type} (k : jsstring) (v : V) (m : dict V) :
  ~ In k (Object_keys m) -> obj_get k (obj_insert k v m) = Some v.
Proof.
  induction m as [|[k' v'] m IH]; cbn [Object_keys List.map fst In obj_insert];
    intros Hnot.
  - cbn [obj_get]. now rewrite jsstring_eqb_refl.
  - destruct (listed_before k k'); cbn [obj_get].
    + now rewrite jsstring_eqb_refl.
    + assert (E : jsstring_eqb k k' = false).
      { apply jsstring_eqb_neq. intros ->. tauto. }
      rewrite E. apply IH. tauto.
Qed.

Lemma obj_get_set_same {V : Type} (k : jsstring) (v : V) (m : dict V) :
  obj_get k (obj_set k v m) = Some v.
Proof.
  unfold obj_set. destruct (obj_has k m) eqn:E.
  - apply obj_get_update_same. now apply obj_has_In.
  - apply obj_get_insert_same. now apply obj_has_false.
Qed.

Lemma obj_get_update_other {V : Type} (k k' : jsstring) (v : V) (m : dict V) :
  k <> k' -> obj_get k' (obj_update k v m) = obj_get k' m.
Proof.
  intros Hne. induction m as [|[k0 v0] m IH]; cbn [obj_update]; [reflexivity|].
  destruct (jsstring_eqb k k0) eqn:E; cbn [obj_get].
  - apply jsstring_eqb_eq in E. subst k0.
    apply not_eq_sym in Hne. apply jsstring_eqb_neq in Hne.
    now rewrite Hne.
  - now rewrite IH.
Qed.

Lemma obj_get_insert_other {V : Type} (k k' : jsstring) (v : V) (m : dict V) :
  k <> k' -> obj_get k' (obj_insert k v m) = obj_get k' m.
Proof.
  intros Hne.
  assert (E : jsstring_eqb k' k = false).
  { apply jsstring_eqb_neq. now apply not_eq_sym. }
  induction m as [|[k0 v0] m IH]; cbn [obj_insert].
  - cbn [obj_get]. now rewrite E.
  - destruct (listed_before k k0).
    + change (obj_get k' ((k, v) :: (k0, v0) :: m))
        with (if jsstring_eqb k' k then Some v
              else obj_get k' ((k0, v0) :: m)).
      now rewrite E.
    + cbn [obj_get]. now rewrite IH.
Qed.

Lemma obj_get_set_other {V : Type} (k k' : jsstring) (v : V) (m : dict V) :
  k <> k' -> obj_get k' (obj_set k v m) = obj_get k' m.
Proof.
  intros Hne. unfold obj_set. destruct (obj_has k m).
  - now apply obj_get_update_other.
  - now apply obj_get_insert_other.
Qed.

Lemma obj_get_None {V : Type} (k : jsstring) (m : dict V) :
  obj_get k m = None <-> ~ In k (Object_keys m).
Proof.
  induction m as [|[k' v'] m IH]; simpl.
  - tauto.
  - destruct (jsstring_eqb k k') eqn:E.
    + apply jsstring_eqb_eq in E. subst. split; [discriminate|tauto].
    + apply jsstring_eqb_neq in E. rewrite IH. intuition congruence.
Qed.

Lemma existsb_eqb_In (k : jsstring) (l : list jsstring) :
  existsb (jsstring_eqb k) l = true <-> In k l.
Proof.
  rewrite existsb_exists. split.
  - intros [x [Hin E]]. apply jsstring_eqb_eq in E. now subst.
  - intros H. exists k. split; [exact H | apply jsstring_eqb_refl].
Qed.

Lemma obj_update_keys {V : Type} (k : jsstring) (v : V) (m : dict V) :
  Object_keys (obj_update k v m) = Object_keys m.
Proof.
  induction m as [|[k' v'] m IH]; cbn [obj_update]; [reflexivity|].
  destruct (jsstring_eqb k k'); cbn [Object_keys List.map fst];
    [reflexivity|].
  f_equal. exact IH.
Qed.

Lemma obj_insert_keys {V : Type} (k : jsstring) (v : V) (m : dict V) :
  Object_keys (obj_insert k v m) = keys_insert k (Object_keys m).
Proof.
  induction m as [|[k' v'] m IH];
    cbn [obj_insert Object_keys List.map fst keys_insert]; [reflexivity|].
  destruct (listed_before k k'); cbn [List.map fst]; [reflexivity|].
  f_equal. exact IH.
Qed.

(** The names after [obj[k] = v]: unchanged when [k] is a property of the
    object, with [k] in its place otherwise. *)
Lemma obj_set_keys {V : Type} (k : jsstring) (v : V) (m : dict V) :
  Object_keys (obj_set k v m)
  = if existsb (jsstring_eqb k) (Object_keys m)
    then Object_keys m
    else keys_insert k (Object_keys m).
Proof.
  unfold obj_set. destruct (obj_has k m) eqn:E.
  - rewrite obj_update_keys. apply obj_has_In, existsb_eqb_In in E.
    now rewrite E.
  - rewrite obj_insert_keys.
    destruct (existsb (jsstring_eqb k) (Object_keys m)) eqn:E';
      [|reflexivity].
    apply existsb_eqb_In, obj_has_In in E'. congruence.
Qed.

Lemma keys_insert_In (k k' : jsstring) (keys : list jsstring) :
  In k' (keys_insert k keys) <-> k' = k \/ In k' keys.
Proof.
  induction keys as [|k0 keys IH]; cbn [keys_insert].
  - cbn [In]. intuition congruence.
  - destruct (listed_before k k0); cbn [In].
    + intuition congruence.
    + rewrite IH. tauto.
Qed.

Lemma keys_insert_NoDup (k : jsstring) (keys : list jsstring) :
  ~ In k keys -> NoDup keys -> NoDup (keys_insert k keys).
Proof.
  intros Hnot Hnd. induction Hnd as [|k0 keys Hk0 Hnd IH]; cbn [keys_insert].
  - constructor; [tauto|constructor].
  - destruct (listed_before k k0).
    + constructor; [exact Hnot|]. now constructor.
    + constructor.
      * rewrite keys_insert_In. cbn [In] in Hnot. intuition congruence.
      * apply IH. cbn [In] in Hnot. tauto.
Qed.

(** A new name that none of the names is listed after goes last. *)
Lemma keys_insert_last (k : jsstring) (keys : list jsstring) :
  (forall k', In k' keys -> listed_before k k' = false) ->
  keys_insert k keys = keys ++ [k].
Proof.
  induction keys as [|k0 keys IH]; intros H; cbn [keys_insert app];
    [reflexivity|].
  rewrite (H k0) by now left.
  f_equal. apply IH. intros k' Hk'. apply H. now right.
Qed.

Lemma obj_insert_last {V : Type} (k : jsstring) (v : V) (m : dict V) :
  (forall k', In k' (Object_keys m) -> listed_before k k' = false) ->
  obj_insert k v m = m ++ [(k, v)].
Proof.
  induction m as [|[k0 v0] m IH]; intros H; cbn [obj_insert app];
    [reflexivity|].
  rewrite (H k0) by now left.
  f_equal. apply IH. intros k' Hk'. apply H. now right.
Qed.

(** A name that is no array index is listed before no other. *)
Lemma listed_before_ordinary (k k' : jsstring) :
  array_index k = None -> listed_before k k' = false.
Proof. intros H. unfold listed_before. now rewrite H. Qed.

Lemma obj_set_In_keys {V : Type} (k k' : jsstring) (v : V) (m : dict V) :
  In k' (Object_keys (obj_set k v m)) <-> k' = k \/ In k' (Object_keys m).
Proof.
  rewrite obj_set_keys.
  destruct (existsb (jsstring_eqb k) (Object_keys m)) eqn:E.
  - apply existsb_eqb_In in E. intuition congruence.
  - apply keys_insert_In.
Qed.

Lemma obj_set_NoDup {V : Type} (k : jsstring) (v : V) (m : dict V) :
  NoDup (Object_keys m) -> NoDup (Object_keys (obj_set k v m)).
Proof.
  intros H. rewrite obj_set_keys.
  destruct (existsb (jsstring_eqb k) (Object_keys m)) eqn:E; [exact H|].
  apply keys_insert_NoDup; [|exact H].
  intros Hin. apply existsb_eqb_In in Hin. congruence.
Qed.

(** ** Ranking *)

(** Entering the typed dialect of [meetsCondition] for a known [type]. *)
Ltac enter_typed Htype :=
  unfold meetsCondition; rewrite Htype;
  match goal with
  | |- context [truthy_opt_string (Some ?t)] =>
      change (truthy_opt_string (Some t)) with true
  end;
  cbn [negb]; rewrite Bool.andb_false_r;
  match goal with
  | |- context [switch_type ?t] =>
      let k := eval vm_compute in (switch_type t) in
      change (switch_type t) with k
  end;
  cbv beta iota zeta.

Lemma getSortedScores_head (pre post : ScoreMap) (id : jsstring)
  (value : number) :
  (forall e, In e pre -> num_lt (snd e) value = true) ->
  (forall e, In e post -> num_le (snd e) value = true) ->
  exists rest,
    getSortedScores (pre ++ (id, value) :: post)
    = {| se_id := id; se_value := value |} :: rest.
Proof.
  intros Hpre Hpost. unfold getSortedScores, Object_entries.
  rewrite map_app. cbn [List.map].
  apply (Array_sort_head se_value).
  - intros y Hy. apply in_map_iff in Hy. destruct Hy as [[k v] [<- Hin]].
    exact (Hpre _ Hin).
  - intros y Hy. apply in_map_iff in Hy. destruct Hy as [[k v] [<- Hin]].
    exact (Hpost _ Hin).
Qed.

Lemma ranking_first_maximal (pre post : ScoreMap) (id : jsstring)
  (value : number) :
  (forall e, In e pre -> num_lt (snd e) value = true) ->
  (forall e, In e post -> num_le (snd e) value = true) ->
  exists rest,
    getSortedScores (pre ++ (id, value) :: post)
    = {| se_id := id; se_value := value |} :: rest /\
    forall cond : ResultCondition,
      let scoreMap := pre ++ (id, value) :: post in
      let second := nullish_or (option_map se_value (nth_error rest 0)) (Fin 0) in
      let v := nullish_or (cond_value cond) (Fin 0) in
      (cond_type cond = Some (js "top_is") ->
       meetsCondition (Some cond) scoreMap
       = opt_string_eqb (Some id) (cond_dim cond)) /\
      (cond_type cond = Some (js "not_top_is") ->
       meetsCondition (Some cond) scoreMap
       = negb (opt_string_eqb (Some id) (cond_dim cond))) /\
      (cond_type cond = Some (js "rank_is") ->
       cond_rank cond = None \/ cond_rank cond = Some (Fin 1) ->
       meetsCondition (Some cond) scoreMap
       = opt_string_eqb (Some id) (cond_dim cond)) /\
      (cond_type cond = Some (js "top_diff_gte") ->
       meetsCondition (Some cond) scoreMap = num_ge (num_sub value second) v) /\
      (cond_type cond = Some (js "top_diff_lte") ->
       meetsCondition (Some cond) scoreMap = num_le (num_sub value second) v).
Proof.
  intros Hpre Hpost.
  destruct (getSortedScores_head pre post id value Hpre Hpost) as [rest Hs].
  exists rest. split; [exact Hs|].
  intros cond scoreMap second v. subst scoreMap.
  repeat split; intros Htype.
  - enter_typed Htype. rewrite Hs. reflexivity.
  - enter_typed Htype. rewrite Hs. reflexivity.
  - intros Hrank. enter_typed Htype. rewrite Hs.
    destruct Hrank as [-> | ->]; reflexivity.
  - enter_typed Htype. rewrite Hs. reflexivity.
  - enter_typed Htype. rewrite Hs. reflexivity.
Qed.

(** ** The order of own properties *)

Lemma listed_before_asym (k k' : jsstring) :
  listed_before k k' = true -> listed_before k' k = false.
Proof.
  unfold listed_before.
  destruct (array_index k) as [i|], (array_index k') as [i'|];
    try congruence.
  rewrite N.ltb_lt, N.ltb_ge. lia.
Qed.

Lemma listed_before_after (k k0 x : jsstring) :
  listed_before k k0 = true -> listed_before x k0 = false ->
  listed_before x k = false.
Proof.
  unfold listed_before.
  destruct (array_index k) as [i|], (array_index k0) as [i0|],
    (array_index x) as [j|]; try congruence.
  rewrite N.ltb_lt, !N.ltb_ge. lia.
Qed.

Lemma ordinary_listed_before (k k' : jsstring) :
  ordinary_name k = true -> listed_before k k' = false.
Proof.
  unfold ordinary_name. intros H. apply listed_before_ordinary.
  now destruct (array_index k).
Qed.

(** A new property keeps the names in the order of own properties. *)
Lemma keys_insert_order (k : jsstring) (keys : list jsstring) :
  own_key_order keys -> own_key_order (keys_insert k keys).
Proof.
  unfold own_key_order.
  induction 1 as [|k0 keys Hsorted IH Hk0]; cbn [keys_insert].
  - repeat constructor.
  - destruct (listed_before k k0) eqn:E.
    + constructor; [now constructor|].
      constructor; [now apply listed_before_asym|].
      rewrite Forall_forall in *. intros x Hx.
      apply (listed_before_after k k0 x E). now apply Hk0.
    + constructor; [exact IH|].
      rewrite Forall_forall in *. intros x Hx.
      apply keys_insert_In in Hx. destruct Hx as [-> | Hx]; [exact E|].
      now apply Hk0.
Qed.

(** The names that are no array indices stay in the order of their
    creation. *)
Lemma keys_insert_ordinary (k : jsstring) (keys : list jsstring) :
  filter ordinary_name (keys_insert k keys)
  = filter ordinary_name keys ++ (if ordinary_name k then [k] else []).
Proof.
  destruct (ordinary_name k) eqn:E.
  - rewrite keys_insert_last.
    + rewrite filter_app. cbn [filter]. now rewrite E.
    + intros k' _. now apply ordinary_listed_before.
  - rewrite List.app_nil_r.
    induction keys as [|k0 keys IH]; cbn [keys_insert filter].
    + now rewrite E.
    + destruct (listed_before k k0); cbn [filter]; rewrite ?E, ?IH;
        reflexivity.
Qed.

Section KeysOfFold.

Context {V : Type} (f : Dimension -> V).

Let set_dimension (o : dict V) (dim : Dimension) : dict V :=
  obj_set (dim_id dim) (f dim) o.

Lemma fold_obj_set_In (dimensions : list Dimension) (acc : dict V)
  (k : jsstring) :
  In k (Object_keys (fold_left set_dimension dimensions acc))
  <-> In k (List.map dim_id dimensions) \/ In k (Object_keys acc).
Proof.
  revert acc. induction dimensions as [|d dims IH]; intros acc;
    cbn [fold_left List.map In].
  - tauto.
  - rewrite IH. unfold set_dimension. rewrite obj_set_In_keys.
    intuition congruence.
Qed.

Lemma fold_obj_set_keys_NoDup (dimensions : list Dimension) (acc : dict V) :
  NoDup (Object_keys acc) ->
  NoDup (Object_keys (fold_left set_dimension dimensions acc)).
Proof.
  revert acc. induction dimensions as [|d dims IH]; intros acc H;
    cbn [fold_left].
  - exact H.
  - apply IH. unfold set_dimension. now apply obj_set_NoDup.
Qed.

Lemma fold_obj_set_order (dimensions : list Dimension) (acc : dict V) :
  own_key_order (Object_keys acc) ->
  own_key_order (Object_keys (fold_left set_dimension dimensions acc)).
Proof.
  revert acc. induction dimensions as [|d dims IH]; intros acc H;
    cbn [fold_left].
  - exact H.
  - apply IH. unfold set_dimension. rewrite obj_set_keys.
    destruct (existsb _ _); [exact H|]. now apply keys_insert_order.
Qed.

Lemma fold_obj_set_ordinary (dimensions : list Dimension) (acc : dict V) :
  NoDup (Object_keys acc ++ List.map dim_id dimensions) ->
  filter ordinary_name (Object_keys (fold_left set_dimension dimensions acc))
  = filter ordinary_name (Object_keys acc)
    ++ filter ordinary_name (List.map dim_id dimensions).
Proof.
  revert acc. induction dimensions as [|d dims IH]; intros acc Hnd;
    cbn [fold_left List.map].
  - cbn [filter]. now rewrite List.app_nil_r.
  - cbn [List.map] in Hnd.
    assert (Hkeys : Object_keys (set_dimension acc d)
                    = keys_insert (dim_id d) (Object_keys acc)).
    { unfold set_dimension. rewrite obj_set_keys.
      destruct (existsb _ (Object_keys acc)) eqn:E; [|reflexivity].
      apply existsb_eqb_In in E. apply NoDup_remove_2 in Hnd.
      exfalso. apply Hnd. apply in_or_app. now left. }
    rewrite IH.
    + rewrite Hkeys, keys_insert_ordinary, <- List.app_assoc.
      f_equal. cbn [filter]. now destruct (ordinary_name (dim_id d)).
    + rewrite Hkeys.
      apply NoDup_app.
      * apply keys_insert_NoDup; [|now apply NoDup_app_remove_r in Hnd].
        apply NoDup_remove_2 in Hnd. intros Hin. apply Hnd.
        apply in_or_app. now left.
      * apply NoDup_app_remove_l in Hnd. now apply NoDup_cons_iff in Hnd.
      * intros x Hx Hx'. apply keys_insert_In in Hx.
        pose proof (NoDup_remove_1 _ _ _ Hnd) as Hrest.
        destruct Hx as [-> | Hx].
        -- apply NoDup_app_remove_l in Hnd. apply NoDup_cons_iff in Hnd.
           tauto.
        -- apply NoDup_remove_2 in Hnd.
           revert Hx Hx'. clear - Hrest.
           intros Hx Hx'. 
           induction (Object_keys acc) as [|y l IHl]; [contradiction|].
           cbn [app] in Hrest. apply NoDup_cons_iff in Hrest.
           destruct Hrest as [Hy Hrest]. destruct Hx as [-> | Hx].
           ++ apply Hy. apply in_or_app. now right.
           ++ now apply IHl.
Qed.

(** The names of the vector depend on the ids only, not on the values. *)
Lemma fold_obj_set_keys_values {W : Type} (g : Dimension -> W)
  (dimensions : list Dimension) (acc : dict V) (acc' : dict W) :
  Object_keys acc = Object_keys acc' ->
  Object_keys (fold_left set_dimension dimensions acc)
  = Object_keys
      (fold_left (fun o dim => obj_set (dim_id dim) (g dim) o) dimensions
         acc').
Proof.
  revert acc acc'. induction dimensions as [|d dims IH]; intros acc acc' H;
    cbn [fold_left].
  - exact H.
  - apply IH. unfold set_dimension. rewrite !obj_set_keys. now rewrite H.
Qed.

End KeysOfFold.

(** A normalised vector lists its entries as an object lists its own
    properties, each name once. *)
Lemma normalizeScoresForDimensions_order (input : option ScoreMap)
  (dimensions : list Dimension) (min max : number) :
  let keys :=
    Object_keys (normalizeScoresForDimensions input dimensions min max) in
  NoDup keys /\ own_key_order keys.
Proof.
  unfold normalizeScoresForDimensions. split.
  - apply (fold_obj_set_keys_NoDup
             (fun dim =>
                let value := Number_of (opt_get input (dim_id dim)) in
                if Number_isFinite value
                then clamp (Math_round value) min max
                else Fin 0)).
    constructor.
  - apply (fold_obj_set_order
             (fun dim =>
                let value := Number_of (opt_get input (dim_id dim)) in
                if Number_isFinite value
                then clamp (Math_round value) min max
                else Fin 0)).
    constructor.
Qed.

(** The vector of a fresh session lists every dimension once, in the order
    of own properties: the ids that are array indices first, ascending,
    then the other ids in definition order.  When no id is an array index,
    this is the definition order. *)
Lemma createInitialScores_keys (dimensions : list Dimension) :
  NoDup (List.map dim_id dimensions) ->
  let keys := Object_keys (createInitialScores dimensions) in
  Permutation keys (List.map dim_id dimensions) /\
  own_key_order keys /\
  filter ordinary_name keys
  = filter ordinary_name (List.map dim_id dimensions) /\
  (forallb ordinary_name (List.map dim_id dimensions) = true ->
   keys = List.map dim_id dimensions).
Proof.
  intros Hnd keys. subst keys. unfold createInitialScores.
  assert (Hperm : Permutation
                    (Object_keys
                       (fold_left
                          (fun acc dim => obj_set (dim_id dim) (Fin 0) acc)
                          dimensions []))
                    (List.map dim_id dimensions)).
  { apply NoDup_Permutation.
    - apply (fold_obj_set_keys_NoDup (fun _ => Fin 0)). constructor.
    - exact Hnd.
    - intros k. rewrite (fold_obj_set_In (fun _ => Fin 0)).
      cbn [Object_keys List.map In]. tauto. }
  assert (Hord : filter ordinary_name
                   (Object_keys
                      (fold_left
                         (fun acc dim => obj_set (dim_id dim) (Fin 0) acc)
                         dimensions []))
                 = filter ordinary_name (List.map dim_id dimensions)).
  { now rewrite (fold_obj_set_ordinary (fun _ => Fin 0) dimensions []). }
  split; [exact Hperm|]. split; [|split; [exact Hord|]].
  - apply (fold_obj_set_order (fun _ => Fin 0)). constructor.
  - intros Hall.
    assert (Hids : filter ordinary_name (List.map dim_id dimensions)
                   = List.map dim_id dimensions)
      by (apply forallb_filter_id; exact Hall).
    etransitivity; [|exact Hids]. rewrite <- Hord.
    symmetry. apply forallb_filter_id.
    apply forallb_forall. intros k Hk.
    rewrite forallb_forall in Hall. apply Hall.
    eapply Permutation_in; [exact Hperm|exact Hk].
Qed.

(** The claim of the definition order fails for ids that are array
    indices.  With the dimensions [b], [2], [1] the vector of a fresh
    session lists [1], [2], [b]; the three share the maximal value [0],
    rank 1 is [1] and not [b], the first in definition order, and
    [top_is b] is false. *)
Lemma ranking_ties_by_definition_order_counterexample :
  List.map dim_id indexed_dimensions = [js "b"; js "2"; js "1"] /\
  NoDup (List.map dim_id indexed_dimensions) /\
  Object_entries (createInitialScores indexed_dimensions)
  = [(js "1", Fin 0); (js "2", Fin 0); (js "b", Fin 0)] /\
  getSortedScores (createInitialScores indexed_dimensions)
  = [ {| se_id := js "1"; se_value := Fin 0 |};
      {| se_id := js "2"; se_value := Fin 0 |};
      {| se_id := js "b"; se_value := Fin 0 |} ] /\
  meetsCondition (Some (typed "top_is" (js "b") None))
    (createInitialScores indexed_dimensions) = false /\
  meetsCondition (Some (typed "top_is" (js "1") None))
    (createInitialScores indexed_dimensions) = true /\
  ~ (forall (first : Dimension) (others : list Dimension),
        NoDup (List.map dim_id (first :: others)) ->
        exists rest,
          getSortedScores (createInitialScores (first :: others))
          = {| se_id := dim_id first; se_value := Fin 0 |} :: rest).
Proof.
  assert (Hnd : NoDup (List.map dim_id indexed_dimensions)).
  { cbn. repeat constructor; cbn; intuition discriminate. }
  split; [reflexivity|]. split; [exact Hnd|].
  split; [vm_compute; reflexivity|]. split; [vm_compute; reflexivity|].
  split; [vm_compute; reflexivity|]. split; [vm_compute; reflexivity|].
  intros H.
  destruct (H (dimension "b") (List.map dimension ["2"; "1"]%string) Hnd)
    as [rest Hrest].
  vm_compute in Hrest. discriminate Hrest.
Qed.

(** C7, amended. The ranking of [top_is], [not_top_is], [rank_is],
    [top_diff_gte] and [top_diff_lte] sorts the entries by value,
    descending, with ties broken by the order in which the vector lists
    its entries: [getSortedScores] permutes the entries, keeps the entries
    of equal value in their order and is descending; when the entry
    [(id, value)] is the first one that attains the maximal value (every
    earlier entry is strictly smaller, no later entry is larger), it is
    rank 1, whatever later dimensions share its value.  The vector of a
    session lists every dimension once, the ids that are array indices
    first, in ascending order, then the other ids in definition order; it
    is the definition order when no id is an array index. *)
Theorem ranking_ties_by_definition_order (scoreMap : ScoreMap) :
  let entries := List.map score_entry (Object_entries scoreMap) in
  Permutation (getSortedScores scoreMap) entries /\
  (forall value : number,
      filter (fun e => num_eq (se_value e) value) (getSortedScores scoreMap)
      = filter (fun e => num_eq (se_value e) value) entries) /\
  ((forall e, In e scoreMap -> snd e <> NaN) ->
   Sorted (fun a b => num_le (se_value b) (se_value a) = true)
     (getSortedScores scoreMap)) /\
  (forall dimensions : list Dimension,
      NoDup (List.map dim_id dimensions) ->
      let keys := Object_keys (createInitialScores dimensions) in
      Permutation keys (List.map dim_id dimensions) /\
      own_key_order keys /\
      filter ordinary_name keys
      = filter ordinary_name (List.map dim_id dimensions) /\
      (forallb ordinary_name (List.map dim_id dimensions) = true ->
       keys = List.map dim_id dimensions)) /\
  (forall (pre post : ScoreMap) (id : jsstring) (value : number),
      scoreMap = pre ++ (id, value) :: post ->
      (forall e, In e pre -> num_lt (snd e) value = true) ->
      (forall e, In e post -> num_le (snd e) value = true) ->
      exists rest,
        getSortedScores scoreMap
        = {| se_id := id; se_value := value |} :: rest /\
        forall cond : ResultCondition,
          (cond_type cond = Some (js "top_is") ->
           meetsCondition (Some cond) scoreMap
           = opt_string_eqb (Some id) (cond_dim cond)) /\
          (cond_type cond = Some (js "not_top_is") ->
           meetsCondition (Some cond) scoreMap
           = negb (opt_string_eqb (Some id) (cond_dim cond))) /\
          (cond_type cond = Some (js "rank_is") ->
           cond_rank cond = None \/ cond_rank cond = Some (Fin 1) ->
           meetsCondition (Some cond) scoreMap
           = opt_string_eqb (Some id) (cond_dim cond)) /\
          (cond_type cond = Some (js "top_diff_gte") ->
           meetsCondition (Some cond) scoreMap
           = num_ge
               (num_sub value
                  (nullish_or (option_map se_value (nth_error rest 0)) (Fin 0)))
               (nullish_or (cond_value cond) (Fin 0))) /\
          (cond_type cond = Some (js "top_diff_lte") ->
           meetsCondition (Some cond) scoreMap
           = num_le
               (num_sub value
                  (nullish_or (option_map se_value (nth_error rest 0)) (Fin 0)))
               (nullish_or (cond_value cond) (Fin 0)))).
Proof.
  intros entries. split; [|split; [|split; [|split]]].
  - apply (Array_sort_Permutation se_value).
  - intros value. apply (Array_sort_stable se_value).
  - intros Hfinite. apply (Array_sort_Sorted se_value).
    intros y Hy. apply in_map_iff in Hy. destruct Hy as [[k v] [<- Hin]].
    exact (Hfinite _ Hin).
  - exact createInitialScores_keys.
  - intros pre post id value -> Hpre Hpost.
    destruct (ranking_first_maximal pre post id value Hpre Hpost)
      as [rest [Hs Hconds]].
    exists rest. split; [exact Hs|]. intros cond. apply Hconds.
Qed.

Lemma ranking_ties_by_definition_order_witness :
  exists rest,
    getSortedScores tie_vector
    = {| se_id := js "b"; se_value := num_of_Z 3 |} :: rest.
Proof.
  destruct (proj2 (proj2 (proj2 (proj2
              (ranking_ties_by_definition_order tie_vector))))
              [(js "a", num_of_Z 1)]
              [(js "c", num_of_Z 3); (js "d", num_of_Z 2)]
              (js "b") (num_of_Z 3) eq_refl) as [rest [H _]].
  - intros e [<- | []]. reflexivity.
  - intros e [<- | [<- | []]]; reflexivity.
  - exists rest. exact H.
Defined.

(** ** Clamping and normalisation *)

Lemma num_lt_of_Z (a b : Z) : num_lt (num_of_Z a) (num_of_Z b) = (a <? b)%Z.
Proof.
  unfold num_of_Z, num_lt, Qlt_bool, Qle_bool. simpl.
  rewrite !Z.mul_1_r. symmetry. apply Z.ltb_antisym.
Qed.

Lemma clamp_of_Z (r lo hi : Z) :
  clamp (num_of_Z r) (num_of_Z lo) (num_of_Z hi)
  = num_of_Z (Z.max lo (Z.min hi r)).
Proof.
  unfold clamp.
  assert (Hmin : Math_min (num_of_Z hi) (num_of_Z r) = num_of_Z (Z.min hi r)).
  { change (Math_min (num_of_Z hi) (num_of_Z r))
      with (if num_lt (num_of_Z r) (num_of_Z hi)
            then num_of_Z r else num_of_Z hi).
    rewrite num_lt_of_Z. destruct (Z.ltb_spec r hi); f_equal; lia. }
  rewrite Hmin.
  change (Math_max (num_of_Z lo) (num_of_Z (Z.min hi r)))
    with (if num_lt (num_of_Z lo) (num_of_Z (Z.min hi r))
          then num_of_Z (Z.min hi r) else num_of_Z lo).
  rewrite num_lt_of_Z. destruct (Z.ltb_spec lo (Z.min hi r)); f_equal; lia.
Qed.

Section Normalisation.

Variable input : option ScoreMap.
Variables lo hi : Z.
Hypothesis lo_le_0 : (lo <= 0)%Z.
Hypothesis hi_ge_0 : (0 <= hi)%Z.

(** The value stored for the dimension id [k]. *)
Let stored (k : jsstring) : number :=
  let value := Number_of (opt_get input k) in
  if Number_isFinite value
  then clamp (Math_round value) (num_of_Z lo) (num_of_Z hi)
  else Fin 0.

Let step (normalized : ScoreMap) (dim : Dimension) : ScoreMap :=
  obj_set (dim_id dim) (stored (dim_id dim)) normalized.

Lemma normalize_fold_get (dimensions : list Dimension) (acc : ScoreMap)
  (k : jsstring) :
  obj_get k (fold_left step dimensions acc)
  = if existsb (jsstring_eqb k) (List.map dim_id dimensions)
    then Some (stored k)
    else obj_get k acc.
Proof.
  revert acc. induction dimensions as [|d dims IH]; intros acc;
    cbn [fold_left List.map existsb].
  - reflexivity.
  - rewrite IH.
    destruct (jsstring_eqb k (dim_id d)) eqn:E; cbn [orb].
    + apply jsstring_eqb_eq in E. subst k.
      unfold step. rewrite obj_get_set_same.
      now destruct (existsb _ _).
    + apply jsstring_eqb_neq in E.
      unfold step. rewrite obj_get_set_other by congruence.
      reflexivity.
Qed.

Lemma normalize_fold_keys (dimensions : list Dimension) (acc : ScoreMap)
  (k : jsstring) :
  In k (Object_keys (fold_left step dimensions acc))
  <-> In k (List.map dim_id dimensions) \/ In k (Object_keys acc).
Proof.
  revert acc. induction dimensions as [|d dims IH]; intros acc;
    cbn [fold_left List.map In].
  - tauto.
  - rewrite IH. unfold step. rewrite obj_set_In_keys.
    intuition congruence.
Qed.

Lemma normalize_fold_NoDup (dimensions : list Dimension) (acc : ScoreMap) :
  NoDup (Object_keys acc) ->
  NoDup (Object_keys (fold_left step dimensions acc)).
Proof.
  revert acc. induction dimensions as [|d dims IH]; intros acc H;
    cbn [fold_left].
  - exact H.
  - apply IH. unfold step. now apply obj_set_NoDup.
Qed.

Lemma stored_in_range (k : jsstring) :
  exists z : Z,
    stored k = num_of_Z z /\ (lo <= z <= hi)%Z /\
    match Number_of (opt_get input k) with
    | Fin q => z = Z.max lo (Z.min hi (Qfloor (Qplus q (1 # 2))))
    | _ => z = 0%Z
    end.
Proof.
  unfold stored. destruct (Number_of (opt_get input k)) as [q| | |]; simpl.
  - exists (Z.max lo (Z.min hi (Qfloor (Qplus q (1 # 2))))).
    split; [|split; [lia|reflexivity]].
    apply (clamp_of_Z (Qfloor (Qplus q (1 # 2))) lo hi).
  - exists 0%Z. repeat split; lia.
  - exists 0%Z. repeat split; lia.
  - exists 0%Z. repeat split; lia.
Qed.

Lemma normalizeScoresForDimensions_within (dimensions : list Dimension) :
  normalized_within input dimensions lo hi
    (normalizeScoresForDimensions input dimensions (num_of_Z lo) (num_of_Z hi)).
Proof.
  unfold normalizeScoresForDimensions.
  change (fold_left _ dimensions [])
    with (fold_left step dimensions []).
  split; [|split].
  - intros k. rewrite normalize_fold_keys. simpl. tauto.
  - apply normalize_fold_NoDup. constructor.
  - intros k v. rewrite normalize_fold_get.
    destruct (existsb _ _); [|discriminate].
    intros [= <-]. apply stored_in_range.
Qed.

End Normalisation.

Lemma Qfloor_half (z : Z) : Qfloor (Qplus (inject_Z z) (1 # 2)) = z.
Proof.
  unfold Qfloor, Qplus, inject_Z. simpl. lia.
Qed.

(** Normalising twice is normalising once: the encode side and the decode
    side apply the same normalisation, and the second changes nothing. *)
Lemma normalize_idempotent (input : option ScoreMap)
  (dimensions : list Dimension) (lo hi : Z) :
  (lo <= 0 <= hi)%Z ->
  let once :=
    normalizeScoresForDimensions input dimensions (num_of_Z lo) (num_of_Z hi) in
  normalizeScoresForDimensions (Some once) dimensions (num_of_Z lo) (num_of_Z hi)
  = once.
Proof.
  intros [Hlo Hhi] once.
  destruct (normalizeScoresForDimensions_within input lo hi Hlo Hhi dimensions)
    as [Hkeys [_ Hvalues]].
  fold once in Hkeys, Hvalues.
  assert (Hext : forall (f g : ScoreMap -> Dimension -> ScoreMap)
                        (l : list Dimension) (acc : ScoreMap),
             (forall a d, In d l -> f a d = g a d) ->
             fold_left f l acc = fold_left g l acc).
  { intros f g l. induction l as [|d l IH]; intros acc H; [reflexivity|].
    cbn [fold_left]. rewrite (H acc d) by now left.
    apply IH. intros a d' Hd'. apply H. now right. }
  unfold once at 2. unfold normalizeScoresForDimensions.
  apply Hext. intros acc d Hd. f_equal.
  cbn [opt_get].
  destruct (obj_get (dim_id d) once) as [v|] eqn:Hget.
  2:{ apply obj_get_None in Hget. exfalso. apply Hget. apply Hkeys.
      now apply in_map. }
  destruct (Hvalues _ _ Hget) as [z [-> [Hrange Hz]]].
  cbn [Number_of num_of_Z Number_isFinite Math_round].
  rewrite Qfloor_half.
  change (Fin (inject_Z z)) with (num_of_Z z). rewrite clamp_of_Z.
  destruct (Number_of (opt_get input (dim_id d))) as [q| | |];
    cbn [Number_isFinite Math_round].
  - pose proof (clamp_of_Z (Qfloor (Qplus q (1 # 2))) lo hi) as Hc.
    unfold num_of_Z in Hc at 1. rewrite Hc. f_equal. lia.
  - subst z. replace (Z.max lo (Z.min hi 0)) with 0%Z by lia. reflexivity.
  - subst z. replace (Z.max lo (Z.min hi 0)) with 0%Z by lia. reflexivity.
  - subst z. replace (Z.max lo (Z.min hi 0)) with 0%Z by lia. reflexivity.
Qed.

(** C5. Normalisation over the configured dimensions yields a map whose
    keys are exactly the configured dimension ids, each value an integer
    obtained by rounding and clamping ([0] for a missing or non-finite
    input), within [[-20, 20]] on the versioned path and within
    [[-10, 10]] on the legacy path.  The legacy decoder never throws: it
    returns [null] for a null or empty parameter and when the parameter
    cannot be parsed, and otherwise the scores parsed from the parameter,
    normalised into [[-10, 10]]. *)
Theorem normalized_scores_bounded (dimensions : list Dimension) :
  (forall input : option ScoreMap,
      normalized_within input dimensions (-20) 20
        (normalizeScoresForDimensions input dimensions
           (num_of_Z (-20)) (num_of_Z 20))) /\
  (forall (parse_legacy : jsstring -> outcome (option ScoreMap))
          (rawValue : option jsstring),
      let decoded :=
        decodeLegacyScoresFromUrl parse_legacy rawValue dimensions in
      (exists result, decoded = Returned result) /\
      (rawValue = None \/ rawValue = Some [] -> decoded = Returned None) /\
      (forall raw : jsstring,
          rawValue = Some raw -> raw <> [] ->
          (forall e, parse_legacy raw = Thrown e -> decoded = Returned None) /\
          (forall parsed : option ScoreMap,
              parse_legacy raw = Returned parsed ->
              decoded
              = Returned
                  (Some (normalizeScoresForDimensions parsed dimensions
                           (num_of_Z (-10)) (num_of_Z 10))) /\
              normalized_within parsed dimensions (-10) 10
                (normalizeScoresForDimensions parsed dimensions
                   (num_of_Z (-10)) (num_of_Z 10))))).
Proof.
  split.
  - intros input. apply normalizeScoresForDimensions_within; lia.
  - intros parse_legacy rawValue decoded. subst decoded.
    unfold decodeLegacyScoresFromUrl. split; [|split].
    + destruct (truthy_opt_string rawValue); cbn [negb]; [|eauto].
      destruct (parse_legacy (nullish_or rawValue [])); cbn [bind try_catch];
        eauto.
    + intros [-> | ->]; reflexivity.
    + intros raw -> Hraw.
      assert (Htruthy : truthy_opt_string (Some raw) = true)
        by (destruct raw; [congruence|reflexivity]).
      rewrite Htruthy. cbn [negb nullish_or]. split.
      * intros e ->. reflexivity.
      * intros parsed ->. cbn [bind try_catch]. split; [reflexivity|].
        apply normalizeScoresForDimensions_within; lia.
Qed.

Lemma normalized_scores_bounded_witness :
  let dimensions := List.map dimension ["a"; "b"; "c"; "d"; "z"]%string in
  let normalized :=
    normalizeScoresForDimensions (Some raw_scores) dimensions
      (num_of_Z (-20)) (num_of_Z 20) in
  (normalized_within (Some raw_scores) dimensions (-20) 20 normalized /\
   normalized
   = [ (js "a", num_of_Z 3); (js "b", num_of_Z (-3)); (js "c", num_of_Z 0);
       (js "d", num_of_Z 0); (js "z", num_of_Z 20) ]) /\
  exists parsed : option ScoreMap,
    parse_legacy_text (js "%7B%22a%22%3A30%2C%22b%22%3A-4%2C%22q%22%3A1%7D")
    = Returned parsed /\
    decodeLegacyScoresFromUrl parse_legacy_text
      (Some (js "%7B%22a%22%3A30%2C%22b%22%3A-4%2C%22q%22%3A1%7D")) dimensions
    = Returned
        (Some [ (js "a", num_of_Z 10); (js "b", num_of_Z (-4));
                (js "c", num_of_Z 0); (js "d", num_of_Z 0);
                (js "z", num_of_Z 0) ]) /\
    normalized_within parsed dimensions (-10) 10
      [ (js "a", num_of_Z 10); (js "b", num_of_Z (-4));
        (js "c", num_of_Z 0); (js "d", num_of_Z 0); (js "z", num_of_Z 0) ].
Proof.
  intros dimensions normalized. split.
  - split.
    + apply (proj1 (normalized_scores_bounded dimensions)).
    + vm_compute. reflexivity.
  - assert (Hparse :
              parse_legacy_text
                (js "%7B%22a%22%3A30%2C%22b%22%3A-4%2C%22q%22%3A1%7D")
              = Returned
                  (Some [ (js "a", num_of_Z 30); (js "b", num_of_Z (-4));
                          (js "q", num_of_Z 1) ]))
      by (vm_compute; reflexivity).
    eexists. split; [exact Hparse|].
    destruct (proj2 (proj2 (proj2 (normalized_scores_bounded dimensions)
                              parse_legacy_text
                              (Some (js "%7B%22a%22%3A30%2C%22b%22%3A-4%2C%22q%22%3A1%7D"))))
                _ eq_refl ltac:(discriminate)) as [_ Hreturned].
    destruct (Hreturned _ Hparse) as [Hdecoded Hwithin].
    split.
    + rewrite Hdecoded. vm_compute. reflexivity.
    + exact Hwithin.
Defined.

(** ** Score accumulation *)

Lemma accumulate_fold_get (weights : dict number) (scores : ScoreMap)
  (dimId : jsstring) :
  NoDup (Object_keys weights) ->
  obj_get dimId
    (fold_left
       (fun nextScores '(k, delta) =>
          obj_set k (accumulated (obj_get k nextScores) delta) nextScores)
       weights scores)
  = match obj_get dimId weights with
    | Some delta => Some (accumulated (obj_get dimId scores) delta)
    | None => obj_get dimId scores
    end.
Proof.
  revert scores. induction weights as [|[k delta] weights IH];
    intros scores Hnodup; cbn [fold_left obj_get].
  - reflexivity.
  - inversion Hnodup as [|? ? Hnotin Hrest]; subst.
    rewrite (IH _ Hrest).
    destruct (jsstring_eqb dimId k) eqn:E.
    + apply jsstring_eqb_eq in E. subst k.
      apply obj_get_None in Hnotin. rewrite Hnotin.
      apply obj_get_set_same.
    + apply jsstring_eqb_neq in E.
      rewrite !obj_get_set_other by congruence. reflexivity.
Qed.

(** C8. Score accumulation is a per-dimension clamped addition with a frame
    condition: after an option is applied, a dimension of its weights map
    holds [clamp(old + delta, -20, 20)], with a non-finite [delta] and an
    absent old value read as [0], whatever the other weights are, and any
    other dimension keeps its value. *)
Theorem handleAnswer_accumulates (scores : ScoreMap) (option : QuestionOption)
  (dimId : jsstring) :
  let weights := nullish_or (opt_weights option) [] in
  NoDup (Object_keys weights) ->
  obj_get dimId (handleAnswer_nextScores scores option)
  = match obj_get dimId weights with
    | Some delta =>
        Some (clamp
                (num_add (number_or (obj_get dimId scores) (Fin 0))
                   (if Number_isFinite delta then delta else Fin 0))
                (num_of_Z (-20)) (num_of_Z 20))
    | None => obj_get dimId scores
    end.
Proof.
  intros weights Hnodup. unfold handleAnswer_nextScores, Object_entries.
  fold weights.
  exact (accumulate_fold_get weights scores dimId Hnodup).
Qed.

Lemma handleAnswer_accumulates_witness :
  obj_get (js "calm") (handleAnswer_nextScores sample_scores sample_option)
  = Some (num_of_Z 20) /\
  obj_get (js "tempo") (handleAnswer_nextScores sample_scores sample_option)
  = Some (num_of_Z (-4)) /\
  obj_get (js "focus") (handleAnswer_nextScores sample_scores sample_option)
  = Some (num_of_Z (-20)) /\
  obj_get (js "courage") (handleAnswer_nextScores sample_scores sample_option)
  = Some (num_of_Z 2).
Proof.
  assert (Hkeys : NoDup (Object_keys
                           (nullish_or (opt_weights sample_option) []))).
  { simpl. repeat constructor; simpl; intuition discriminate. }
  split; [|split; [|split]];
    rewrite (handleAnswer_accumulates sample_scores sample_option _ Hkeys);
    vm_compute; reflexivity.
Defined.

(** ** Result resolution *)

(** C1. The priority tie-break, evaluated on [tie_results]: the two
    eligible results [earlier] (index 2 of [results]) and [later] (index 3)
    have the same priority, and [resolveConditionalResult] returns the
    later one, not the one defined first.  The loop compares the index of
    [later] among the candidates, 1, with the index of [earlier] in
    [results], 2. *)
Theorem resolve_tie_break_later_wins :
  resultMatchesConditions earlier sample_scores = true /\
  resultMatchesConditions later sample_scores = true /\
  rp_priority earlier = rp_priority later /\
  indexOf tie_results earlier = 2%Z /\
  indexOf tie_results later = 3%Z /\
  filter (fun r => resultMatchesConditions r sample_scores) tie_results
  = [earlier; later] /\
  resolveConditionalResult tie_results sample_scores = Some later.
Proof. repeat split; vm_compute; reflexivity. Qed.

Lemma priority_of_finite (r : ResultProfile) : exists q, priority_of r = Fin q.
Proof.
  unfold priority_of. destruct (Number_of (rp_priority r)); simpl; eauto.
Qed.

(** The invariant of the loop of [resolveConditionalResult] after the
    candidates [seen]: [best] is one of them, of priority [bestPriority],
    which none of them exceeds. *)
Lemma resolve_step_invariant (results seen : list ResultProfile)
  (best : option ResultProfile) (bestPriority : number) (r : ResultProfile)
  (index : Z) :
  match best with
  | Some b => In b seen /\ num_eq (priority_of b) bestPriority = true
  | None => bestPriority = NegInf
  end ->
  (forall c, In c seen -> num_le (priority_of c) bestPriority = true) ->
  let '(best', bestPriority') :=
    resolve_step results (best, bestPriority) r index in
  (exists b, best' = Some b /\ In b (seen ++ [r]) /\
             num_eq (priority_of b) bestPriority' = true) /\
  (forall c, In c (seen ++ [r]) ->
             num_le (priority_of c) bestPriority' = true).
Proof.
  intros Hbest Hseen. unfold resolve_step. fold (priority_of r).
  destruct (priority_of_finite r) as [q Hq]. rewrite Hq.
  destruct (num_gt (Fin q) bestPriority) eqn:Hgt.
  - split.
    + exists r. split; [reflexivity|]. split.
      * apply in_or_app. right. now left.
      * rewrite Hq. simpl. apply Qeq_bool_iff. reflexivity.
    + intros c Hc. apply in_app_or in Hc. destruct Hc as [Hc | [<- | []]].
      * specialize (Hseen c Hc).
        destruct (priority_of_finite c) as [qc Hqc]. rewrite Hqc in *.
        destruct bestPriority as [bp| | |]; simpl in *; try discriminate.
        apply Qle_bool_iff in Hseen. apply Qlt_bool_iff in Hgt.
        apply Qle_bool_iff. lra.
      * rewrite Hq. simpl. apply Qle_bool_iff. apply Qle_refl.
  - destruct best as [b|].
    2:{ subst bestPriority. discriminate Hgt. }
    destruct Hbest as [Hin Hprio].
    destruct (priority_of_finite b) as [qb Hqb]. rewrite Hqb in Hprio.
    destruct bestPriority as [bp| | |]; simpl in Hprio; try discriminate.
    assert (Hle : num_le (Fin q) (Fin bp) = true).
    { simpl in *. apply Qlt_bool_false_iff in Hgt. now apply Qle_bool_iff. }
    assert (Hall : forall c, In c (seen ++ [r]) ->
                             num_le (priority_of c) (Fin bp) = true).
    { intros c Hc. apply in_app_or in Hc. destruct Hc as [Hc | [<- | []]].
      - now apply Hseen.
      - now rewrite Hq. }
    assert (Hkeep : exists b0, Some b = Some b0 /\ In b0 (seen ++ [r]) /\
                               num_eq (priority_of b0) (Fin bp) = true).
    { exists b. split; [reflexivity|]. split.
      - apply in_or_app. now left.
      - now rewrite Hqb. }
    destruct (num_eq (Fin q) (Fin bp)) eqn:Heq; [|now split].
    destruct (index <? indexOf results b)%Z; [|now split].
    split; [|exact Hall].
    exists r. split; [reflexivity|]. split.
    + apply in_or_app. right. now left.
    + now rewrite Hq.
Qed.

Lemma forEach_candidates_invariant (results : list ResultProfile) :
  forall (candidates seen : list ResultProfile) (index : Z)
         (best : option ResultProfile) (bestPriority : number),
    candidates <> [] ->
    match best with
    | Some b => In b seen /\ num_eq (priority_of b) bestPriority = true
    | None => bestPriority = NegInf
    end ->
    (forall c, In c seen -> num_le (priority_of c) bestPriority = true) ->
    exists b bestPriority',
      forEach_candidates results candidates index (best, bestPriority)
      = (Some b, bestPriority') /\
      In b (seen ++ candidates) /\
      num_eq (priority_of b) bestPriority' = true /\
      (forall c, In c (seen ++ candidates) ->
                 num_le (priority_of c) bestPriority' = true).
Proof.
  induction candidates as [|r rest IH];
    intros seen index best bestPriority Hne Hbest Hseen; [congruence|].
  cbn [forEach_candidates].
  pose proof (resolve_step_invariant results seen best bestPriority r index
                Hbest Hseen) as Hstep.
  destruct (resolve_step results (best, bestPriority) r index)
    as [best1 bestPriority1].
  destruct Hstep as [[b1 [-> [Hin1 Hprio1]]] Hseen1].
  destruct rest as [|r' rest'].
  - cbn [forEach_candidates]. exists b1, bestPriority1. auto.
  - destruct (IH (seen ++ [r]) (index + 1)%Z (Some b1) bestPriority1)
      as [b [bp [Hrun [Hin [Hprio Hall]]]]]; [discriminate|auto|exact Hseen1|].
    rewrite <- app_assoc in Hin, Hall.
    exists b, bp. auto.
Qed.

(** What the loop achieves: whenever a result is eligible,
    [resolveConditionalResult] returns an eligible result of [results]
    whose priority no eligible result exceeds. *)
Lemma resolve_max_priority (results : list ResultProfile) (scoreMap : ScoreMap)
  (r : ResultProfile) :
  In r results -> resultMatchesConditions r scoreMap = true ->
  exists b,
    resolveConditionalResult results scoreMap = Some b /\
    In b results /\ resultMatchesConditions b scoreMap = true /\
    forall c, In c results -> resultMatchesConditions c scoreMap = true ->
              num_le (priority_of c) (priority_of b) = true.
Proof.
  intros Hin Hmatch. unfold resolveConditionalResult.
  set (candidates := filter _ results).
  assert (Hr : In r candidates) by (apply filter_In; auto).
  destruct (forEach_candidates_invariant results candidates [] 0%Z None NegInf)
    as [b [bp [Hrun [Hb [Hprio Hall]]]]].
  - intros E. rewrite E in Hr. exact Hr.
  - reflexivity.
  - intros c [].
  - cbn [app] in Hb, Hall. destruct candidates as [|c0 cs] eqn:E; [destruct Hr|].
    rewrite Hrun. exists b. split; [reflexivity|].
    rewrite <- E in Hb, Hall. apply filter_In in Hb. destruct Hb as [Hb1 Hb2].
    repeat split; auto.
    intros c Hc Hcm.
    assert (Hcc : In c candidates) by (apply filter_In; auto).
    specialize (Hall c Hcc).
    destruct (priority_of_finite c) as [qc Hqc], (priority_of_finite b) as [qb Hqb].
    rewrite Hqc, Hqb in *.
    destruct bp as [x| | |]; simpl in *; try discriminate.
    apply Qeq_bool_iff in Hprio. apply Qle_bool_iff in Hall.
    apply Qle_bool_iff. lra.
Qed.

Lemma resolve_none (results : list ResultProfile) (scoreMap : ScoreMap) :
  (forall r, In r results -> resultMatchesConditions r scoreMap = false) ->
  resolveConditionalResult results scoreMap = None.
Proof.
  intros H. unfold resolveConditionalResult.
  assert (E : filter (fun r => resultMatchesConditions r scoreMap) results = []).
  { induction results as [|r rs IH]; [reflexivity|]. simpl.
    rewrite (H r) by now left. apply IH. intros r' Hr'. apply H. now right. }
  now rewrite E.
Qed.

Lemma string_or_empty (s : jsstring) : string_or (Some s) (js "") = s.
Proof. now destruct s. Qed.

(** The claim of an empty placeholder title fails: the placeholder is
    titled ["Your Potion"]. *)
Lemma computeResult_placeholder_title_counterexample :
  ~ (forall scoreMap : ScoreMap,
        let r := computeResult [] scoreMap in
        rp_title r = js "" /\ rp_summary r = js "" /\ rp_signals r = Some []).
Proof.
  intros H. destruct (H []) as [Htitle _]. vm_compute in Htitle.
  discriminate Htitle.
Qed.

(** C2, amended. [computeResult] is total: every results list and score
    vector give one result.  With an empty results list the outcome is
    built from the placeholder, whose id is ["fallback"], whose title is
    ["Your Potion"] and whose summary, lore and signals are empty, with an
    [extra] annotation attached. *)
Theorem computeResult_total_placeholder (scoreMap : ScoreMap) :
  (forall results : list ResultProfile,
      exists r : ResultProfile, computeResult results scoreMap = r) /\
  (exists extra : jsstring,
      computeResult [] scoreMap = with_summary_extra placeholder (js "") extra) /\
  let r := computeResult [] scoreMap in
  rp_id r = js "fallback" /\
  rp_title r = js "Your Potion" /\
  rp_summary r = js "" /\
  rp_lore r = Some (js "") /\
  rp_signals r = Some [].
Proof.
  assert (E : exists extra : jsstring,
             computeResult [] scoreMap
             = with_summary_extra placeholder (js "") extra).
  { unfold computeResult.
    change (resolveConditionalResult [] scoreMap) with (@None ResultProfile).
    cbv beta iota zeta.
    change (defaultResult_of []) with placeholder.
    destruct (dominant_of scoreMap) as [|top rest].
    - eexists. reflexivity.
    - destruct (obj_get top fallbackMap); eexists; reflexivity. }
  split; [intros results; eexists; reflexivity|].
  split; [exact E|].
  destruct E as [extra ->]. repeat split.
Qed.

Lemma dominant_of_head (pre post : ScoreMap) (k : jsstring) (v : number) :
  (forall e, In e pre -> num_lt (Math_abs (snd e)) (Math_abs v) = true) ->
  (forall e, In e post -> num_le (Math_abs (snd e)) (Math_abs v) = true) ->
  exists rest, dominant_of (pre ++ (k, v) :: post) = k :: rest.
Proof.
  intros Hpre Hpost. unfold dominant_of, Object_entries.
  destruct (Array_sort_head (fun e : jsstring * number => Math_abs (snd e))
              pre post (k, v) Hpre Hpost) as [rest Hs].
  unfold descending_by in Hs. rewrite Hs. now exists (List.map fst rest).
Qed.

Lemma dominant_of_nonempty (scoreMap : ScoreMap) :
  scoreMap <> [] -> exists top rest, dominant_of scoreMap = top :: rest.
Proof.
  intros Hne. unfold dominant_of, Object_entries.
  pose proof (Array_sort_length
                (fun e : jsstring * number => Math_abs (snd e)) scoreMap) as Hlen.
  unfold descending_by in Hlen.
  destruct (Array_sort _ scoreMap) as [|[k v] sorted].
  - destruct scoreMap; [congruence|discriminate Hlen].
  - now exists k, (List.map fst sorted).
Qed.

(** C9. The unconditional fallback.  For a non-empty score vector that no
    result matches, the dominant dimension [top] is the head of the entries
    sorted by absolute value, descending and stable: the first entry whose
    absolute value no entry exceeds.  The outcome is the result the static
    map assigns to [top] (["calm"] to ["potion_top_calm"]) when [results]
    has it, else the result with id ["potion_calm"] when present, else the
    first entry of [results] (the placeholder when there is none), and its
    [extra] is ["Dominant: <top>"], followed by [", Secondary: <second>"]
    when a second dimension exists. *)
Theorem computeResult_fallback (results : list ResultProfile)
  (scoreMap : ScoreMap) :
  scoreMap <> [] ->
  (forall r, In r results -> resultMatchesConditions r scoreMap = false) ->
  exists top rest,
    dominant_of scoreMap = top :: rest /\
    (forall pre k v post,
        scoreMap = pre ++ (k, v) :: post ->
        (forall e, In e pre -> num_lt (Math_abs (snd e)) (Math_abs v) = true) ->
        (forall e, In e post -> num_le (Math_abs (snd e)) (Math_abs v) = true) ->
        top = k) /\
    obj_get (js "calm") fallbackMap = Some (js "potion_top_calm") /\
    let mapped :=
      match obj_get top fallbackMap with
      | Some id => find_by_id results id
      | None => None
      end in
    let resolved :=
      match mapped, find_by_id results (js "potion_calm"), results with
      | Some r, _, _ => r
      | None, Some r, _ => r
      | None, None, r :: _ => r
      | None, None, [] => placeholder
      end in
    exists extra,
      computeResult results scoreMap
      = with_summary_extra resolved (rp_summary resolved) extra /\
      (rest = [] -> extra = js "Dominant: " ++ top) /\
      (forall second rest',
          rest = second :: rest' -> second <> [] ->
          extra = js "Dominant: " ++ top ++ js ", Secondary: " ++ second).
Proof.
  intros Hne Hnone.
  destruct (dominant_of_nonempty scoreMap Hne) as [top [rest Hdom]].
  exists top, rest. split; [exact Hdom|]. split; [|split; [reflexivity|]].
  - intros pre k v post -> Hpre Hpost.
    destruct (dominant_of_head pre post k v Hpre Hpost) as [rest' Hd].
    congruence.
  - intros mapped resolved.
    unfold computeResult. rewrite (resolve_none _ _ Hnone), Hdom.
    cbv beta iota zeta. rewrite string_or_empty.
    fold mapped. unfold defaultResult_of.
    eexists. split; [|split].
    + subst resolved.
      destruct mapped;
        [|destruct (find_by_id results (js "potion_calm"));
          [|destruct results]]; reflexivity.
    + intros ->. cbn [nth_error truthy_opt_string]. now rewrite app_nil_r.
    + intros second rest' -> Hsecond. cbn [nth_error truthy_opt_string].
      destruct second; [congruence|reflexivity].
Qed.

Lemma computeResult_fallback_witness :
  rp_id (computeResult unmatched_results sample_scores) = js "potion_top_calm"
  /\ rp_extra (computeResult unmatched_results sample_scores)
     = Some (js "Dominant: calm, Secondary: tempo").
Proof.
  assert (Hne : sample_scores <> []) by discriminate.
  assert (Hnone : forall r, In r unmatched_results ->
                            resultMatchesConditions r sample_scores = false).
  { intros r [<- | [<- | [<- | []]]]; reflexivity. }
  destruct (computeResult_fallback unmatched_results sample_scores Hne Hnone)
    as [top [rest [Hdom [_ [_ [extra [Hres [_ Hextra]]]]]]]].
  vm_compute in Hdom. injection Hdom as <- <-.
  rewrite Hres. split; [reflexivity|].
  cbn [rp_extra with_summary_extra]. f_equal.
  apply (Hextra _ _ eq_refl). discriminate.
Defined.

(** ** Scenarios of the specification *)

(** The vector [{ calm: 16, courage: 2, tempo: -4 }], a result with
    [min calm 10] and priority 5 and an unconditional result of priority 1:
    the first wins. *)
Example scenario_priority :
  option_map rp_id
    (resolveConditionalResult
       [ result_with "brew" (Some 5%Z) (Some [calm_at_least 10]);
         result_with "plain" (Some 1%Z) None ]
       [ (js "calm", num_of_Z 16); (js "courage", num_of_Z 2);
         (js "tempo", num_of_Z (-4)) ])
  = Some (js "brew").
Proof. vm_compute. reflexivity. Qed.

(** Two unconditional results of priority 3 at the indices 0 and 2: the one
    at index 0 wins. *)
Example scenario_tie :
  option_map rp_id
    (resolveConditionalResult
       [ result_with "first" (Some 3%Z) None;
         result_with "between" (Some 1%Z) None;
         result_with "last" (Some 3%Z) None ]
       [])
  = Some (js "first").
Proof. vm_compute. reflexivity. Qed.

(** [spread_between(min = 0, max = 6)] against the values [5, -3, 2]: the
    spread is 8, the condition is false. *)
Example scenario_spread :
  meetsCondition (Some (spread_between 0 6))
    [ (js "calm", num_of_Z 5); (js "focus", num_of_Z (-3));
      (js "tempo", num_of_Z 2) ]
  = false.
Proof. vm_compute. reflexivity. Qed.

(** [sum_min(dims = ["calm", "focus"], value = 6)] against
    [{ calm: 4, focus: 1, tempo: 9 }]: the sum is 5, the condition is
    false. *)
Example scenario_sum :
  meetsCondition (Some (sum_min ["calm"; "focus"]%string 6))
    [ (js "calm", num_of_Z 4); (js "focus", num_of_Z 1);
      (js "tempo", num_of_Z 9) ]
  = false.
Proof. vm_compute. reflexivity. Qed.

(** ** Base64 *)

Lemma list_ind3 {A : Type} (P : list A -> Prop) :
  P [] -> (forall a, P [a]) -> (forall a b, P [a; b]) ->
  (forall a b c l, P l -> P (a :: b :: c :: l)) ->
  forall l, P l.
Proof.
  intros H0 H1 H2 H3 l.
  assert (H : P l /\ (forall a, P (a :: l)) /\ (forall a b, P (a :: b :: l))).
  { induction l as [|x l [IH0 [IH1 IH2]]].
    - auto.
    - repeat split; auto. }
  apply H.
Qed.

Lemma below_64 (f : N -> bool) :
  forallb f (List.map N.of_nat (seq 0 64)) = true ->
  forall i : N, (i < 64)%N -> f i = true.
Proof.
  intros H i Hi. rewrite forallb_forall in H. apply H.
  rewrite <- (N2Nat.id i). apply in_map. apply in_seq. lia.
Qed.

Lemma b64_char_facts (i : N) :
  (i < 64)%N ->
  b64_index (b64_char i) = Some i /\
  is_ascii_whitespace (b64_char i) = false /\
  b64_char i <> 61%N /\
  to_url_char (b64_char i) <> 61%N /\
  from_url_char (to_url_char (b64_char i)) = b64_char i.
Proof.
  intros Hi.
  pose (check := fun i : N =>
    match b64_index (b64_char i) with
    | Some j => (j =? i)%N
    | None => false
    end
    && negb (is_ascii_whitespace (b64_char i))
    && negb (b64_char i =? 61)%N
    && negb (to_url_char (b64_char i) =? 61)%N
    && (from_url_char (to_url_char (b64_char i)) =? b64_char i)%N).
  assert (H : check i = true) by (apply below_64; [vm_compute; reflexivity|exact Hi]).
  unfold check in H. rewrite !andb_true_iff, !negb_true_iff in H.
  destruct H as [[[[H1 H2] H3] H4] H5].
  destruct (b64_index (b64_char i)) as [j|]; [|discriminate].
  apply N.eqb_eq in H1, H5. apply N.eqb_neq in H3, H4.
  repeat split; congruence.
Qed.

Lemma sextets_bound (bytes : list N) :
  latin1 bytes ->
  Forall (fun s => (s < 64)%N) (sextets bytes).
Proof.
  induction bytes as [| a | a b | a b c l IH] using list_ind3; intros H;
    cbn [sextets].
  - constructor.
  - inversion_clear H. repeat constructor; lia.
  - inversion_clear H as [|? ? Ha H']. inversion_clear H'.
    repeat constructor; lia.
  - inversion_clear H as [|? ? Ha H']. inversion_clear H' as [|? ? Hb H''].
    inversion_clear H'' as [|? ? Hc Hl].
    repeat (constructor; [lia|]). now apply IH.
Qed.

Lemma unsextets_sextets (bytes : list N) :
  latin1 bytes ->
  unsextets (sextets bytes) = bytes.
Proof.
  induction bytes as [| a | a b | a b c l IH] using list_ind3; intros H;
    cbn [sextets unsextets].
  - reflexivity.
  - inversion_clear H. f_equal. lia.
  - inversion_clear H as [|? ? Ha H']. inversion_clear H'.
    f_equal; [lia|]. f_equal. lia.
  - inversion_clear H as [|? ? Ha H']. inversion_clear H' as [|? ? Hb H''].
    inversion_clear H'' as [|? ? Hc Hl].
    rewrite (IH Hl). f_equal; [lia|]. f_equal; [lia|]. f_equal. lia.
Qed.

Lemma sextets_length (bytes : list N) :
  (List.length (sextets bytes) mod 4 <> 1)%nat /\
  (bytes <> [] -> sextets bytes <> []).
Proof.
  induction bytes as [| a | a b | a b c l [IH _]] using list_ind3;
    cbn [sextets]; (split; [|discriminate || congruence]).
  - cbn. lia.
  - cbn. lia.
  - cbn. lia.
  - cbn [List.length].
    replace (S (S (S (S (List.length (sextets l))))))
      with (List.length (sextets l) + 1 * 4)%nat by lia.
    now rewrite Nat.Div0.mod_add.
Qed.

Lemma pad_length_facts (n : nat) :
  (n mod 4 <> 1)%nat ->
  (pad_length n <= 2)%nat /\ ((n + pad_length n) mod 4 = 0)%nat.
Proof.
  intros H. unfold pad_length.
  rewrite (Nat.Div0.add_mod n), Nat.Div0.mod_mod.
  pose proof (Nat.mod_upper_bound n 4) as Hlt.
  destruct (n mod 4)%nat as [|[|[|[|r]]]]; cbn; lia.
Qed.

Lemma filter_not_whitespace (l : jsstring) :
  Forall (fun c => is_ascii_whitespace c = false) l ->
  filter (fun c => negb (is_ascii_whitespace c)) l = l.
Proof.
  induction 1 as [|c l Hc _ IH]; cbn [filter]; [reflexivity|].
  now rewrite Hc, IH.
Qed.

Lemma remove_padding_app (body : jsstring) (p : nat) :
  (p <= 2)%nat ->
  Forall (fun c => c <> 61%N) body ->
  remove_padding (body ++ repeat 61%N p) = body.
Proof.
  intros Hp Hbody. unfold remove_padding.
  rewrite rev_app_distr, rev_repeat.
  assert (Hrev : Forall (fun c => c <> 61%N) (rev body))
    by (apply Forall_rev; exact Hbody).
  destruct p as [|[|[|p]]]; [| | |lia]; cbn [repeat app].
  - rewrite app_nil_r.
    destruct (rev body) as [|c r] eqn:E; [reflexivity|].
    inversion_clear Hrev as [|? ? Hc _].
    apply N.eqb_neq in Hc. now rewrite Hc.
  - cbn. destruct (rev body) as [|c r] eqn:E.
    + rewrite <- (rev_involutive body), E. reflexivity.
    + inversion_clear Hrev as [|? ? Hc _].
      apply N.eqb_neq in Hc. rewrite Hc.
      rewrite <- E. apply rev_involutive.
  - cbn. apply rev_involutive.
Qed.

Lemma b64_indices_chars (groups : list N) :
  Forall (fun s => (s < 64)%N) groups ->
  b64_indices (List.map b64_char groups) = Some groups.
Proof.
  induction 1 as [|s l Hs _ IH]; cbn [List.map b64_indices]; [reflexivity|].
  destruct (b64_char_facts s Hs) as [-> _]. now rewrite IH.
Qed.

Lemma Forall_b64_chars (P : N -> Prop) (groups : list N) :
  (forall i, (i < 64)%N -> P (b64_char i)) ->
  Forall (fun s => (s < 64)%N) groups ->
  Forall P (List.map b64_char groups).
Proof.
  intros HP H. apply Forall_map. eapply Forall_impl; [|exact H].
  exact HP.
Qed.

(** [atob] inverts [btoa] on the strings [btoa] accepts. *)
Lemma atob_btoa (text : jsstring) :
  latin1 text ->
  exists encoded, btoa text = Returned encoded /\ atob encoded = Returned text.
Proof.
  unfold latin1. intros Hlatin. unfold btoa.
  assert (Hall : forallb (fun c => (c <=? 255)%N) text = true).
  { apply forallb_forall. intros c Hc. apply N.leb_le.
    rewrite Forall_forall in Hlatin. now apply Hlatin. }
  rewrite Hall. eexists. split; [reflexivity|].
  pose proof (sextets_bound text Hlatin) as Hgroups.
  destruct (sextets_length text) as [Hlen _].
  set (body := List.map b64_char (sextets text)).
  assert (Hblen : List.length body = List.length (sextets text))
    by apply length_map.
  rewrite Hblen.
  destruct (pad_length_facts _ Hlen) as [Hp Hmod].
  unfold atob.
  rewrite filter_not_whitespace.
  2:{ apply Forall_app. split.
      - apply Forall_b64_chars; [|exact Hgroups].
        intros i Hi. apply (b64_char_facts i Hi).
      - apply Forall_forall. intros c Hc. apply repeat_spec in Hc. now subst. }
  rewrite length_app, repeat_length, Hblen, Hmod. cbn [Nat.eqb].
  rewrite remove_padding_app; [|exact Hp|].
  2:{ apply Forall_b64_chars; [|exact Hgroups].
      intros i Hi. apply (b64_char_facts i Hi). }
  rewrite Hblen.
  destruct (List.length (sextets text) mod 4 =? 1)%nat eqn:E.
  { apply Nat.eqb_eq in E. contradiction. }
  unfold body. rewrite (b64_indices_chars _ Hgroups).
  now rewrite (unsextets_sextets _ Hlatin).
Qed.

(** ** The URL-safe layer *)

Lemma replace_to_url (l : jsstring) :
  replace_all 47 95 (replace_all 43 45 l) = List.map to_url_char l.
Proof. unfold replace_all. rewrite map_map. reflexivity. Qed.

Lemma replace_from_url (l : jsstring) :
  replace_all 95 47 (replace_all 45 43 l) = List.map from_url_char l.
Proof. unfold replace_all. rewrite map_map. reflexivity. Qed.

Lemma strip_trailing_padding (c : N) (l : jsstring) (p : nat) :
  Forall (fun x => x <> c) l ->
  strip_trailing c (l ++ repeat c p) = l.
Proof.
  intros H. induction H as [|x l Hx _ IH]; cbn [app].
  - induction p as [|p IHp]; cbn [repeat strip_trailing]; [reflexivity|].
    rewrite IHp. now rewrite N.eqb_refl.
  - cbn [strip_trailing]. rewrite IH.
    apply N.eqb_neq in Hx. rewrite Hx. now destruct l.
Qed.

(** [fromBase64Url] inverts [toBase64Url] on the strings [btoa] accepts, and
    a non-empty text has a non-empty encoding. *)
Lemma fromBase64Url_toBase64Url (text : jsstring) :
  latin1 text ->
  exists encoded,
    toBase64Url text = Returned encoded /\
    fromBase64Url encoded = Returned text /\
    (text <> [] -> encoded <> []).
Proof.
  intros Hlatin.
  destruct (atob_btoa text Hlatin) as [b [Hbtoa Hatob]].
  pose proof (sextets_bound text Hlatin) as Hgroups.
  destruct (sextets_length text) as [_ Hnonempty].
  set (body := List.map b64_char (sextets text)).
  assert (Hb : b = body ++ repeat 61%N (pad_length (List.length body))).
  { unfold btoa in Hbtoa.
    destruct (forallb _ text); [|discriminate]. now injection Hbtoa. }
  unfold toBase64Url. rewrite Hbtoa. cbn [bind].
  exists (List.map to_url_char body).
  assert (Hstrip : strip_trailing 61 (replace_all 47 95 (replace_all 43 45 b))
                   = List.map to_url_char body).
  { rewrite replace_to_url, Hb, map_app, map_repeat.
    change (to_url_char 61) with 61%N.
    apply strip_trailing_padding.
    apply Forall_map. unfold body. apply Forall_map.
    eapply Forall_impl; [|exact Hgroups].
    intros i Hi. apply (b64_char_facts i Hi). }
  split; [now rewrite Hstrip|]. split.
  - unfold fromBase64Url. rewrite replace_from_url, map_map.
    assert (Hback : List.map (fun c => from_url_char (to_url_char c)) body
                    = body).
    { unfold body. rewrite map_map. apply map_ext_in.
      intros i Hi. rewrite Forall_forall in Hgroups.
      apply (b64_char_facts i (Hgroups i Hi)). }
    rewrite Hback, <- Hb. exact Hatob.
  - intros Hne Hempty. apply map_eq_nil in Hempty.
    unfold body in Hempty. apply map_eq_nil in Hempty.
    now apply Hnonempty.
Qed.

(** ** The versioned codec *)

Section CodecProperties.

Variable JSON_stringify : value -> jsstring.
Variable JSON_parse : jsstring -> outcome value.

Lemma decodeShareState_unfold (raw : jsstring) :
  raw <> [] ->
  decodeShareState JSON_parse (Some raw)
  = Returned
      match parsed_state JSON_parse raw with
      | Returned parsed => if valid_state parsed then Some parsed else None
      | Thrown _ => None
      end.
Proof.
  intros Hne. unfold decodeShareState, parsed_state, valid_state.
  destruct raw as [|c raw]; [congruence|]. cbn [truthy_opt_string truthy_string negb nullish_or].
  destruct (fromBase64Url (c :: raw)) as [text|e]; cbn [bind try_catch];
    [|reflexivity].
  destruct (JSON_parse text) as [parsed|e]; cbn [bind try_catch];
    [|reflexivity].
  destruct (is_one _); cbn [negb orb andb]; [|reflexivity].
  destruct (is_string _); reflexivity.
Qed.

(** C4. [decodeShareState] never throws; it returns [null] exactly when
    its input is [null], when base64url or JSON decoding fails, when [v] is
    not [1] or when [resultId] is not a string, and the parsed payload on
    every other input; ["not-base64!!"] decodes to [null].  ([JSON.parse]
    rejects the empty text, so the empty input is a decoding failure.) *)
Theorem decodeShareState_null_cases (rawValue : option jsstring) :
  JSON_parse [] = Thrown SyntaxError ->
  (exists r, decodeShareState JSON_parse rawValue = Returned r) /\
  (decodeShareState JSON_parse rawValue = Returned None <->
   rawValue = None \/
   exists raw, rawValue = Some raw /\
     ((exists e, parsed_state JSON_parse raw = Thrown e) \/
      (exists parsed, parsed_state JSON_parse raw = Returned parsed /\
         (is_one (get_prop parsed (js "v")) = false \/
          is_string (get_prop parsed (js "resultId")) = false)))) /\
  (forall raw parsed,
      rawValue = Some raw ->
      parsed_state JSON_parse raw = Returned parsed ->
      is_one (get_prop parsed (js "v")) = true ->
      is_string (get_prop parsed (js "resultId")) = true ->
      decodeShareState JSON_parse rawValue = Returned (Some parsed)) /\
  decodeShareState JSON_parse (Some (js "not-base64!!")) = Returned None.
Proof.
  intros Hempty.
  assert (Hblank : parsed_state JSON_parse [] = Thrown SyntaxError)
    by exact Hempty.
  destruct rawValue as [raw|].
  2:{ repeat split; try reflexivity.
      - eexists. reflexivity.
      - intros _. now left.
      - intros raw parsed [=]. }
  destruct raw as [|c raw].
  { repeat split; try reflexivity.
    - eexists. reflexivity.
    - intros _. right. exists []. split; [reflexivity|]. left. eauto.
    - intros raw parsed [= <-] H. congruence. }
  assert (Hne : c :: raw <> []) by discriminate.
  rewrite (decodeShareState_unfold _ Hne). unfold valid_state.
  repeat split; try reflexivity.
  - eexists. reflexivity.
  - intros H. right. exists (c :: raw). split; [reflexivity|].
    destruct (parsed_state JSON_parse (c :: raw)) as [parsed|e]; [|eauto].
    right. exists parsed. split; [reflexivity|].
    destruct (is_one _); [|now left].
    destruct (is_string _); [discriminate H|now right].
  - intros [H | [raw' [[= <-] [[e H] | [parsed [H Hbad]]]]]];
      [discriminate H| |]; rewrite H; [reflexivity|].
    destruct Hbad as [-> | ->]; [reflexivity|].
    now rewrite andb_false_r.
  - intros raw' parsed [= <-] -> -> ->. reflexivity.
Qed.

(** The round trip of the codec over any JSON functions: the base64url
    layer returns the JSON text, and the checks of [decodeShareState]
    accept the payload. *)
Lemma codec_roundtrip (payload : SharedStateV1) :
  let text := JSON_stringify (payload_value payload) in
  ss_v payload = Fin 1 ->
  text <> [] ->
  latin1 text ->
  JSON_parse text = Returned (payload_value payload) ->
  exists encoded,
    encodeShareState JSON_stringify payload = Returned encoded /\
    decodeShareState JSON_parse (Some encoded)
    = Returned (Some (payload_value payload)).
Proof.
  intros text Hv Hne Hlatin Hparse.
  destruct (fromBase64Url_toBase64Url text Hlatin)
    as [encoded [Henc [Hdec Hnonempty]]].
  exists encoded. split; [exact Henc|].
  rewrite (decodeShareState_unfold _ (Hnonempty Hne)).
  unfold parsed_state. rewrite Hdec. cbn [bind]. rewrite Hparse.
  unfold valid_state, payload_value, get_prop. rewrite Hv. reflexivity.
Qed.

(** C3, amended. A share state with [v] equal to [1], whose JSON text is
    made of code units up to U+00FF and is read back by [JSON.parse] as the
    payload, is encoded without an exception and decoded to itself. *)
Theorem share_state_roundtrip (payload : SharedStateV1) :
  let text := JSON_stringify (payload_value payload) in
  ss_v payload = Fin 1 ->
  text <> [] ->
  latin1 text ->
  JSON_parse text = Returned (payload_value payload) ->
  exists encoded,
    encodeShareState JSON_stringify payload = Returned encoded /\
    decodeShareState JSON_parse (Some encoded)
    = Returned (Some (payload_value payload)).
Proof. exact (codec_roundtrip payload). Qed.

(** A share state whose JSON text has a code unit above U+00FF cannot be
    encoded: [btoa] throws. *)
Lemma encodeShareState_throws (payload : SharedStateV1) :
  Exists (fun c => (255 < c)%N) (JSON_stringify (payload_value payload)) ->
  encodeShareState JSON_stringify payload = Thrown InvalidCharacterError.
Proof.
  intros H. unfold encodeShareState, toBase64Url, btoa.
  destruct (forallb _ _) eqn:E; [|reflexivity].
  rewrite forallb_forall in E. apply Exists_exists in H.
  destruct H as [c [Hin Hc]]. apply E in Hin. apply N.leb_le in Hin. lia.
Qed.

End CodecProperties.

Lemma decodeShareState_null_cases_witness :
  decodeShareState parse_text (Some (js "not-base64!!")) = Returned None /\
  exists r, decodeShareState parse_text (Some (js "eyJ2IjoyfQ")) = Returned r.
Proof.
  split.
  - apply (decodeShareState_null_cases parse_text None). reflexivity.
  - apply (decodeShareState_null_cases parse_text (Some (js "eyJ2IjoyfQ"))).
    reflexivity.
Defined.

Lemma share_state_roundtrip_witness :
  exists encoded,
    encodeShareState stringify_text sample_state = Returned encoded /\
    decodeShareState parse_text (Some encoded)
    = Returned (Some (payload_value sample_state)).
Proof.
  apply (share_state_roundtrip stringify_text parse_text sample_state).
  - reflexivity.
  - discriminate.
  - apply Forall_forall. intros c Hc. apply N.leb_le.
    revert c Hc. apply forallb_forall. vm_compute. reflexivity.
  - vm_compute. reflexivity.
Defined.

(** The round trip as claimed for every payload fails.  The state whose
    result id is U+4E2D has a JSON text that [btoa] rejects, so
    [encodeShareState] throws; the state with the answer [NaN] is encoded,
    and decoded to a payload whose answer is [null]. *)
Lemma share_state_roundtrip_counterexample :
  ss_v wide_state = Fin 1 /\
  encodeShareState stringify_text wide_state = Thrown InvalidCharacterError /\
  ss_v nan_state = Fin 1 /\
  (exists encoded decoded,
      encodeShareState stringify_text nan_state = Returned encoded /\
      decodeShareState parse_text (Some encoded) = Returned (Some decoded) /\
      get_prop decoded (js "answers") = Some (VArr [VNull]) /\
      decoded <> payload_value nan_state) /\
  ~ (forall payload : SharedStateV1,
        ss_v payload = Fin 1 ->
        exists encoded,
          encodeShareState stringify_text payload = Returned encoded /\
          decodeShareState parse_text (Some encoded)
          = Returned (Some (payload_value payload))).
Proof.
  split; [reflexivity|]. split; [vm_compute; reflexivity|].
  split; [reflexivity|]. split.
  - do 2 eexists. split; [vm_compute; reflexivity|].
    split; [vm_compute; reflexivity|]. split; [reflexivity|].
    vm_compute. discriminate.
  - intros H. destruct (H wide_state eq_refl) as [encoded [Henc _]].
    vm_compute in Henc. discriminate Henc.
Qed.

(** ** The reference JSON text layer: numbers *)

Lemma take_digits_stop (rest : jsstring) (acc : N) (count : nat) :
  token_end rest -> take_digits rest acc count = (acc, count, rest).
Proof.
  destruct rest as [|c rest]; [reflexivity|].
  intros [-> | [-> | ->]]; reflexivity.
Qed.

Lemma take_digits_step (k : N) (s : jsstring) (acc : N) (count : nat) :
  (k <= 9)%N ->
  take_digits ((48 + k)%N :: s) acc count
  = take_digits s (10 * acc + k)%N (S count).
Proof.
  intros Hk. cbn [take_digits].
  assert (Hd : is_digit (48 + k) = true).
  { unfold is_digit. apply andb_true_iff. split; apply N.leb_le; lia. }
  rewrite Hd. f_equal. lia.
Qed.

Lemma take_digits_acc (u : Decimal.uint) (rest : jsstring) :
  token_end rest ->
  forall (acc : positive) (count : nat),
    take_digits (uint_text u ++ rest) (Npos acc) count
    = (Npos (Pos.of_uint_acc u acc),
       (count + List.length (uint_text u))%nat, rest).
Proof.
  intros Hend.
  assert (Hstep : forall (k : N) (u' : Decimal.uint) (acc acc' : positive)
                         (count : nat),
             (k <= 9)%N -> (10 * N.pos acc + k)%N = N.pos acc' ->
             (forall a c, take_digits (uint_text u' ++ rest) (N.pos a) c
                          = (N.pos (Pos.of_uint_acc u' a),
                             (c + List.length (uint_text u'))%nat, rest)) ->
             take_digits ((48 + k)%N :: uint_text u' ++ rest) (N.pos acc) count
             = (N.pos (Pos.of_uint_acc u' acc'),
                (count + S (List.length (uint_text u')))%nat, rest)).
  { intros k u' acc acc' count Hk Hacc IH.
    rewrite take_digits_step by exact Hk. rewrite Hacc, IH.
    f_equal. f_equal. lia. }
  induction u; intros acc count;
    cbn [uint_text app List.length Pos.of_uint_acc].
  - rewrite take_digits_stop by exact Hend. f_equal. f_equal. lia.
  - apply (Hstep 0%N); [lia|lia|exact IHu].
  - apply (Hstep 1%N); [lia|lia|exact IHu].
  - apply (Hstep 2%N); [lia|lia|exact IHu].
  - apply (Hstep 3%N); [lia|lia|exact IHu].
  - apply (Hstep 4%N); [lia|lia|exact IHu].
  - apply (Hstep 5%N); [lia|lia|exact IHu].
  - apply (Hstep 6%N); [lia|lia|exact IHu].
  - apply (Hstep 7%N); [lia|lia|exact IHu].
  - apply (Hstep 8%N); [lia|lia|exact IHu].
  - apply (Hstep 9%N); [lia|lia|exact IHu].
Qed.

Lemma take_digits_uint (u : Decimal.uint) (rest : jsstring) :
  token_end rest ->
  forall count : nat,
    take_digits (uint_text u ++ rest) 0%N count
    = (Pos.of_uint u, (count + List.length (uint_text u))%nat, rest).
Proof.
  intros Hend.
  assert (Hstep : forall (k : N) (u' : Decimal.uint) (acc' : positive)
                         (count : nat),
             (k <= 9)%N -> k = N.pos acc' ->
             take_digits ((48 + k)%N :: uint_text u' ++ rest) 0%N count
             = (N.pos (Pos.of_uint_acc u' acc'),
                (count + S (List.length (uint_text u')))%nat, rest)).
  { intros k u' acc' count Hk Hacc.
    rewrite take_digits_step by exact Hk.
    replace (10 * 0 + k)%N with (N.pos acc') by lia.
    rewrite (take_digits_acc u' rest Hend). f_equal. f_equal. lia. }
  induction u; intros count; cbn [uint_text app List.length Pos.of_uint].
  - rewrite take_digits_stop by exact Hend. f_equal. f_equal. lia.
  - change 48%N with (48 + 0)%N. rewrite take_digits_step by lia.
    change (10 * 0 + 0)%N with 0%N. rewrite IHu. f_equal. f_equal. lia.
  - apply (Hstep 1%N); [lia|reflexivity].
  - apply (Hstep 2%N); [lia|reflexivity].
  - apply (Hstep 3%N); [lia|reflexivity].
  - apply (Hstep 4%N); [lia|reflexivity].
  - apply (Hstep 5%N); [lia|reflexivity].
  - apply (Hstep 6%N); [lia|reflexivity].
  - apply (Hstep 7%N); [lia|reflexivity].
  - apply (Hstep 8%N); [lia|reflexivity].
  - apply (Hstep 9%N); [lia|reflexivity].
Qed.

Lemma nzhead_not_D0 (u v : Decimal.uint) : Decimal.nzhead u <> Decimal.D0 v.
Proof. induction u; simpl; congruence. Qed.

(** The decimal text of a natural number: one digit at least, and no
    leading zero except for zero itself. *)
Lemma uint_text_to_uint (n : N) :
  exists c l,
    uint_text (N.to_uint n) = c :: l /\
    is_digit c = true /\
    (c = 48%N -> l = []).
Proof.
  pose proof (DecimalN.Unsigned.to_of (N.to_uint n)) as Hnorm.
  rewrite DecimalN.Unsigned.of_to in Hnorm.
  destruct (N.to_uint n) as [|u|u|u|u|u|u|u|u|u|u] eqn:E;
    cbn [uint_text];
    try (eexists; eexists; split; [reflexivity|];
         split; [reflexivity|discriminate]).
  - discriminate Hnorm.
  - exists 48%N, (uint_text u). split; [reflexivity|].
    split; [reflexivity|]. intros _.
    rewrite DecimalFacts.unorm_D0 in Hnorm. unfold Decimal.unorm in Hnorm.
    destruct (Decimal.nzhead u) eqn:Hz;
      try (exfalso; symmetry in Hnorm; rewrite <- Hz in Hnorm;
           revert Hnorm; apply nzhead_not_D0).
    injection Hnorm as Hu. subst u. reflexivity.
Qed.

Lemma take_sign_digit (c d : N) (s : jsstring) :
  is_digit d = true -> is_digit c = false ->
  take_sign c (d :: s) = (false, d :: s).
Proof.
  intros Hd Hc. cbn [take_sign].
  destruct (N.eqb_spec d c) as [->|]; [congruence|reflexivity].
Qed.

Lemma take_sign_end (c : N) (rest : jsstring) :
  token_end rest ->
  c <> 44%N -> c <> 93%N -> c <> 125%N ->
  take_sign c rest = (false, rest).
Proof.
  destruct rest as [|x rest]; [reflexivity|].
  intros Hend H1 H2 H3. cbn [take_sign].
  destruct (N.eqb_spec x c) as [->|]; [|reflexivity].
  destruct Hend as [E | [E | E]]; congruence.
Qed.

Lemma parse_unsigned_nat (n : N) (rest : jsstring) :
  token_end rest ->
  parse_unsigned (uint_text (N.to_uint n) ++ rest)
  = Some (num_of_Z (Z.of_N n), rest).
Proof.
  intros Hend.
  destruct (uint_text_to_uint n) as [c [l [Htext [Hdigit Hzero]]]].
  pose proof (take_digits_uint (N.to_uint n) rest Hend 0) as Hdigits.
  change (Pos.of_uint (N.to_uint n)) with (N.of_uint (N.to_uint n)) in Hdigits.
  rewrite DecimalN.Unsigned.of_to in Hdigits.
  unfold parse_unsigned.
  rewrite Htext in *. cbn [app] in *.
  rewrite Hdigits. cbn [List.length Nat.add Nat.eqb orb].
  assert (Hlead : fst (take_sign 48 (c :: l ++ rest))
                  && negb (List.length l =? 0)%nat
                  = false).
  { cbn [take_sign]. destruct (N.eqb_spec c 48) as [E|]; [|reflexivity].
    rewrite (Hzero E). reflexivity. }
  rewrite Hlead.
  rewrite (take_sign_end 46 rest Hend) by discriminate.
  rewrite (take_sign_end 101 rest Hend) by discriminate.
  rewrite (take_sign_end 69 rest Hend) by discriminate.
  cbn [fst orb]. unfold num_of_Z, Qmult, inject_Z.
  cbn [Qpower Qnum Qden]. rewrite Z.mul_1_r. reflexivity.
Qed.

Lemma number_text_of_Z (z : Z) :
  number_text (num_of_Z z)
  = (if (z <? 0)%Z then [45%N] else []) ++ uint_text (N.to_uint (Z.abs_N z)).
Proof.
  unfold number_text, num_of_Z, integer_text. rewrite Qfloor_Z.
  now rewrite Qeq_bool_refl.
Qed.

(** [parse_number] reads back the text of an integer. *)
Lemma parse_number_text (z : Z) (rest : jsstring) :
  token_end rest ->
  parse_number (number_text (num_of_Z z) ++ rest) = Some (num_of_Z z, rest).
Proof.
  intros Hend. rewrite number_text_of_Z. unfold parse_number.
  pose proof (parse_unsigned_nat (Z.abs_N z) rest Hend) as Hnat.
  destruct (Z.ltb_spec z 0) as [Hneg|Hpos]; cbn [app].
  - cbn [take_sign N.eqb Pos.eqb]. rewrite Hnat.
    unfold num_of_Z, num_neg, Qopp, inject_Z. cbn [Qnum Qden].
    rewrite N2Z.inj_abs_N. replace (- Z.abs z)%Z with z by lia. reflexivity.
  - destruct (uint_text_to_uint (Z.abs_N z)) as [c [l [Htext [Hdigit _]]]].
    rewrite Htext in *. cbn [app] in *.
    rewrite (take_sign_digit 45 c) by (exact Hdigit || reflexivity).
    rewrite Hnat. rewrite N2Z.inj_abs_N.
    replace (Z.abs z) with z by lia. reflexivity.
Qed.

(** ** The reference JSON text layer: strings *)

Lemma hex_value_digit (i : N) : (i < 16)%N -> hex_value (hex_digit i) = Some i.
Proof.
  intros Hi.
  pose (check := fun i : N =>
    if (i <? 16)%N
    then match hex_value (hex_digit i) with
         | Some j => (j =? i)%N
         | None => false
         end
    else true).
  assert (H : check i = true)
    by (apply below_64; [vm_compute; reflexivity|lia]).
  unfold check in H. apply N.ltb_lt in Hi. rewrite Hi in H.
  destruct (hex_value (hex_digit i)) as [j|]; [|discriminate].
  apply N.eqb_eq in H. now subst.
Qed.

(** [parse_chars] reads an escaped character back. *)
Lemma parse_chars_escape (c : N) (rest chars rest' : jsstring) :
  parse_chars rest = Some (chars, rest') ->
  parse_chars (escape_char c ++ rest) = Some (c :: chars, rest').
Proof.
  intros H. unfold escape_char.
  destruct (N.eqb_spec c 34) as [->|H34]; [cbn; now rewrite H|].
  destruct (N.eqb_spec c 92) as [->|H92]; [cbn; now rewrite H|].
  destruct (N.eqb_spec c 8) as [->|H8]; [cbn; now rewrite H|].
  destruct (N.eqb_spec c 12) as [->|H12]; [cbn; now rewrite H|].
  destruct (N.eqb_spec c 10) as [->|H10]; [cbn; now rewrite H|].
  destruct (N.eqb_spec c 13) as [->|H13]; [cbn; now rewrite H|].
  destruct (N.eqb_spec c 9) as [->|H9]; [cbn; now rewrite H|].
  destruct (N.ltb_spec c 32) as [Hlt|Hge].
  - cbn [app parse_chars].
    change (92 =? 34)%N with false. change (92 =? 92)%N with true.
    change (117 =? 117)%N with true. cbv iota.
    change (hex_value 48) with (Some 0%N).
    rewrite !hex_value_digit by lia. rewrite H.
    do 2 f_equal. f_equal. lia.
  - cbn [app parse_chars].
    apply N.eqb_neq in H34, H92. rewrite H34, H92.
    apply N.ltb_ge in Hge. rewrite Hge. now rewrite H.
Qed.

(** [parse_chars] reads the escape of a code unit back. *)
Lemma parse_chars_unicode_escape (c : N) (rest chars rest' : jsstring) :
  (c < 65536)%N ->
  parse_chars rest = Some (chars, rest') ->
  parse_chars (unicode_escape c ++ rest) = Some (c :: chars, rest').
Proof.
  intros Hc H. unfold unicode_escape. cbn [app parse_chars].
  change (92 =? 34)%N with false. change (92 =? 92)%N with true.
  change (117 =? 117)%N with true. cbv iota.
  assert (H1 : (c / 4096 < 16)%N)
    by (apply N.Div0.div_lt_upper_bound; lia).
  assert (H2 : ((c / 256) mod 16 < 16)%N) by (apply N.mod_lt; lia).
  assert (H3 : ((c / 16) mod 16 < 16)%N) by (apply N.mod_lt; lia).
  assert (H4 : (c mod 16 < 16)%N) by (apply N.mod_lt; lia).
  rewrite !hex_value_digit by assumption. rewrite H.
  do 2 f_equal. f_equal. lia.
Qed.

(** [parse_chars] reads a character written as it is. *)
Lemma parse_chars_raw (c : N) (rest chars rest' : jsstring) :
  (32 <= c)%N -> c <> 34%N -> c <> 92%N ->
  parse_chars rest = Some (chars, rest') ->
  parse_chars (c :: rest) = Some (c :: chars, rest').
Proof.
  intros H32 H34 H92 H. cbn [parse_chars].
  apply N.eqb_neq in H34, H92. rewrite H34, H92.
  apply N.ltb_ge in H32. rewrite H32. now rewrite H.
Qed.

Lemma parse_chars_text (s rest : jsstring) :
  parse_chars (escape_text s ++ 34%N :: rest) = Some (s, rest).
Proof.
  assert (H : forall (n : nat) (s : jsstring),
             (List.length s <= n)%nat ->
             parse_chars (escape_text s ++ 34%N :: rest) = Some (s, rest)).
  { clear s. induction n as [|n IH]; intros [|c s] Hlen; try reflexivity;
      cbn [List.length] in Hlen; try lia.
    cbn [escape_text].
    destruct (is_high_surrogate c) eqn:Hh.
    - unfold is_high_surrogate in Hh. apply andb_true_iff in Hh.
      destruct Hh as [Hh1 Hh2]. apply N.leb_le in Hh1, Hh2.
      destruct s as [|d s'].
      + apply parse_chars_unicode_escape; [lia|reflexivity].
      + destruct (is_low_surrogate d) eqn:Hl.
        * unfold is_low_surrogate in Hl. apply andb_true_iff in Hl.
          destruct Hl as [Hl1 Hl2]. apply N.leb_le in Hl1, Hl2.
          cbn [app]. apply parse_chars_raw; try lia.
          apply parse_chars_raw; try lia.
          apply IH. cbn [List.length] in Hlen. lia.
        * rewrite <- app_assoc.
          apply parse_chars_unicode_escape; [lia|].
          apply IH. lia.
    - destruct (is_low_surrogate c) eqn:Hl.
      + unfold is_low_surrogate in Hl. apply andb_true_iff in Hl.
        destruct Hl as [Hl1 Hl2]. apply N.leb_le in Hl1, Hl2.
        rewrite <- app_assoc.
        apply parse_chars_unicode_escape; [lia|].
        apply IH. lia.
      + rewrite <- app_assoc. apply parse_chars_escape. apply IH. lia. }
  apply (H (List.length s)). lia.
Qed.

(** ** The reference JSON text layer: values *)

Lemma skip_ws_head (c : N) (s : jsstring) :
  is_json_ws c = false -> skip_ws (c :: s) = c :: s.
Proof. intros H. cbn [skip_ws]. now rewrite H. Qed.

Lemma strip_prefix_head (a b : N) (p s : jsstring) :
  a <> b -> strip_prefix (a :: p) (b :: s) = None.
Proof.
  intros H. cbn [strip_prefix]. apply N.eqb_neq in H. now rewrite H.
Qed.

(** The first character of the text of an integer: a digit or [-]. *)
Lemma number_text_head (z : Z) :
  exists c t,
    number_text (num_of_Z z) = c :: t /\ (c = 45%N \/ is_digit c = true).
Proof.
  rewrite number_text_of_Z.
  destruct (uint_text_to_uint (Z.abs_N z)) as [c [l [Htext [Hdigit _]]]].
  rewrite Htext. destruct (z <? 0)%Z; cbn [app]; eauto.
Qed.

Lemma reads_back_number (n : number) : is_integer n -> reads_back 1 (VNum n).
Proof.
  intros [z ->] fuel rest Hfuel Hend.
  destruct fuel as [|fuel]; [lia|].
  cbn [stringify_text parse_value].
  pose proof (parse_number_text z rest Hend) as Hparse.
  destruct (number_text_head z) as [c [t [Htext Hc]]].
  rewrite Htext in *. cbn [app] in *.
  assert (Hrange : c = 45%N \/ (48 <= c <= 57)%N).
  { destruct Hc as [->|Hd]; [now left|right].
    unfold is_digit in Hd. apply andb_true_iff in Hd.
    destruct Hd as [H1 H2]. apply N.leb_le in H1, H2. lia. }
  rewrite skip_ws_head.
  2:{ unfold is_json_ws. rewrite !orb_false_iff.
      repeat split; apply N.eqb_neq; lia. }
  cbv zeta.
  change (js "null") with [110; 117; 108; 108]%N.
  change (js "true") with [116; 114; 117; 101]%N.
  change (js "false") with [102; 97; 108; 115; 101]%N.
  rewrite !strip_prefix_head by lia.
  assert (H34 : (c =? 34)%N = false) by (apply N.eqb_neq; lia).
  assert (H91 : (c =? 91)%N = false) by (apply N.eqb_neq; lia).
  assert (H123 : (c =? 123)%N = false) by (apply N.eqb_neq; lia).
  rewrite H34, H91, H123, Hparse. reflexivity.
Qed.

Lemma reads_back_string (s : jsstring) : reads_back 1 (VStr s).
Proof.
  intros fuel rest Hfuel Hend.
  destruct fuel as [|fuel]; [lia|].
  cbn [stringify_text parse_value]. unfold string_text.
  cbn [app]. rewrite <- app_assoc. cbn [app].
  rewrite skip_ws_head by reflexivity. cbv zeta.
  change (js "null") with [110; 117; 108; 108]%N.
  change (js "true") with [116; 114; 117; 101]%N.
  change (js "false") with [102; 97; 108; 115; 101]%N.
  rewrite !strip_prefix_head by discriminate.
  change (34 =? 34)%N with true. cbv iota.
  now rewrite parse_chars_text.
Qed.

Lemma reads_back_more (d d' : nat) (x : value) :
  (d <= d')%nat -> reads_back d x -> reads_back d' x.
Proof. intros Hd H fuel rest Hfuel. apply H. lia. Qed.

Lemma integer_text_head (z : Z) :
  exists c t,
    integer_text z = c :: t /\ (c = 45%N \/ is_digit c = true).
Proof.
  unfold integer_text.
  destruct (uint_text_to_uint (Z.abs_N z)) as [c [l [Htext [Hdigit _]]]].
  rewrite Htext. destruct (z <? 0)%Z; cbn [app]; eauto.
Qed.

Lemma decimal_text_head (digits : jsstring) (places : nat) (c : N)
  (l : jsstring) :
  digits = c :: l -> is_digit c = true ->
  exists t, decimal_text digits places = c :: t \/
            decimal_text digits places = 48%N :: t.
Proof.
  intros -> Hc. unfold decimal_text.
  set (n := (Z.of_nat (List.length (c :: l)) - Z.of_nat places)%Z).
  destruct ((0 <? n)%Z && (n <=? 21)%Z) eqn:E1.
  - apply andb_true_iff in E1. destruct E1 as [E1 _]. apply Z.ltb_lt in E1.
    destruct (Z.to_nat n) as [|m] eqn:E; [lia|].
    cbn [firstn app]. eexists. left. reflexivity.
  - destruct ((-6 <? n)%Z && (n <=? 0)%Z).
    + eexists. right. reflexivity.
    + destruct l; cbn [app]; eexists; left; reflexivity.
Qed.

(** The first character of the text of a finite number: a digit or [-]. *)
Lemma number_text_finite_head (q : Q) :
  exists c t,
    number_text (Fin q) = c :: t /\ (c = 45%N \/ is_digit c = true).
Proof.
  cbn [number_text]. cbv zeta.
  destruct (Qeq_bool q (inject_Z (Qfloor q))); [apply integer_text_head|].
  destruct (decimal_places 400 _ _ 0) as [[places s]|];
    [|apply integer_text_head].
  destruct (Qnum q <? 0)%Z; cbn [app]; [eauto|].
  destruct (uint_text_to_uint s) as [c [l [Htext [Hdigit _]]]].
  destruct (decimal_text_head _ places c l Htext Hdigit) as [t [-> | ->]];
    eauto.
Qed.

(** The first character of the text of a value is no white space and closes
    neither an array nor an object. *)
Lemma stringify_text_head (x : value) :
  exists c t,
    stringify_text x = c :: t /\
    is_json_ws c = false /\ c <> 93%N /\ c <> 125%N.
Proof.
  destruct x as [|[|]|n|s|items|fields]; cbn [stringify_text];
    try (eexists; eexists; split; [reflexivity|];
         repeat split; discriminate).
  destruct n as [q| | |];
    try (eexists; eexists; split; [reflexivity|];
         repeat split; discriminate).
  destruct (number_text_finite_head q) as [c [t [-> Hc]]].
  exists c, t. split; [reflexivity|].
  assert (Hrange : c = 45%N \/ (48 <= c <= 57)%N).
  { destruct Hc as [->|Hd]; [now left|right].
    unfold is_digit in Hd. apply andb_true_iff in Hd.
    destruct Hd as [H1 H2]. apply N.leb_le in H1, H2. lia. }
  split; [|split; lia].
  unfold is_json_ws. rewrite !orb_false_iff.
  repeat split; apply N.eqb_neq; lia.
Qed.

Lemma parse_elements_text (d : nat) (items : list value) :
  items <> [] ->
  (forall x, In x items -> reads_back d x) ->
  forall (fuel : nat) (rest : jsstring),
    (d + List.length items <= fuel)%nat ->
    parse_elements fuel (join_text stringify_text items ++ 93%N :: rest)
    = Some (items, rest).
Proof.
  induction items as [|x items IH]; [congruence|].
  intros _ Hall fuel rest Hfuel. cbn [List.length] in Hfuel.
  destruct fuel as [|fuel]; [lia|].
  cbn [parse_elements join_text].
  assert (Hx : reads_back d x) by (apply Hall; now left).
  destruct items as [|y items].
  - rewrite app_nil_r. rewrite Hx; [|lia|cbn; tauto].
    reflexivity.
  - rewrite <- app_assoc. cbn [app].
    rewrite Hx; [|lia|cbn; tauto].
    rewrite skip_ws_head by reflexivity.
    rewrite strip_prefix_head by discriminate.
    change (strip_prefix [44%N] (44%N :: ?s)) with (Some s).
    cbv iota.
    rewrite IH; [reflexivity|discriminate| |cbn [List.length] in *; lia].
    intros z Hz. apply Hall. now right.
Qed.

Lemma string_text_app (k t : jsstring) :
  string_text k ++ t = 34%N :: escape_text k ++ 34%N :: t.
Proof. unfold string_text. cbn [app]. now rewrite <- app_assoc. Qed.

Lemma parse_members_text (d : nat) (fields : list (jsstring * value)) :
  fields <> [] ->
  (forall k x, In (k, x) fields -> reads_back d x) ->
  forall (fuel : nat) (rest : jsstring),
    (d + List.length fields <= fuel)%nat ->
    parse_members fuel
      (join_text (fun '(k, x) => string_text k ++ 58%N :: stringify_text x)
         fields ++ 125%N :: rest)
    = Some (fields, rest).
Proof.
  induction fields as [|[k x] fields IH]; [congruence|].
  intros _ Hall fuel rest Hfuel. cbn [List.length] in Hfuel.
  destruct fuel as [|fuel]; [lia|].
  cbn [parse_members join_text].
  assert (Hx : reads_back d x) by (apply (Hall k); now left).
  rewrite <- !app_assoc. rewrite string_text_app.
  rewrite skip_ws_head by reflexivity.
  change (strip_prefix [34%N] (34%N :: ?s)) with (Some s). cbv iota.
  rewrite parse_chars_text. cbn [app].
  rewrite skip_ws_head by reflexivity.
  change (strip_prefix [58%N] (58%N :: ?s)) with (Some s). cbv iota.
  destruct fields as [|[k' y] fields].
  - cbn [app]. rewrite Hx; [|lia|cbn; tauto]. reflexivity.
  - cbn [app]. rewrite Hx; [|lia|cbn; tauto].
    rewrite skip_ws_head by reflexivity.
    rewrite strip_prefix_head by discriminate.
    change (strip_prefix [44%N] (44%N :: ?s)) with (Some s).
    cbv iota.
    rewrite IH; [reflexivity|discriminate| |cbn [List.length] in *; lia].
    intros k0 z Hz. apply (Hall k0). now right.
Qed.

Lemma reads_back_array (d : nat) (items : list value) :
  (forall x, In x items -> reads_back d x) ->
  reads_back (d + List.length items + 1) (VArr items).
Proof.
  intros Hall fuel rest Hfuel Hend.
  destruct fuel as [|fuel]; [lia|].
  cbn [stringify_text parse_value app]. rewrite <- app_assoc. cbn [app].
  rewrite skip_ws_head by reflexivity. cbv zeta.
  change (js "null") with [110; 117; 108; 108]%N.
  change (js "true") with [116; 114; 117; 101]%N.
  change (js "false") with [102; 97; 108; 115; 101]%N.
  rewrite !strip_prefix_head by discriminate.
  change (91 =? 34)%N with false. change (91 =? 91)%N with true. cbv iota.
  destruct items as [|x items].
  - reflexivity.
  - destruct (stringify_text_head x) as [c [t [Htext [Hws [H93 _]]]]].
    assert (Hskip : strip_prefix [93%N]
                      (skip_ws (join_text stringify_text (x :: items)
                                ++ 93%N :: rest)) = None).
    { cbn [join_text]. rewrite Htext. cbn [app].
      rewrite skip_ws_head by exact Hws.
      apply strip_prefix_head. congruence. }
    rewrite Hskip.
    rewrite (parse_elements_text d); [reflexivity|discriminate|exact Hall|lia].
Qed.

Lemma own_key_order_app (keys keys' : list jsstring) (k : jsstring) :
  own_key_order (keys ++ k :: keys') ->
  forall k', In k' keys -> listed_before k k' = false.
Proof.
  unfold own_key_order.
  induction keys as [|k0 keys IH]; cbn [app]; intros H k' Hk';
    [contradiction|].
  apply StronglySorted_inv in H. destruct H as [Hsorted Hk0].
  destruct Hk' as [<- | Hk']; [|now apply IH].
  rewrite Forall_forall in Hk0. apply Hk0. apply in_or_app. right. now left.
Qed.

Lemma obj_set_fresh {V : Type} (k : jsstring) (v : V) (m : dict V) :
  ~ In k (Object_keys m) ->
  (forall k', In k' (Object_keys m) -> listed_before k k' = false) ->
  obj_set k v m = m ++ [(k, v)].
Proof.
  intros Hfresh Hlast. unfold obj_set.
  rewrite (proj2 (obj_has_false k m) Hfresh).
  now apply obj_insert_last.
Qed.

(** Building an object from members with distinct keys, listed in the
    order of own properties, keeps them all, in order. *)
Lemma fold_obj_set_NoDup (fields acc : list (jsstring * value)) :
  NoDup (Object_keys (acc ++ fields)) ->
  own_key_order (Object_keys (acc ++ fields)) ->
  fold_left (fun o '(k, x) => obj_set k x o) fields acc = acc ++ fields.
Proof.
  revert acc. induction fields as [|[k x] fields IH]; intros acc H Horder;
    cbn [fold_left].
  - now rewrite List.app_nil_r.
  - unfold Object_keys in H, Horder. rewrite map_app in H, Horder.
    cbn [List.map fst] in H, Horder.
    assert (Hfresh : ~ In k (Object_keys acc)).
    { apply NoDup_remove_2 in H. intros Hin. apply H.
      apply in_or_app. now left. }
    rewrite (obj_set_fresh k x acc Hfresh
               (own_key_order_app _ _ _ Horder)).
    rewrite IH; rewrite <- List.app_assoc; [reflexivity| |];
      unfold Object_keys; rewrite map_app; assumption.
Qed.

Lemma reads_back_object (d : nat) (fields : list (jsstring * value)) :
  NoDup (Object_keys fields) ->
  own_key_order (Object_keys fields) ->
  (forall k x, In (k, x) fields -> reads_back d x) ->
  reads_back (d + List.length fields + 1) (VObj fields).
Proof.
  intros Hkeys Horder Hall fuel rest Hfuel Hend.
  destruct fuel as [|fuel]; [lia|].
  cbn [stringify_text parse_value app]. rewrite <- List.app_assoc. cbn [app].
  rewrite skip_ws_head by reflexivity. cbv zeta.
  change (js "null") with [110; 117; 108; 108]%N.
  change (js "true") with [116; 114; 117; 101]%N.
  change (js "false") with [102; 97; 108; 115; 101]%N.
  rewrite !strip_prefix_head by discriminate.
  change (123 =? 34)%N with false. change (123 =? 91)%N with false.
  change (123 =? 123)%N with true. cbv iota.
  destruct fields as [|[k x] fields].
  - reflexivity.
  - assert (Hskip :
              strip_prefix [125%N]
                (skip_ws
                   (join_text
                      (fun '(k, x) => string_text k ++ 58%N :: stringify_text x)
                      ((k, x) :: fields) ++ 125%N :: rest)) = None).
    { cbn [join_text]. rewrite <- !List.app_assoc. rewrite string_text_app.
      rewrite skip_ws_head by reflexivity.
      apply strip_prefix_head. discriminate. }
    rewrite Hskip.
    rewrite (parse_members_text d); [|discriminate|exact Hall|lia].
    now rewrite (fold_obj_set_NoDup _ []).
Qed.

(** ** The reference JSON text layer: share states *)

Lemma join_text_length {A : Type} (f : A -> jsstring) (l : list A) :
  (forall x, In x l -> (1 <= List.length (f x))%nat) ->
  (List.length l <= List.length (join_text f l))%nat.
Proof.
  induction l as [|x l IH]; intros H; cbn [join_text List.length]; [lia|].
  rewrite length_app.
  assert (Hx : (1 <= List.length (f x))%nat) by (apply H; now left).
  destruct l as [|y l]; cbn [List.length] in *; [lia|].
  assert (Hl : (S (List.length l) <= List.length (join_text f (y :: l)))%nat).
  { apply IH. intros z Hz. apply H. now right. }
  lia.
Qed.

Lemma reads_back_payload (payload : SharedStateV1) :
  plain_state payload ->
  reads_back
    (List.length (ss_scores payload) + List.length (ss_answers payload) + 8)
    (payload_value payload).
Proof.
  intros [Hv [Hkeys [Horder [Hscores Hanswers]]]].
  set (d := (List.length (ss_scores payload)
             + List.length (ss_answers payload) + 3)%nat).
  apply (reads_back_more (d + 4 + 1)); [lia|].
  unfold payload_value.
  refine (reads_back_object d [_; _; _; _] _ _ _).
  - cbn. repeat constructor; cbn; intuition discriminate.
  - cbn. repeat constructor.
  - intros k x [H | [H | [H | [H | []]]]]; injection H as <- <-.
    + apply (reads_back_more 1); [lia|]. now apply reads_back_number.
    + apply (reads_back_more 1); [lia|]. apply reads_back_string.
    + apply (reads_back_more
               (1 + List.length
                      (List.map (fun '(k, n) => (k, VNum n)) (ss_scores payload))
                + 1)); [rewrite length_map; lia|].
      refine (reads_back_object 1 _ _ _ _).
      * unfold Object_keys in *. rewrite map_map.
        erewrite map_ext; [exact Hkeys|]. now intros [k n].
      * unfold Object_keys in *. rewrite map_map.
        erewrite map_ext; [exact Horder|]. now intros [k n].
      * intros k x Hin. apply in_map_iff in Hin.
        destruct Hin as [[k' n] [[= <- <-] Hin]].
        apply reads_back_number.
        rewrite Forall_forall in Hscores. exact (Hscores _ Hin).
    + apply (reads_back_more
               (1 + List.length (List.map VNum (ss_answers payload)) + 1));
        [rewrite length_map; lia|].
      refine (reads_back_array 1 _ _).
      intros x Hin. apply in_map_iff in Hin. destruct Hin as [n [<- Hin]].
      apply reads_back_number.
      rewrite Forall_forall in Hanswers. exact (Hanswers _ Hin).
Qed.

(** The reference parser reads the text of a plain share state back. *)
Lemma parse_text_payload (payload : SharedStateV1) :
  plain_state payload ->
  parse_text (stringify_text (payload_value payload))
  = Returned (payload_value payload).
Proof.
  intros Hplain. unfold parse_text.
  set (text := stringify_text (payload_value payload)).
  assert (Hlen : (List.length (ss_scores payload)
                  + List.length (ss_answers payload) + 3
                  <= List.length text)%nat).
  { unfold text, payload_value. cbn [stringify_text join_text].
    pose proof (join_text_length
                  (fun '(k, x) => string_text k ++ 58%N :: stringify_text x)
                  (List.map (fun '(k, n) => (k, VNum n)) (ss_scores payload)))
      as Hs.
    pose proof (join_text_length stringify_text
                  (List.map VNum (ss_answers payload))) as Ha.
    rewrite length_map in Hs, Ha.
    repeat first [rewrite length_app | progress cbn [List.length]].
    assert (Hs' := Hs ltac:(intros [k x] _; rewrite string_text_app;
                            cbn [List.length]; lia)).
    assert (Ha' := Ha ltac:(intros x _;
                            destruct (stringify_text_head x) as [c [t [-> _]]];
                            cbn [List.length]; lia)).
    lia. }
  pose proof (reads_back_payload payload Hplain
                (2 * List.length text + 2)%nat []) as Hread.
  fold text in Hread. rewrite List.app_nil_r in Hread.
  rewrite Hread; [reflexivity|lia|exact I].
Qed.

(** ** The text of a share state is Latin-1 when its strings are *)

Lemma uint_text_latin1 (u : Decimal.uint) : latin1 (uint_text u).
Proof.
  induction u; cbn [uint_text]; constructor; try exact IHu; lia.
Qed.

Lemma integer_text_latin1 (z : Z) : latin1 (integer_text z).
Proof.
  unfold integer_text. apply Forall_app. split; [|apply uint_text_latin1].
  destruct (z <? 0)%Z; repeat constructor. lia.
Qed.

Lemma decimal_text_latin1 (digits : jsstring) (places : nat) :
  latin1 digits -> latin1 (decimal_text digits places).
Proof.
  intros Hd. unfold decimal_text.
  set (n := (Z.of_nat (List.length digits) - Z.of_nat places)%Z).
  destruct ((0 <? n)%Z && (n <=? 21)%Z);
    [|destruct ((-6 <? n)%Z && (n <=? 0)%Z)].
  - rewrite <- (firstn_skipn (Z.to_nat n) digits) in Hd.
    apply Forall_app in Hd. destruct Hd as [Hfirst Hskip].
    apply Forall_app. split; [exact Hfirst|].
    apply Forall_cons; [lia|exact Hskip].
  - apply Forall_cons; [lia|]. apply Forall_cons; [lia|].
    apply Forall_app. split; [|exact Hd].
    apply Forall_forall. intros c Hc. apply repeat_spec in Hc. subst c. lia.
  - apply Forall_app. split.
    + destruct Hd as [|d rest Hd Hrest]; [constructor|].
      destruct rest; [now repeat constructor|].
      apply Forall_cons; [exact Hd|]. apply Forall_cons; [lia|exact Hrest].
    + apply Forall_cons; [lia|]. apply Forall_cons.
      * destruct (n - 1 <? 0)%Z; lia.
      * apply integer_text_latin1.
Qed.

Lemma number_text_latin1 (n : number) : latin1 (number_text n).
Proof.
  destruct n as [q| | |]; cbn [number_text];
    try (change (js "null") with [110; 117; 108; 108]%N;
         repeat constructor; lia).
  cbv zeta.
  destruct (Qeq_bool q (inject_Z (Qfloor q))); [apply integer_text_latin1|].
  destruct (decimal_places 400 _ _ 0) as [[places s]|];
    [|apply integer_text_latin1].
  apply Forall_app. split.
  - destruct (Qnum q <? 0)%Z; repeat constructor. lia.
  - apply decimal_text_latin1, uint_text_latin1.
Qed.

Lemma escape_char_latin1 (c : N) : (c <= 255)%N -> latin1 (escape_char c).
Proof.
  intros Hc. unfold escape_char, hex_digit.
  repeat match goal with
  | |- context [if ?b then _ else _] => destruct b
  end; repeat constructor; lia.
Qed.

Lemma string_text_latin1 (s : jsstring) : latin1 s -> latin1 (string_text s).
Proof.
  intros Hs. unfold string_text. constructor; [lia|].
  apply Forall_app. split; [|repeat constructor; lia].
  induction Hs as [|c s Hc _ IH]; cbn [escape_text]; [constructor|].
  assert (Hh : is_high_surrogate c = false).
  { unfold is_high_surrogate. apply andb_false_iff. left.
    apply N.leb_gt. lia. }
  assert (Hl : is_low_surrogate c = false).
  { unfold is_low_surrogate. apply andb_false_iff. left.
    apply N.leb_gt. lia. }
  rewrite Hh, Hl.
  apply Forall_app. split; [now apply escape_char_latin1|exact IH].
Qed.

Lemma join_text_latin1 {A : Type} (f : A -> jsstring) (l : list A) :
  (forall x, In x l -> latin1 (f x)) -> latin1 (join_text f l).
Proof.
  induction l as [|x l IH]; intros H; cbn [join_text]; [constructor|].
  apply Forall_app. split; [apply H; now left|].
  destruct l as [|y l]; [constructor|].
  constructor; [lia|]. apply IH. intros z Hz. apply H. now right.
Qed.

Lemma member_latin1 (k : jsstring) (x : value) :
  latin1 k -> latin1 (stringify_text x) ->
  latin1 (string_text k ++ 58%N :: stringify_text x).
Proof.
  intros Hk Hx. apply Forall_app. split; [now apply string_text_latin1|].
  constructor; [lia|exact Hx].
Qed.

Lemma stringify_text_payload_latin1 (payload : SharedStateV1) :
  latin1 (ss_resultId payload) ->
  Forall latin1 (Object_keys (ss_scores payload)) ->
  latin1 (stringify_text (payload_value payload)).
Proof.
  intros Hid Hkeys. unfold payload_value. cbn [stringify_text].
  constructor; [lia|]. apply Forall_app. split; [|repeat constructor; lia].
  apply join_text_latin1.
  intros [k x] [H | [H | [H | [H | []]]]]; injection H as <- <-;
    (apply member_latin1; [cbn; repeat constructor; lia|]);
    cbn [stringify_text].
  - apply number_text_latin1.
  - now apply string_text_latin1.
  - constructor; [lia|]. apply Forall_app. split; [|repeat constructor; lia].
    apply join_text_latin1. intros [k x] Hin.
    apply in_map_iff in Hin. destruct Hin as [[k' n] [[= <- <-] Hin]].
    apply member_latin1; [|apply number_text_latin1].
    rewrite Forall_forall in Hkeys.
    apply Hkeys. unfold Object_keys. apply in_map_iff.
    now exists (k', n).
  - constructor; [lia|]. apply Forall_app. split; [|repeat constructor; lia].
    apply join_text_latin1. intros x Hin.
    apply in_map_iff in Hin. destruct Hin as [n [<- Hin]].
    apply number_text_latin1.
Qed.

(** X27. With the reference JSON text layer in the place of the platform's
    [JSON], the round trip needs no assumption on the platform: every share
    state with [v] equal to [1], integer scores and answers, distinct score
    keys (listed as an object lists its own properties, the array indices
    first, which [normalizeScoresForDimensions_order] shows of the scores
    of every link the quiz writes) and strings without a code unit above
    U+00FF is encoded without an exception and decoded to itself. *)
Lemma share_state_roundtrip_reference (payload : SharedStateV1) :
  ss_v payload = Fin 1 ->
  NoDup (Object_keys (ss_scores payload)) ->
  own_key_order (Object_keys (ss_scores payload)) ->
  Forall (fun entry => is_integer (snd entry)) (ss_scores payload) ->
  Forall is_integer (ss_answers payload) ->
  latin1 (ss_resultId payload) ->
  Forall latin1 (Object_keys (ss_scores payload)) ->
  exists encoded,
    encodeShareState stringify_text payload = Returned encoded /\
    decodeShareState parse_text (Some encoded)
    = Returned (Some (payload_value payload)).
Proof.
  intros Hv Hnodup Horder Hscores Hanswers Hid Hkeys.
  apply codec_roundtrip.
  - exact Hv.
  - discriminate.
  - now apply stringify_text_payload_latin1.
  - apply parse_text_payload. repeat split; try assumption.
    rewrite Hv. now exists 1%Z.
Qed.

(** * Further properties of the engine and the codec *)

(** ** Result resolution, continued *)

Lemma num_lt_not_le (a b : number) :
  num_le a b = true -> num_lt b a = false.
Proof.
  destruct a as [x| | |], b as [y| | |]; simpl; try congruence.
  unfold Qlt_bool. intros ->. reflexivity.
Qed.

Lemma existsb_false_forall {A : Type} (f : A -> bool) (l : list A) :
  existsb f l = false -> forall x, In x l -> f x = false.
Proof.
  intros H x Hx. destruct (f x) eqn:E; [|reflexivity].
  assert (existsb f l = true) by (apply existsb_exists; eauto). congruence.
Qed.

Lemma resolve_some (results : list ResultProfile) (scoreMap : ScoreMap)
  (b : ResultProfile) :
  resolveConditionalResult results scoreMap = Some b ->
  In b results /\ resultMatchesConditions b scoreMap = true /\
  forall c, In c results -> resultMatchesConditions c scoreMap = true ->
            num_le (priority_of c) (priority_of b) = true.
Proof.
  intros Hb.
  destruct (existsb (fun r => resultMatchesConditions r scoreMap) results)
    eqn:E.
  - apply existsb_exists in E. destruct E as [r [Hin Hr]].
    destruct (resolve_max_priority results scoreMap r Hin Hr)
      as [b' [Hb' H]].
    assert (b' = b) by congruence. subst b'. exact H.
  - pose proof (existsb_false_forall _ _ E) as Hnone.
    rewrite (resolve_none results scoreMap Hnone) in Hb. discriminate Hb.
Qed.

(** X1. [resolveConditionalResult] returns [null] exactly when no result
    of [results] is eligible for the score vector; a result it returns is an
    eligible member of [results] whose priority (a missing or non-finite
    priority counts as [0]) no eligible result exceeds. *)
Theorem resolve_returns_best_eligible (results : list ResultProfile)
  (scoreMap : ScoreMap) :
  (resolveConditionalResult results scoreMap = None <->
   forall r, In r results -> resultMatchesConditions r scoreMap = false) /\
  (forall b, resolveConditionalResult results scoreMap = Some b ->
     In b results /\ resultMatchesConditions b scoreMap = true /\
     forall c, In c results -> resultMatchesConditions c scoreMap = true ->
               num_le (priority_of c) (priority_of b) = true).
Proof.
  split.
  - split.
    + intros H r Hin.
      destruct (resultMatchesConditions r scoreMap) eqn:E; [|reflexivity].
      destruct (resolve_max_priority results scoreMap r Hin E) as [b [Hb _]].
      congruence.
    + apply resolve_none.
  - apply resolve_some.
Qed.

Lemma forEach_candidates_app (results l1 l2 : list ResultProfile) (index : Z)
  (state : option ResultProfile * number) :
  forEach_candidates results (l1 ++ l2) index state
  = forEach_candidates results l2 (index + Z.of_nat (List.length l1))%Z
      (forEach_candidates results l1 index state).
Proof.
  revert index state. induction l1 as [|r l1 IH]; intros index state.
  - cbn [app forEach_candidates List.length]. f_equal. lia.
  - cbn [app forEach_candidates List.length]. rewrite IH. f_equal. lia.
Qed.

Lemma indexOf_from_bound (pre post : list ResultProfile) (b : ResultProfile)
  (i : Z) :
  (indexOf_from (pre ++ b :: post) b i <= i + Z.of_nat (List.length pre))%Z.
Proof.
  revert i. induction pre as [|r pre IH]; intros i; cbn [app indexOf_from].
  - destruct (ResultProfile_eq_dec b b); [simpl; lia|congruence].
  - destruct (ResultProfile_eq_dec r b).
    + cbn [List.length]. lia.
    + specialize (IH (i + 1)%Z). cbn [List.length]. lia.
Qed.

(** Before the winner: the best priority stays below the winner's. *)
Lemma forEach_below (results : list ResultProfile) (pb : number) :
  forall (l : list ResultProfile) (index : Z) (best : option ResultProfile)
         (bp : number),
    (forall c, In c l -> num_lt (priority_of c) pb = true) ->
    num_lt bp pb = true ->
    num_lt (snd (forEach_candidates results l index (best, bp))) pb = true.
Proof.
  induction l as [|c l IH]; intros index best bp Hl Hbp;
    cbn [forEach_candidates].
  - exact Hbp.
  - assert (Hc : num_lt (priority_of c) pb = true) by (apply Hl; now left).
    assert (Hstep : exists best', resolve_step results (best, bp) c index
                                  = (best', priority_of c) \/
                                  resolve_step results (best, bp) c index
                                  = (best', bp)).
    { unfold resolve_step. fold (priority_of c).
      destruct (num_gt (priority_of c) bp); [eauto|].
      destruct best as [b0|].
      - destruct (num_eq (priority_of c) bp); [|eauto].
        destruct (index <? indexOf results b0)%Z; eauto.
      - destruct (num_eq (priority_of c) bp); eauto. }
    destruct Hstep as [best' [-> | ->]];
      apply IH; auto; intros c' Hc'; apply Hl; now right.
Qed.

(** After the winner: a candidate of no higher priority, met at an index
    that is not below the winner's index in [results], changes nothing. *)
Lemma forEach_keeps (results : list ResultProfile) (b : ResultProfile) :
  forall (l : list ResultProfile) (index : Z),
    (forall c, In c l -> num_le (priority_of c) (priority_of b) = true) ->
    (indexOf results b <= index)%Z ->
    forEach_candidates results l index (Some b, priority_of b)
    = (Some b, priority_of b).
Proof.
  induction l as [|c l IH]; intros index Hl Hindex; cbn [forEach_candidates].
  - reflexivity.
  - assert (Hc : num_le (priority_of c) (priority_of b) = true)
      by (apply Hl; now left).
    assert (Hstep : resolve_step results (Some b, priority_of b) c index
                    = (Some b, priority_of b)).
    { unfold resolve_step. fold (priority_of c).
      unfold num_gt. rewrite (num_lt_not_le _ _ Hc).
      destruct (num_eq (priority_of c) (priority_of b)); [|reflexivity].
      destruct (Z.ltb_spec index (indexOf results b)); [lia|reflexivity]. }
    rewrite Hstep. apply IH; [|lia]. intros c' Hc'. apply Hl. now right.
Qed.

Lemma filter_length_le {A : Type} (f : A -> bool) (l : list A) :
  (List.length (filter f l) <= List.length l)%nat.
Proof.
  induction l as [|x l IH]; simpl; [lia|]. destruct (f x); simpl; lia.
Qed.

(** X2. Ties go to the earliest result as long as at most one ineligible
    result is defined before it: when [b] is eligible, every eligible result
    before it has a lower priority, no eligible result after it has a higher
    one, and at most one result before it is ineligible,
    [resolveConditionalResult] returns [b]. *)
Theorem resolve_tie_earliest (pre post : list ResultProfile)
  (b : ResultProfile) (scoreMap : ScoreMap) :
  let eligible := fun r => resultMatchesConditions r scoreMap in
  eligible b = true ->
  (List.length pre <= S (List.length (filter eligible pre)))%nat ->
  (forall c, In c pre -> eligible c = true ->
             num_lt (priority_of c) (priority_of b) = true) ->
  (forall c, In c post -> eligible c = true ->
             num_le (priority_of c) (priority_of b) = true) ->
  resolveConditionalResult (pre ++ b :: post) scoreMap = Some b.
Proof.
  intros eligible Hb Hcount Hpre Hpost.
  unfold resolveConditionalResult. fold eligible.
  rewrite filter_app. cbn [filter]. rewrite Hb.
  set (results := pre ++ b :: post).
  destruct (filter eligible pre ++ b :: filter eligible post) eqn:E.
  { destruct (filter eligible pre); discriminate E. }
  rewrite <- E. clear E.
  rewrite forEach_candidates_app. cbn [forEach_candidates].
  pose proof (forEach_below results (priority_of b) (filter eligible pre) 0%Z
                None NegInf) as Hbelow.
  destruct (forEach_candidates results (filter eligible pre) 0%Z (None, NegInf))
    as [best bp].
  cbn [snd] in Hbelow.
  assert (Hbp : num_lt bp (priority_of b) = true).
  { apply Hbelow.
    - intros c Hc. apply filter_In in Hc. now apply Hpre.
    - destruct (priority_of_finite b) as [q ->]. reflexivity. }
  assert (Hstep : resolve_step results (best, bp) b
                    (0 + Z.of_nat (List.length (filter eligible pre)))%Z
                  = (Some b, priority_of b)).
  { unfold resolve_step. fold (priority_of b). unfold num_gt. now rewrite Hbp. }
  rewrite Hstep. rewrite forEach_keeps; [reflexivity| |].
  - intros c Hc. apply filter_In in Hc. now apply Hpost.
  - pose proof (indexOf_from_bound pre post b 0%Z) as Hidx.
    unfold indexOf. fold results in Hidx. lia.
Qed.

Lemma resolve_tie_earliest_witness :
  resolveConditionalResult
    [ result_with "unreached_a" (Some 9%Z) (Some [calm_at_least 100]);
      earlier; later ]
    sample_scores
  = Some earlier.
Proof.
  apply (resolve_tie_earliest
           [result_with "unreached_a" (Some 9%Z) (Some [calm_at_least 100])]
           [later] earlier sample_scores).
  - reflexivity.
  - cbn. lia.
  - intros c [<- | []] Hc. discriminate Hc.
  - intros c [<- | []] _. reflexivity.
Defined.

(** ** The outcome of [computeResult] *)

(** X3. Whenever some result is eligible, [computeResult] returns an
    eligible result of [results] of the highest priority, with its own
    summary and with its own [extra] (the empty string when it has none):
    the dominant-dimension fallback and the placeholder are not used. *)
Theorem computeResult_prefers_eligible (results : list ResultProfile)
  (scoreMap : ScoreMap) (r : ResultProfile) :
  In r results -> resultMatchesConditions r scoreMap = true ->
  exists b,
    In b results /\ resultMatchesConditions b scoreMap = true /\
    (forall c, In c results -> resultMatchesConditions c scoreMap = true ->
               num_le (priority_of c) (priority_of b) = true) /\
    computeResult results scoreMap
    = with_summary_extra b (rp_summary b) (string_or (rp_extra b) (js "")).
Proof.
  intros Hin Hr.
  destruct (resolve_max_priority results scoreMap r Hin Hr)
    as [b [Hb [Hbin [Hbm Hmax]]]].
  exists b. repeat split; auto.
  unfold computeResult. rewrite Hb. cbv beta iota zeta.
  now rewrite string_or_empty.
Qed.

Lemma computeResult_prefers_eligible_witness :
  rp_id (computeResult
           [ result_with "brew" (Some 5%Z) (Some [calm_at_least 100]);
             result_with "plain" (Some 1%Z) None;
             result_with "potion_top_calm" None None ]
           sample_scores)
  = js "plain".
Proof.
  destruct (computeResult_prefers_eligible
              [ result_with "brew" (Some 5%Z) (Some [calm_at_least 100]);
                result_with "plain" (Some 1%Z) None;
                result_with "potion_top_calm" None None ]
              sample_scores (result_with "plain" (Some 1%Z) None))
    as [b [Hin [Hb [Hmax ->]]]].
  - right. now left.
  - reflexivity.
  - cbn [rp_id with_summary_extra].
    destruct Hin as [<- | [<- | [<- | []]]].
    + discriminate Hb.
    + reflexivity.
    + specialize (Hmax (result_with "plain" (Some 1%Z) None)
                    (or_intror (or_introl eq_refl)) eq_refl).
      discriminate Hmax.
Defined.

(** X4. The annotation [extra] of an outcome of [computeResult] is either
    that of an eligible result (the empty string when it has none), or
    ["Soft signal"], on the default result and only for the empty score
    vector, or ["Dominant: "] followed by the dominant dimension.  The
    labels ["High signal"] and ["Moderate signal"] are computed but never
    attached: the label is used only for a vector without entries, whose
    total is [0]. *)
Theorem computeResult_extra_labels (results : list ResultProfile)
  (scoreMap : ScoreMap) :
  let outcome := computeResult results scoreMap in
  (exists b, In b results /\ resultMatchesConditions b scoreMap = true /\
             rp_extra outcome = Some (string_or (rp_extra b) (js ""))) \/
  (scoreMap = [] /\
   outcome = with_extra (defaultResult_of results) (js "Soft signal")) \/
  (exists top rest tail,
      dominant_of scoreMap = top :: rest /\
      rp_extra outcome = Some (js "Dominant: " ++ top ++ tail)).
Proof.
  intros outcome. subst outcome.
  destruct (resolveConditionalResult results scoreMap) as [b|] eqn:Hres.
  - left. exists b.
    destruct (resolve_some results scoreMap b Hres) as [Hin [Hb _]].
    repeat split; auto. unfold computeResult. now rewrite Hres.
  - right. unfold computeResult. rewrite Hres.
    destruct scoreMap as [|e scoreMap].
    + left. split; reflexivity.
    + right.
      destruct (dominant_of_nonempty (e :: scoreMap)) as [top [rest Hdom]];
        [discriminate|].
      rewrite Hdom. exists top, rest. eexists. split; [reflexivity|].
      cbv beta iota zeta. cbn [rp_extra with_summary_extra]. reflexivity.
Qed.

(** ** Condition evaluation, continued *)

(** X5. The two difference conditions fail closed: a [diff_greater] or
    [diff_abs_lte] condition whose [a] or [b] is missing or empty holds for
    no score vector (unlike a condition of an unknown type, which holds for
    all). *)
Theorem diff_conditions_fail_closed (cond : ResultCondition)
  (scoreMap : ScoreMap) :
  cond_type cond = Some (js "diff_greater") \/
  cond_type cond = Some (js "diff_abs_lte") ->
  truthy_opt_string (cond_a cond) = false \/
  truthy_opt_string (cond_b cond) = false ->
  meetsCondition (Some cond) scoreMap = false.
Proof.
  intros [Htype | Htype] Hab; enter_typed Htype;
    destruct Hab as [-> | ->]; cbn [negb orb];
    rewrite ?Bool.orb_true_r; reflexivity.
Qed.

Lemma diff_conditions_fail_closed_witness :
  meetsCondition (Some (diff_abs_lte (Some "calm"%string) None 100)) sample_scores
  = false /\
  meetsCondition (Some (diff_abs_lte (Some "calm"%string) (Some ""%string) 100)) sample_scores
  = false.
Proof.
  split.
  - apply (diff_conditions_fail_closed
             (diff_abs_lte (Some "calm"%string) None 100) sample_scores).
    + now right.
    + now right.
  - apply (diff_conditions_fail_closed
             (diff_abs_lte (Some "calm"%string) (Some ""%string) 100) sample_scores).
    + now right.
    + now right.
Defined.

Lemma abs_difference_sym (x y v : number) :
  num_le (Math_abs (num_sub x y)) v = num_le (Math_abs (num_sub y x)) v.
Proof.
  destruct x as [p| | |], y as [q| | |]; try reflexivity.
  destruct v as [r| | |]; try reflexivity.
  cbn [num_sub num_neg num_add Math_abs num_le].
  apply Bool.eq_iff_eq_true. rewrite !Qle_bool_iff.
  assert (E : Qeq (Qabs (Qplus p (Qopp q))) (Qabs (Qplus q (Qopp p)))).
  { rewrite <- (Qabs_opp (Qplus q (Qopp p))). apply Qabs_wd. ring. }
  now rewrite E.
Qed.

(** X6. [diff_abs_lte] is symmetric: exchanging [a] and [b] does not
    change the outcome. *)
Theorem diff_abs_lte_symmetric (cond : ResultCondition) (scoreMap : ScoreMap) :
  cond_type cond = Some (js "diff_abs_lte") ->
  meetsCondition (Some (swap_ab cond)) scoreMap
  = meetsCondition (Some cond) scoreMap.
Proof.
  intros Htype.
  assert (Htype' : cond_type (swap_ab cond) = Some (js "diff_abs_lte"))
    by exact Htype.
  enter_typed Htype'. enter_typed Htype. cbn [swap_ab cond_a cond_b cond_value].
  rewrite (Bool.orb_comm (negb (truthy_opt_string (cond_b cond)))).
  destruct (negb (truthy_opt_string (cond_a cond))
            || negb (truthy_opt_string (cond_b cond))); [reflexivity|].
  apply abs_difference_sym.
Qed.

Lemma diff_abs_lte_symmetric_witness :
  meetsCondition (Some (diff_abs_lte (Some "tempo"%string) (Some "calm"%string) 23))
    sample_scores = true.
Proof.
  change (diff_abs_lte (Some "tempo"%string) (Some "calm"%string) 23)
    with (swap_ab (diff_abs_lte (Some "calm"%string) (Some "tempo"%string) 23)).
  rewrite (diff_abs_lte_symmetric
             (diff_abs_lte (Some "calm"%string) (Some "tempo"%string) 23) sample_scores
             eq_refl).
  reflexivity.
Defined.

Lemma first_rank_is_one (rank : option number) :
  first_rank rank ->
  Math_max (Fin 1) (number_or (Some (Number_of rank)) (Fin 1)) = Fin 1.
Proof.
  destruct rank as [n|]; [|reflexivity].
  cbn [first_rank Number_of number_or].
  intros [-> | Hle]; [reflexivity|].
  destruct (truthy_number n); [|reflexivity].
  destruct n as [q| | |]; try discriminate Hle; [|reflexivity].
  unfold Math_max. now rewrite (num_lt_not_le _ _ Hle).
Qed.

(** X7. [rank_is] reads a [rank] that is absent, [NaN], zero, negative or
    otherwise at most [1] as the first rank: the condition is then the
    [top_is] condition on the same dimension. *)
Theorem rank_is_defaults_to_top (cond : ResultCondition) (scoreMap : ScoreMap) :
  cond_type cond = Some (js "rank_is") ->
  first_rank (cond_rank cond) ->
  meetsCondition (Some cond) scoreMap
  = meetsCondition (Some (with_type "top_is" cond)) scoreMap.
Proof.
  intros Htype Hrank.
  assert (Htype' : cond_type (with_type "top_is" cond) = Some (js "top_is"))
    by reflexivity.
  enter_typed Htype. enter_typed Htype'.
  rewrite (first_rank_is_one _ Hrank).
  reflexivity.
Qed.

Lemma rank_is_defaults_to_top_witness :
  meetsCondition (Some (rank_is "calm"%string (Some (num_of_Z (-2))))) sample_scores
  = true /\
  meetsCondition (Some (rank_is "calm"%string (Some (Fin 0)))) sample_scores = true /\
  meetsCondition (Some (rank_is "calm"%string (Some NaN))) sample_scores = true.
Proof.
  split; [|split].
  - rewrite (rank_is_defaults_to_top
               (rank_is "calm"%string (Some (num_of_Z (-2)))) sample_scores eq_refl).
    + reflexivity.
    + right. reflexivity.
  - rewrite (rank_is_defaults_to_top
               (rank_is "calm"%string (Some (Fin 0))) sample_scores eq_refl).
    + reflexivity.
    + right. reflexivity.
  - rewrite (rank_is_defaults_to_top
               (rank_is "calm"%string (Some NaN)) sample_scores eq_refl).
    + reflexivity.
    + left. reflexivity.
Defined.

Lemma num_le_PosInf (v l : number) :
  num_ge v l && num_le v PosInf = num_ge v l.
Proof.
  destruct v, l; cbn [num_le num_ge]; rewrite ?Bool.andb_true_r; reflexivity.
Qed.

Lemma num_ge_NegInf (v h : number) :
  num_ge v NegInf && num_le v h = num_le v h.
Proof. destruct v, h; reflexivity. Qed.

(** X8. The legacy dialect agrees with the typed one on a named
    dimension: [{ dim, value }] and [{ dim, op: "gte", value }] are
    [{ type: "min", dim, value }]; [{ dim, op: "lte", value }] is
    [{ type: "max_le", dim, value }]; an [op] other than ["gt"], ["lt"],
    ["lte"] and ["eq"] is read as ["gte"]; and the range form
    [{ dim, min, max }] is the conjunction of [min] at [min] and [max_le] at
    [max], a missing bound being no constraint. *)
Theorem legacy_dialect_agrees (dim : jsstring) (scoreMap : ScoreMap) :
  dim <> [] ->
  let holds := fun cond => meetsCondition (Some cond) scoreMap in
  (forall value,
      holds (legacy_op dim None value) = holds (typed "min" dim value) /\
      holds (legacy_op dim (Some (js "gte")) value)
      = holds (typed "min" dim value) /\
      holds (legacy_op dim (Some (js "lte")) value)
      = holds (typed "max_le" dim value)) /\
  (forall op value,
      ~ In op (List.map js ["gt"; "lt"; "lte"; "eq"]%string) ->
      holds (legacy_op dim (Some op) value) = holds (typed "min" dim value)) /\
  (forall lo hi,
      holds (legacy_range dim (Some lo) (Some hi))
      = holds (typed "min" dim (Some lo)) && holds (typed "max_le" dim (Some hi))
      /\ holds (legacy_range dim (Some lo) None)
         = holds (typed "min" dim (Some lo))
      /\ holds (legacy_range dim None (Some hi))
         = holds (typed "max_le" dim (Some hi))).
Proof.
  intros Hdim holds. subst holds. cbv beta.
  assert (Htruthy : truthy_string dim = true)
    by (destruct dim; [congruence|reflexivity]).
  assert (Hor : string_or (Some dim) (js "calm") = dim).
  { unfold string_or. now rewrite Htruthy. }
  assert (Hmin : forall value,
             meetsCondition (Some (typed "min" dim value)) scoreMap
             = num_ge (nullish_or (obj_get dim scoreMap) (Fin 0))
                 (nullish_or value (Fin 0))).
  { intros value. unfold meetsCondition.
    cbn [typed cond_type cond_dim cond_value truthy_opt_string].
    rewrite Hor, Htruthy. reflexivity. }
  assert (Hmax : forall value,
             meetsCondition (Some (typed "max_le" dim value)) scoreMap
             = num_le (nullish_or (obj_get dim scoreMap) (Fin 0))
                 (nullish_or value (Fin 0))).
  { intros value. unfold meetsCondition.
    cbn [typed cond_type cond_dim cond_value truthy_opt_string].
    rewrite Hor, Htruthy. reflexivity. }
  assert (Hop : forall op value,
             meetsCondition (Some (legacy_op dim op value)) scoreMap
             = let v := nullish_or (obj_get dim scoreMap) (Fin 0) in
               let target := nullish_or value (Fin 0) in
               let op := string_or op (js "gte") in
               if jsstring_eqb op (js "gt") then num_gt v target
               else if jsstring_eqb op (js "lt") then num_lt v target
               else if jsstring_eqb op (js "lte") then num_le v target
               else if jsstring_eqb op (js "eq") then num_eq v target
               else num_ge v target).
  { intros op value. unfold meetsCondition.
    cbn [legacy_op cond_type cond_dim cond_value cond_op cond_min cond_max
         truthy_opt_string nullish_or].
    rewrite Htruthy. reflexivity. }
  assert (Hrange : forall lo hi,
             lo <> None \/ hi <> None ->
             meetsCondition (Some (legacy_range dim lo hi)) scoreMap
             = num_ge (nullish_or (obj_get dim scoreMap) (Fin 0))
                 (nullish_or lo NegInf)
               && num_le (nullish_or (obj_get dim scoreMap) (Fin 0))
                    (nullish_or hi PosInf)).
  { intros lo hi Hsome. unfold meetsCondition.
    cbn [legacy_range cond_type cond_dim cond_min cond_max truthy_opt_string
         nullish_or].
    rewrite Htruthy. cbn [negb andb].
    destruct lo, hi; try reflexivity. destruct Hsome; congruence. }
  split; [|split].
  - intros value. rewrite !Hop, Hmin, Hmax. repeat split.
  - intros op value Hnot. rewrite Hop, Hmin. cbv zeta.
    set (op' := string_or (Some op) (js "gte")).
    assert (Hop' : op' = op \/ op' = js "gte").
    { unfold op', string_or. destruct (truthy_string op); auto. }
    assert (Hnot' : ~ In op' (List.map js ["gt"; "lt"; "lte"; "eq"]%string)).
    { destruct Hop' as [-> | ->]; [exact Hnot|].
      cbn. intros [H | [H | [H | [H | []]]]]; discriminate H. }
    repeat match goal with
    | |- context [jsstring_eqb op' ?l] =>
        destruct (jsstring_eqb op' l) eqn:?E;
        [ exfalso; apply Hnot'; apply jsstring_eqb_eq in E; rewrite E;
          cbn; tauto
        | clear E ]
    end.
    reflexivity.
  - intros lo hi. rewrite !Hrange, !Hmin, !Hmax by (auto; left; discriminate).
    cbn [nullish_or]. split; [reflexivity|]. split.
    + apply num_le_PosInf.
    + rewrite Hrange by (right; discriminate). apply num_ge_NegInf.
Qed.

Lemma legacy_dialect_agrees_witness :
  meetsCondition
    (Some (legacy_op (js "calm") (Some (js "at_least")) (Some (num_of_Z 19))))
    sample_scores = true.
Proof.
  rewrite (proj1 (proj2 (legacy_dialect_agrees (js "calm") sample_scores
                           ltac:(discriminate)))
             (js "at_least") (Some (num_of_Z 19))).
  - reflexivity.
  - cbn. intros [H | [H | [H | [H | []]]]]; discriminate H.
Defined.

(** *** The spread of a vector *)

Lemma num_le_trans (a b c : number) :
  num_le a b = true -> num_le b c = true -> num_le a c = true.
Proof.
  destruct a as [x| | |], b as [y| | |], c as [z| | |]; simpl;
    try congruence.
  rewrite !Qle_bool_iff. apply Qle_trans.
Qed.

Lemma num_le_refl_finite (a : number) :
  Number_isFinite a = true -> num_le a a = true.
Proof.
  destruct a; try discriminate. intros _. simpl. apply Qle_bool_iff.
  apply Qle_refl.
Qed.

Lemma num_lt_false_le (a b : number) :
  Number_isFinite a = true -> Number_isFinite b = true ->
  num_lt a b = false -> num_le b a = true.
Proof.
  destruct a, b; try discriminate. intros _ _. simpl.
  unfold Qlt_bool. now destruct (Qle_bool q0 q).
Qed.

Lemma fold_Math_max_finite (l : list number) (a : number) :
  Number_isFinite a = true ->
  (forall v, In v l -> Number_isFinite v = true) ->
  let r := fold_left Math_max l a in
  Number_isFinite r = true /\ (r = a \/ In r l) /\ num_le a r = true /\
  forall v, In v l -> num_le v r = true.
Proof.
  revert a. induction l as [|x l IH]; intros a Ha Hl; cbn [fold_left].
  - repeat split; auto using num_le_refl_finite; intros v [].
  - assert (Hx : Number_isFinite x = true) by (apply Hl; now left).
    assert (Hstep : Math_max a x = if num_lt a x then x else a)
      by now destruct a, x.
    assert (Hm : Number_isFinite (Math_max a x) = true /\
                 (Math_max a x = a \/ Math_max a x = x) /\
                 num_le a (Math_max a x) = true /\
                 num_le x (Math_max a x) = true).
    { rewrite Hstep. destruct (num_lt a x) eqn:E.
      - repeat split; auto using num_le_refl_finite, num_lt_le.
      - repeat split; auto using num_le_refl_finite, num_lt_false_le. }
    destruct Hm as [Hfin [Hsel [Hale Hxle]]].
    destruct (IH (Math_max a x) Hfin) as [Hr [Hin [Hle Hall]]].
    { intros v Hv. apply Hl. now right. }
    cbv zeta. repeat split.
    + exact Hr.
    + destruct Hin as [-> | Hin]; [|right; now right].
      destruct Hsel as [-> | ->]; [now left|right; now left].
    + eapply num_le_trans; eauto.
    + intros v [<- | Hv]; [eapply num_le_trans; eauto|now apply Hall].
Qed.

Lemma fold_Math_min_finite (l : list number) (a : number) :
  Number_isFinite a = true ->
  (forall v, In v l -> Number_isFinite v = true) ->
  let r := fold_left Math_min l a in
  Number_isFinite r = true /\ (r = a \/ In r l) /\ num_le r a = true /\
  forall v, In v l -> num_le r v = true.
Proof.
  revert a. induction l as [|x l IH]; intros a Ha Hl; cbn [fold_left].
  - repeat split; auto using num_le_refl_finite; intros v [].
  - assert (Hx : Number_isFinite x = true) by (apply Hl; now left).
    assert (Hstep : Math_min a x = if num_lt x a then x else a)
      by now destruct a, x.
    assert (Hm : Number_isFinite (Math_min a x) = true /\
                 (Math_min a x = a \/ Math_min a x = x) /\
                 num_le (Math_min a x) a = true /\
                 num_le (Math_min a x) x = true).
    { rewrite Hstep. destruct (num_lt x a) eqn:E.
      - repeat split; auto using num_le_refl_finite, num_lt_le.
      - repeat split; auto using num_le_refl_finite, num_lt_false_le. }
    destruct Hm as [Hfin [Hsel [Hale Hxle]]].
    destruct (IH (Math_min a x) Hfin) as [Hr [Hin [Hle Hall]]].
    { intros v Hv. apply Hl. now right. }
    cbv zeta. repeat split.
    + exact Hr.
    + destruct Hin as [-> | Hin]; [|right; now right].
      destruct Hsel as [-> | ->]; [now left|right; now left].
    + eapply num_le_trans; eauto.
    + intros v [<- | Hv]; [eapply num_le_trans; eauto|now apply Hall].
Qed.

Lemma Math_max_list_finite (x : number) (l : list number) :
  (forall v, In v (x :: l) -> Number_isFinite v = true) ->
  In (Math_max_list (x :: l)) (x :: l) /\
  forall v, In v (x :: l) -> num_le v (Math_max_list (x :: l)) = true.
Proof.
  intros Hl. unfold Math_max_list. cbn [fold_left].
  assert (Hx : Number_isFinite x = true) by (apply Hl; now left).
  replace (Math_max NegInf x) with x by now destruct x.
  destruct (fold_Math_max_finite l x Hx) as [_ [Hin [Hle Hall]]].
  { intros v Hv. apply Hl. now right. }
  split.
  - destruct Hin as [-> | Hin]; [now left|now right].
  - intros v [<- | Hv]; auto.
Qed.

Lemma Math_min_list_finite (x : number) (l : list number) :
  (forall v, In v (x :: l) -> Number_isFinite v = true) ->
  In (Math_min_list (x :: l)) (x :: l) /\
  forall v, In v (x :: l) -> num_le (Math_min_list (x :: l)) v = true.
Proof.
  intros Hl. unfold Math_min_list. cbn [fold_left].
  assert (Hx : Number_isFinite x = true) by (apply Hl; now left).
  replace (Math_min PosInf x) with x by now destruct x.
  destruct (fold_Math_min_finite l x Hx) as [_ [Hin [Hle Hall]]].
  { intros v Hv. apply Hl. now right. }
  split.
  - destruct Hin as [-> | Hin]; [now left|now right].
  - intros v [<- | Hv]; auto.
Qed.

(** X9. On a non-empty vector of finite scores, [spread_between] compares
    the difference between the largest and the smallest score: [hi] and
    [lo] are scores of the vector that bound all the others, and the
    condition holds exactly when [hi - lo] lies between [min] (default [0])
    and [max] (default [Infinity]). *)
Theorem spread_between_measures_range (cond : ResultCondition)
  (scoreMap : ScoreMap) :
  cond_type cond = Some (js "spread_between") ->
  scoreMap <> [] ->
  (forall v, In v (Object_values scoreMap) -> Number_isFinite v = true) ->
  let values := Object_values scoreMap in
  let hi := Math_max_list values in
  let lo := Math_min_list values in
  In hi values /\ In lo values /\
  (forall v, In v values -> num_le lo v = true /\ num_le v hi = true) /\
  meetsCondition (Some cond) scoreMap
  = num_ge (num_sub hi lo) (nullish_or (cond_min cond) (Fin 0))
    && num_le (num_sub hi lo) (nullish_or (cond_max cond) PosInf).
Proof.
  intros Htype Hne Hfin values hi lo. subst values hi lo.
  enter_typed Htype.
  destruct scoreMap as [|[k x] rest]; [congruence|].
  unfold Object_values in *. cbn [List.map] in *.
  destruct (Math_max_list_finite x (List.map snd rest) Hfin) as [Hhi Hmax].
  destruct (Math_min_list_finite x (List.map snd rest) Hfin) as [Hlo Hmin].
  repeat split; auto.
Qed.

Lemma spread_between_measures_range_witness :
  meetsCondition (Some (spread_between 0 23)) sample_scores = true /\
  meetsCondition (Some (spread_between 0 22)) sample_scores = false.
Proof.
  assert (Hfin : forall v, In v (Object_values sample_scores) ->
                           Number_isFinite v = true).
  { intros v [<- | [<- | [<- | []]]]; reflexivity. }
  assert (Hne : sample_scores <> []) by discriminate.
  split.
  - rewrite (proj2 (proj2 (proj2 (spread_between_measures_range
                                    (spread_between 0 23) sample_scores
                                    eq_refl Hne Hfin)))).
    reflexivity.
  - rewrite (proj2 (proj2 (proj2 (spread_between_measures_range
                                    (spread_between 0 22) sample_scores
                                    eq_refl Hne Hfin)))).
    reflexivity.
Defined.

(** *** Sums over dimensions *)

Lemma obj_get_In_NoDup {V : Type} (m : dict V) (k : jsstring) (v : V) :
  NoDup (Object_keys m) -> In (k, v) m -> obj_get k m = Some v.
Proof.
  induction m as [|[k' v'] m IH]; intros Hnd Hin; [destruct Hin|].
  cbn [Object_keys List.map fst] in Hnd. inversion_clear Hnd as [|? ? Hk Hm].
  cbn [obj_get]. destruct Hin as [[= -> ->] | Hin].
  - now rewrite jsstring_eqb_refl.
  - destruct (jsstring_eqb k k') eqn:E.
    + apply jsstring_eqb_eq in E. subst k'. exfalso. apply Hk.
      change k with (fst (k, v)). now apply in_map.
    + now apply IH.
Qed.

Lemma sum_over_keys (scoreMap : ScoreMap) :
  NoDup (Object_keys scoreMap) ->
  sum_over (Object_keys scoreMap) scoreMap = total_of scoreMap.
Proof.
  intros Hnd. unfold sum_over, total_of.
  assert (H : forall (post : ScoreMap) (acc : number),
             (forall e, In e post -> In e scoreMap) ->
             fold_left
               (fun acc id =>
                  num_add acc (nullish_or (obj_get id scoreMap) (Fin 0)))
               (Object_keys post) acc
             = fold_left (fun sum val => num_add sum val)
                 (Object_values post) acc).
  { induction post as [|[k v] post IH]; intros acc Hin; [reflexivity|].
    cbn [Object_keys Object_values List.map fst snd fold_left].
    rewrite (obj_get_In_NoDup scoreMap k v Hnd) by (apply Hin; now left).
    cbn [nullish_or]. apply IH. intros e He. apply Hin. now right. }
  apply H. auto.
Qed.

(** X10. Summing over every dimension of the vector is the total:
    [sum_min] and [sum_max] with [dims] the keys of the score vector decide
    as [total_min] and [total_max] do. *)
Theorem sum_over_all_is_total (cond : ResultCondition) (scoreMap : ScoreMap) :
  NoDup (Object_keys scoreMap) ->
  cond_dims cond = Some (Object_keys scoreMap) ->
  (cond_type cond = Some (js "sum_min") ->
   meetsCondition (Some cond) scoreMap
   = meetsCondition (Some (with_type "total_min" cond)) scoreMap) /\
  (cond_type cond = Some (js "sum_max") ->
   meetsCondition (Some cond) scoreMap
   = meetsCondition (Some (with_type "total_max" cond)) scoreMap).
Proof.
  intros Hnd Hdims. split; intros Htype.
  - assert (Htype' : cond_type (with_type "total_min" cond)
                     = Some (js "total_min")) by reflexivity.
    enter_typed Htype. enter_typed Htype'. rewrite Hdims. cbn [nullish_or].
    now rewrite (sum_over_keys scoreMap Hnd).
  - assert (Htype' : cond_type (with_type "total_max" cond)
                     = Some (js "total_max")) by reflexivity.
    enter_typed Htype. enter_typed Htype'. rewrite Hdims. cbn [nullish_or].
    now rewrite (sum_over_keys scoreMap Hnd).
Qed.

Lemma sum_over_all_is_total_witness :
  meetsCondition (Some (sum_min ["calm"; "courage"; "tempo"]%string 17))
    sample_scores = true /\
  meetsCondition (Some (sum_min ["calm"; "courage"; "tempo"]%string 18))
    sample_scores = false.
Proof.
  assert (Hnd : NoDup (Object_keys sample_scores)).
  { cbn. repeat constructor; cbn; intuition discriminate. }
  split.
  - rewrite (proj1 (sum_over_all_is_total
                      (sum_min ["calm"; "courage"; "tempo"]%string 17)
                      sample_scores Hnd eq_refl) eq_refl).
    reflexivity.
  - rewrite (proj1 (sum_over_all_is_total
                      (sum_min ["calm"; "courage"; "tempo"]%string 18)
                      sample_scores Hnd eq_refl) eq_refl).
    reflexivity.
Defined.

(** ** Score vectors, continued *)

(** X11. [createInitialScores] gives every configured dimension the score
    [0] and no other dimension a score, and it is what normalisation makes
    of a missing or empty input, whatever the bounds. *)
Theorem createInitialScores_zero (dimensions : list Dimension) :
  (forall k,
      obj_get k (createInitialScores dimensions)
      = if existsb (jsstring_eqb k) (List.map dim_id dimensions)
        then Some (Fin 0) else None) /\
  (forall min max,
      normalizeScoresForDimensions None dimensions min max
      = createInitialScores dimensions) /\
  (forall min max,
      normalizeScoresForDimensions (Some []) dimensions min max
      = createInitialScores dimensions).
Proof.
  split; [|split; reflexivity].
  intros k. exact (normalize_fold_get None 0 0 dimensions [] k).
Qed.

(** X12. Normalisation is idempotent for bounds around zero: normalising a
    normalised vector over the same dimensions and bounds returns it
    unchanged. *)
Theorem normalisation_idempotent (input : option ScoreMap)
  (dimensions : list Dimension) (lo hi : Z) :
  (lo <= 0 <= hi)%Z ->
  normalizeScoresForDimensions
    (Some (normalizeScoresForDimensions input dimensions
             (num_of_Z lo) (num_of_Z hi)))
    dimensions (num_of_Z lo) (num_of_Z hi)
  = normalizeScoresForDimensions input dimensions (num_of_Z lo) (num_of_Z hi).
Proof. intros H. exact (normalize_idempotent input dimensions lo hi H). Qed.

Lemma normalisation_idempotent_witness :
  let dimensions := List.map dimension ["a"; "b"; "c"; "d"; "z"]%string in
  normalizeScoresForDimensions
    (Some (normalizeScoresForDimensions (Some raw_scores) dimensions
             (num_of_Z (-10)) (num_of_Z 10)))
    dimensions (num_of_Z (-10)) (num_of_Z 10)
  = [ (js "a", num_of_Z 3); (js "b", num_of_Z (-3)); (js "c", num_of_Z 0);
      (js "d", num_of_Z 0); (js "z", num_of_Z 10) ].
Proof.
  intros dimensions.
  rewrite (normalisation_idempotent (Some raw_scores) dimensions (-10) 10)
    by lia.
  vm_compute. reflexivity.
Defined.

(** ** Score accumulation, continued *)

Lemma clamp_in_play_range (x : number) :
  x <> NaN -> in_play_range (clamp x (num_of_Z (-20)) (num_of_Z 20)).
Proof.
  intros Hx. unfold in_play_range.
  destruct x as [q| | |]; [| congruence | |].
  - unfold clamp, num_of_Z.
    assert (Hmin : Math_min (Fin (inject_Z 20)) (Fin q)
                   = if Qlt_bool q (inject_Z 20) then Fin q
                     else Fin (inject_Z 20)) by reflexivity.
    rewrite Hmin.
    destruct (Qlt_bool q (inject_Z 20)) eqn:E20.
    + assert (Hmax : Math_max (Fin (inject_Z (-20))) (Fin q)
                     = if Qlt_bool (inject_Z (-20)) q then Fin q
                       else Fin (inject_Z (-20))) by reflexivity.
      rewrite Hmax. apply Qlt_bool_iff in E20.
      destruct (Qlt_bool (inject_Z (-20)) q) eqn:E.
      * apply Qlt_bool_iff in E. exists q. repeat split; lra.
      * exists (inject_Z (-20)). repeat split; [lra|].
        unfold Qle. simpl. lia.
    + exists (inject_Z 20). repeat split; unfold Qle; simpl; lia.
  - exists (inject_Z 20). repeat split; unfold Qle; simpl; lia.
  - exists (inject_Z (-20)). repeat split; unfold Qle; simpl; lia.
Qed.

Lemma accumulated_in_play_range (old : option number) (delta : number) :
  in_play_range (accumulated old delta).
Proof.
  unfold accumulated. apply clamp_in_play_range.
  assert (Hold : number_or old (Fin 0) <> NaN).
  { destruct old as [[q| | |]|]; cbn; try discriminate.
    destruct (negb (Qeq_bool q 0)); discriminate. }
  destruct (number_or old (Fin 0)) as [q| | |]; [| congruence | |];
    destruct delta; cbn; discriminate.
Qed.

(** X13. [handleAnswer] keeps scores in range: every dimension named by
    the weights of the option ends as a finite number of [[-20, 20]],
    whatever its old value ([NaN] and the infinities included), and a
    vector whose scores all are in that range stays so. *)
Theorem handleAnswer_keeps_range (scores : ScoreMap) (option : QuestionOption) :
  let weights := nullish_or (opt_weights option) [] in
  let nextScores := handleAnswer_nextScores scores option in
  NoDup (Object_keys weights) ->
  (forall dimId, In dimId (Object_keys weights) ->
     exists v, obj_get dimId nextScores = Some v /\ in_play_range v) /\
  ((forall k v, obj_get k scores = Some v -> in_play_range v) ->
   forall k v, obj_get k nextScores = Some v -> in_play_range v).
Proof.
  intros weights nextScores Hnd.
  assert (Hget : forall dimId,
             obj_get dimId nextScores
             = match obj_get dimId weights with
               | Some delta => Some (accumulated (obj_get dimId scores) delta)
               | None => obj_get dimId scores
               end).
  { intros dimId. exact (accumulate_fold_get weights scores dimId Hnd). }
  split.
  - intros dimId Hin. rewrite Hget.
    destruct (obj_get dimId weights) as [delta|] eqn:E.
    + eexists. split; [reflexivity|]. apply accumulated_in_play_range.
    + apply obj_get_None in E. contradiction.
  - intros Hscores k v. rewrite Hget.
    destruct (obj_get k weights) as [delta|].
    + intros [= <-]. apply accumulated_in_play_range.
    + apply Hscores.
Qed.

Lemma handleAnswer_keeps_range_witness :
  exists v,
    obj_get (js "tempo")
      (handleAnswer_nextScores [(js "tempo", NaN); (js "calm", PosInf)]
         sample_option) = Some v /\
    in_play_range v.
Proof.
  apply (proj1 (handleAnswer_keeps_range
                  [(js "tempo", NaN); (js "calm", PosInf)] sample_option
                  ltac:(cbn; repeat constructor; cbn; intuition discriminate))).
  cbn. tauto.
Defined.

(** *** Vectors of play *)

Lemma fold_obj_set_Forall {V : Type} (P : jsstring * V -> Prop)
  (f : Dimension -> V) (dimensions : list Dimension) (acc : dict V) :
  (forall k dim, P (k, f dim)) -> Forall P acc ->
  Forall P
    (fold_left (fun o dim => obj_set (dim_id dim) (f dim) o) dimensions acc).
Proof.
  intros Hf. revert acc.
  induction dimensions as [|d dims IH]; intros acc Hacc; cbn [fold_left];
    [exact Hacc|].
  apply IH. unfold obj_set.
  destruct (obj_has (dim_id d) acc).
  - induction Hacc as [|[k' v'] m Hx Hm IHm]; cbn [obj_update];
      [constructor|].
    destruct (jsstring_eqb (dim_id d) k'); constructor; auto.
  - induction Hacc as [|[k' v'] m Hx Hm IHm]; cbn [obj_insert].
    + constructor; [apply Hf|constructor].
    + destruct (listed_before (dim_id d) k'); repeat constructor; auto.
Qed.

Lemma createInitialScores_playable (dimensions : list Dimension) :
  playable dimensions (createInitialScores dimensions).
Proof.
  split; [reflexivity|]. split.
  - apply (fold_obj_set_keys_NoDup (fun _ => Fin 0)). constructor.
  - apply (fold_obj_set_Forall _ (fun _ => Fin 0)); [|constructor].
    intros k _. exists 0%Z. split; [reflexivity|lia].
Qed.

Lemma obj_set_present_keys {V : Type} (k : jsstring) (v : V) (m : dict V) :
  In k (Object_keys m) -> Object_keys (obj_set k v m) = Object_keys m.
Proof.
  intros Hin. rewrite obj_set_keys.
  apply existsb_eqb_In in Hin. now rewrite Hin.
Qed.

Lemma obj_set_Forall {V : Type} (P : jsstring * V -> Prop) (k : jsstring)
  (v : V) (m : dict V) :
  (forall k', P (k', v)) -> Forall P m -> Forall P (obj_set k v m).
Proof.
  intros Hv Hm. unfold obj_set. destruct (obj_has k m).
  - induction Hm as [|[k' v'] m Hx Hm IH]; cbn [obj_update]; [constructor|].
    destruct (jsstring_eqb k k'); constructor; auto.
  - induction Hm as [|[k' v'] m Hx Hm IH]; cbn [obj_insert].
    + constructor; [apply Hv|constructor].
    + destruct (listed_before k k'); repeat constructor; auto.
Qed.

(** Two objects with the same names in the same order and the same value
    under each name are the same. *)
Lemma dict_ext {V : Type} (m m' : dict V) :
  Object_keys m = Object_keys m' ->
  NoDup (Object_keys m) ->
  (forall k, In k (Object_keys m) -> obj_get k m = obj_get k m') ->
  m = m'.
Proof.
  revert m'. induction m as [|[k v] m IH]; intros [|[k' v'] m'] Hkeys Hnd Hget;
    try discriminate Hkeys; [reflexivity|].
  cbn [Object_keys List.map fst] in Hkeys, Hnd. injection Hkeys as <- Hkeys.
  apply NoDup_cons_iff in Hnd. destruct Hnd as [Hk Hnd].
  pose proof (Hget k (or_introl eq_refl)) as Hhead.
  cbn [obj_get] in Hhead. rewrite jsstring_eqb_refl in Hhead.
  injection Hhead as <-. f_equal.
  apply IH; [exact Hkeys|exact Hnd|].
  intros k2 Hk2. specialize (Hget k2 (or_intror Hk2)).
  cbn [obj_get] in Hget.
  assert (E : jsstring_eqb k2 k = false).
  { apply jsstring_eqb_neq. intros ->. contradiction. }
  now rewrite E in Hget.
Qed.

Lemma num_add_of_Z (a b : Z) :
  num_add (num_of_Z a) (num_of_Z b) = num_of_Z (a + b).
Proof.
  unfold num_of_Z, num_add, Qplus, inject_Z. cbn [Qnum Qden].
  now rewrite !Z.mul_1_r.
Qed.

Lemma accumulated_of_Z (old delta : Z) :
  accumulated (Some (num_of_Z old)) (num_of_Z delta)
  = num_of_Z (Z.max (-20) (Z.min 20 (old + delta))).
Proof.
  unfold accumulated.
  assert (Hold : number_or (Some (num_of_Z old)) (Fin 0) = num_of_Z old).
  { cbn [number_or]. destruct (truthy_number (num_of_Z old)) eqn:E;
      [reflexivity|].
    unfold truthy_number, num_of_Z in E. apply Bool.negb_false_iff in E.
    apply Qeq_bool_iff in E. unfold Qeq, inject_Z in E. cbn in E.
    assert (old = 0%Z) by lia. now subst old. }
  rewrite Hold. cbn [Number_isFinite num_of_Z].
  change (Fin (inject_Z delta)) with (num_of_Z delta).
  change (Fin (inject_Z old)) with (num_of_Z old).
  rewrite num_add_of_Z. apply clamp_of_Z.
Qed.

(** X14. Play keeps the vector in the shape of the configuration.  The
    vector of a fresh session has one integer score of [[-20, 20]] for each
    configured dimension, listed as an object lists its own properties (in
    the configured order when no id is an array index), and an answer
    whose weights are integers on configured dimensions keeps the entries,
    their order and the range. *)
Theorem play_keeps_scores_playable (dimensions : list Dimension)
  (scores : ScoreMap) (option : QuestionOption) :
  NoDup (List.map dim_id dimensions) ->
  integer_weights dimensions (nullish_or (opt_weights option) []) ->
  Permutation (Object_keys (createInitialScores dimensions))
    (List.map dim_id dimensions) /\
  own_key_order (Object_keys (createInitialScores dimensions)) /\
  (forallb ordinary_name (List.map dim_id dimensions) = true ->
   Object_keys (createInitialScores dimensions)
   = List.map dim_id dimensions) /\
  playable dimensions (createInitialScores dimensions) /\
  (playable dimensions scores ->
   playable dimensions (handleAnswer_nextScores scores option)).
Proof.
  intros Hids [_ Hweights].
  destruct (createInitialScores_keys dimensions Hids)
    as [Hperm [Horder [_ Hordinary]]].
  split; [exact Hperm|]. split; [exact Horder|].
  split; [exact Hordinary|].
  split; [now apply createInitialScores_playable|].
  unfold handleAnswer_nextScores, Object_entries.
  revert scores.
  induction Hweights as [|[k delta] weights [Hk [d Hd]] _ IH]; intros scores Hp;
    cbn [fold_left]; [exact Hp|].
  apply IH. cbn [fst snd] in Hk, Hd. subst delta.
  destruct Hp as [Hkeys [Hnd Hall]].
  assert (Hin : In k (Object_keys scores)).
  { rewrite Hkeys. eapply Permutation_in;
      [apply Permutation_sym; exact Hperm|exact Hk]. }
  destruct (obj_get k scores) as [old|] eqn:Hget.
  2:{ apply obj_get_None in Hget. contradiction. }
  assert (Hold : exists z, old = num_of_Z z /\ (-20 <= z <= 20)%Z).
  { clear - Hget Hall. induction Hall as [|[k' v'] m Hx _ IH];
      [discriminate Hget|].
    cbn [obj_get] in Hget. destruct (jsstring_eqb k k').
    - injection Hget as <-. exact Hx.
    - now apply IH. }
  destruct Hold as [z [-> Hz]].
  fold (accumulated (Some (num_of_Z z)) (num_of_Z d)).
  rewrite accumulated_of_Z.
  split; [|split].
  - rewrite obj_set_present_keys; assumption.
  - now apply obj_set_NoDup.
  - apply obj_set_Forall; [|exact Hall].
    intros k'. eexists. split; [reflexivity|]. cbn [snd]. lia.
Qed.

Lemma play_keeps_scores_playable_witness :
  let dimensions := List.map dimension ["a"; "b"; "c"]%string in
  playable dimensions
    (handleAnswer_nextScores (createInitialScores dimensions) integer_option)
  /\ handleAnswer_nextScores (createInitialScores dimensions) integer_option
     = [ (js "a", num_of_Z 3); (js "b", num_of_Z (-20)); (js "c", num_of_Z 0) ].
Proof.
  intros dimensions.
  assert (Hids : NoDup (List.map dim_id dimensions)).
  { cbn. repeat constructor; cbn; intuition discriminate. }
  assert (Hw : integer_weights dimensions
                 (nullish_or (opt_weights integer_option) [])).
  { split.
    - cbn. repeat constructor; cbn; intuition discriminate.
    - repeat (constructor;
                [split; [cbn; auto 10|eexists; reflexivity]|]).
      constructor. }
  destruct (play_keeps_scores_playable dimensions
              (createInitialScores dimensions) integer_option Hids Hw)
    as [_ [_ [_ [Hinit Hstep]]]].
  split.
  - exact (Hstep Hinit).
  - vm_compute. reflexivity.
Defined.

(** X15. Normalisation into [[-20, 20]], which share links apply to the
    scores, is the identity on a vector of play. *)
Theorem playable_scores_are_normalised (dimensions : list Dimension)
  (scores : ScoreMap) :
  playable dimensions scores ->
  normalizeScoresForDimensions (Some scores) dimensions
    (num_of_Z (-20)) (num_of_Z 20)
  = scores.
Proof.
  intros [Hkeys [Hnd Hall]].
  assert (Hnames : Object_keys
                     (normalizeScoresForDimensions (Some scores) dimensions
                        (num_of_Z (-20)) (num_of_Z 20))
                   = Object_keys scores).
  { rewrite Hkeys. unfold normalizeScoresForDimensions, createInitialScores.
    apply (fold_obj_set_keys_values
             (fun dim =>
                let value := Number_of (opt_get (Some scores) (dim_id dim)) in
                if Number_isFinite value
                then clamp (Math_round value) (num_of_Z (-20)) (num_of_Z 20)
                else Fin 0)
             (fun _ => Fin 0) dimensions [] []).
    reflexivity. }
  apply dict_ext; [exact Hnames|now rewrite Hnames|].
  intros k Hk. rewrite Hnames in Hk.
  destruct (obj_get k scores) as [v|] eqn:Hget.
  2:{ apply obj_get_None in Hget. contradiction. }
  assert (Hv : exists z, v = num_of_Z z /\ (-20 <= z <= 20)%Z).
  { clear - Hget Hall. induction Hall as [|[k' v'] m Hx _ IH];
      [discriminate Hget|].
    cbn [obj_get] in Hget. destruct (jsstring_eqb k k').
    - injection Hget as <-. exact Hx.
    - now apply IH. }
  destruct Hv as [z [-> Hz]].
  assert (Hid : In k (List.map dim_id dimensions)).
  { rewrite Hkeys in Hk. unfold createInitialScores in Hk.
    apply (fold_obj_set_In (fun _ => Fin 0)) in Hk.
    destruct Hk as [Hk | []]. exact Hk. }
  unfold normalizeScoresForDimensions.
  rewrite (normalize_fold_get (Some scores) (-20) 20).
  rewrite (proj2 (existsb_eqb_In k _) Hid).
  cbn [opt_get]. rewrite Hget.
  cbn [Number_of num_of_Z Number_isFinite Math_round].
  rewrite Qfloor_half. change (Fin (inject_Z z)) with (num_of_Z z).
  rewrite clamp_of_Z. do 2 f_equal. lia.
Qed.

Lemma playable_scores_are_normalised_witness :
  let dimensions := List.map dimension ["a"; "b"; "c"]%string in
  normalizeScoresForDimensions
    (Some [ (js "a", num_of_Z 3); (js "b", num_of_Z (-20));
            (js "c", num_of_Z 0) ])
    dimensions (num_of_Z (-20)) (num_of_Z 20)
  = [ (js "a", num_of_Z 3); (js "b", num_of_Z (-20)); (js "c", num_of_Z 0) ].
Proof.
  intros dimensions.
  apply (playable_scores_are_normalised dimensions).
  split; [reflexivity|]. split.
  - cbn. repeat constructor; cbn; intuition discriminate.
  - repeat constructor; cbn; eexists; (split; [reflexivity|lia]).
Defined.

(** ** The URL-safe layer, continued *)

Lemma toBase64Url_latin1 (text : jsstring) :
  latin1 text ->
  toBase64Url text
  = Returned (List.map to_url_char (List.map b64_char (sextets text))).
Proof.
  intros Hlatin. unfold toBase64Url, btoa.
  assert (Hall : forallb (fun c => (c <=? 255)%N) text = true).
  { apply forallb_forall. intros c Hc. apply N.leb_le.
    unfold latin1 in Hlatin. rewrite Forall_forall in Hlatin.
    now apply Hlatin. }
  rewrite Hall. cbn [bind]. f_equal.
  rewrite replace_to_url, map_app, map_repeat.
  change (to_url_char 61) with 61%N.
  apply strip_trailing_padding.
  apply Forall_map. apply Forall_map.
  eapply Forall_impl; [|exact (sextets_bound text Hlatin)].
  intros i Hi. apply (b64_char_facts i Hi).
Qed.

Lemma url_char_safe (i : N) :
  (i < 64)%N -> url_safe (to_url_char (b64_char i)) = true.
Proof.
  apply (below_64 (fun i => url_safe (to_url_char (b64_char i)))).
  vm_compute. reflexivity.
Qed.

Lemma sextets_count (bytes : list N) :
  List.length (sextets bytes) = ((4 * List.length bytes + 2) / 3)%nat.
Proof.
  induction bytes as [| a | a b | a b c l IH] using list_ind3;
    cbn [sextets List.length]; try reflexivity.
  rewrite IH.
  replace (4 * S (S (S (List.length l))) + 2)%nat
    with ((4 * List.length l + 2) + 4 * 3)%nat by lia.
  rewrite Nat.div_add by lia. lia.
Qed.

(** X16. [toBase64Url] returns for the texts without a code unit above
    U+00FF and throws [InvalidCharacterError] for every other text; what it
    returns consists of letters, digits, [-] and [_] only (no [+], [/] or
    [=]) and has [ceil(4n/3)] characters for [n] code units. *)
Theorem toBase64Url_alphabet (text : jsstring) :
  (latin1 text ->
   exists encoded,
     toBase64Url text = Returned encoded /\
     forallb url_safe encoded = true /\
     List.length encoded = ((4 * List.length text + 2) / 3)%nat) /\
  (~ latin1 text -> toBase64Url text = Thrown InvalidCharacterError).
Proof.
  split.
  - intros Hlatin. rewrite (toBase64Url_latin1 text Hlatin).
    eexists. split; [reflexivity|]. split.
    + apply forallb_forall. intros c Hc.
      rewrite map_map in Hc. apply in_map_iff in Hc.
      destruct Hc as [i [<- Hi]].
      pose proof (sextets_bound text Hlatin) as Hb.
      rewrite Forall_forall in Hb. apply url_char_safe. now apply Hb.
    + rewrite !length_map. apply sextets_count.
  - intros Hnot. unfold toBase64Url, btoa.
    destruct (forallb (fun c => (c <=? 255)%N) text) eqn:E; [|reflexivity].
    exfalso. apply Hnot. unfold latin1. apply Forall_forall. intros c Hc.
    rewrite forallb_forall in E. apply N.leb_le. now apply E.
Qed.

(** X17. [fromBase64Url] inverts [toBase64Url]: a text without a code
    unit above U+00FF is encoded without an exception and decoded to
    itself. *)
Theorem base64url_roundtrip (text : jsstring) :
  latin1 text ->
  bind (toBase64Url text) fromBase64Url = Returned text.
Proof.
  intros Hlatin.
  destruct (fromBase64Url_toBase64Url text Hlatin) as [encoded [-> [H _]]].
  exact H.
Qed.

Lemma base64url_roundtrip_witness :
  bind (toBase64Url (js "{<?>}~~")) fromBase64Url = Returned (js "{<?>}~~") /\
  toBase64Url (js "{<?>}~~") = Returned (js "ezw_Pn1-fg").
Proof.
  split.
  - apply (base64url_roundtrip (js "{<?>}~~")).
    repeat constructor; cbn; lia.
  - vm_compute. reflexivity.
Defined.

(** ** The live profile *)

Lemma truthy_leaning (id rest : jsstring) (arrow : jsstring) :
  truthy_string ((id ++ js " " ++ arrow) ++ rest) = true.
Proof. destruct id; reflexivity. Qed.

(** X18. [buildLiveProfileText] shows the prompt ["Answer a few questions
    to see your shape."] for the empty score vector and for no other: any
    vector with an entry, the all-zero vector of a fresh quiz included, gives
    a text that starts with ["Current leaning: "]. *)
Theorem live_profile_prompt_iff_empty (scoreMap : ScoreMap) :
  (buildLiveProfileText scoreMap
   = js "Answer a few questions to see your shape." <-> scoreMap = []) /\
  (scoreMap <> [] ->
   exists top, buildLiveProfileText scoreMap = js "Current leaning: " ++ top).
Proof.
  assert (Hne : scoreMap <> [] ->
                exists top, buildLiveProfileText scoreMap
                            = js "Current leaning: " ++ top).
  { intros H. unfold buildLiveProfileText, Object_entries.
    pose proof (Array_sort_length
                  (fun e : jsstring * number => Math_abs (snd e)) scoreMap)
      as Hlen.
    unfold descending_by in Hlen.
    destruct (Array_sort _ scoreMap) as [|[k v] sorted].
    { destruct scoreMap; [congruence|discriminate Hlen]. }
    destruct sorted as [|[k' v'] sorted];
      cbn [firstn List.map Array_join]; rewrite truthy_leaning;
      eexists; reflexivity. }
  split; [|exact Hne]. split.
  - intros H. destruct scoreMap as [|e m]; [reflexivity|].
    destruct Hne as [top Htop]; [discriminate|].
    rewrite Htop in H. discriminate H.
  - intros ->. reflexivity.
Qed.

(** X19. The live profile names the dimensions that the fallback of
    [computeResult] reports as dominant and secondary, in that order: the
    first two of the entries sorted by absolute value, each with an arrow
    that points up for a positive score and down for any other, joined by
    a middle dot. *)
Theorem live_profile_leads_with_dominant (scoreMap : ScoreMap) :
  NoDup (Object_keys scoreMap) ->
  buildLiveProfileText scoreMap
  = match dominant_of scoreMap with
    | [] => js "Answer a few questions to see your shape."
    | [top] => js "Current leaning: " ++ leaning scoreMap top
    | top :: secondary :: _ =>
        js "Current leaning: " ++ leaning scoreMap top ++ middle_dot
        ++ leaning scoreMap secondary
    end.
Proof.
  intros Hnd. unfold buildLiveProfileText, dominant_of, Object_entries.
  assert (Hin : forall e, In e (Array_sort
                                  (fun a b : jsstring * number =>
                                     num_sub (Math_abs (snd b)) (Math_abs (snd a)))
                                  scoreMap) -> In e scoreMap).
  { intros e He.
    exact (proj1 (Array_sort_In
                    (fun e : jsstring * number => Math_abs (snd e)) e scoreMap)
             He). }
  destruct (Array_sort _ scoreMap) as [|[k v] sorted]; [reflexivity|].
  assert (Hk : obj_get k scoreMap = Some v).
  { apply obj_get_In_NoDup; [exact Hnd|]. apply Hin. now left. }
  destruct sorted as [|[k' v'] sorted].
  - cbn [firstn List.map Array_join fst]. rewrite truthy_leaning.
    unfold leaning. rewrite Hk. cbn [nullish_or].
    now rewrite List.app_nil_r.
  - assert (Hk' : obj_get k' scoreMap = Some v').
    { apply obj_get_In_NoDup; [exact Hnd|]. apply Hin. right. now left. }
    cbn [firstn List.map Array_join fst]. rewrite truthy_leaning.
    unfold leaning. rewrite Hk, Hk'. cbn [nullish_or].
    now rewrite List.app_nil_r, <- !List.app_assoc.
Qed.

Lemma live_profile_leads_with_dominant_witness :
  buildLiveProfileText sample_scores
  = js "Current leaning: calm " ++ arrow_up ++ middle_dot ++ js "tempo "
    ++ arrow_down.
Proof.
  rewrite (live_profile_leads_with_dominant sample_scores).
  - vm_compute. reflexivity.
  - cbn. repeat constructor; cbn; intuition discriminate.
Defined.

(** ** The legacy codec, continued *)

(** X20. The legacy codec round trip: when [encodeURIComponent] returns
    for the JSON text of the scores normalised into [[-10, 10]] and the
    platform reads that encoding back as the same object,
    [decodeLegacyScoresFromUrl] of [encodeLegacyScoresForUrl] is the
    normalisation of the vector into [[-10, 10]]. *)
Theorem legacy_scores_roundtrip (JSON_stringify : value -> jsstring)
  (encodeURIComponent : jsstring -> outcome jsstring)
  (parse_legacy : jsstring -> outcome (option ScoreMap))
  (scoreMap : ScoreMap) (dimensions : list Dimension) (encoded : jsstring) :
  let normalized :=
    normalizeScoresForDimensions (Some scoreMap) dimensions
      (num_of_Z (-10)) (num_of_Z 10) in
  encodeURIComponent (JSON_stringify (scores_value normalized))
  = Returned encoded ->
  encoded <> [] ->
  parse_legacy encoded = Returned (Some normalized) ->
  encodeLegacyScoresForUrl JSON_stringify encodeURIComponent scoreMap dimensions
  = Returned encoded /\
  decodeLegacyScoresFromUrl parse_legacy (Some encoded) dimensions
  = Returned (Some normalized).
Proof.
  intros normalized Henc Hne Hparse. split; [exact Henc|].
  unfold decodeLegacyScoresFromUrl.
  destruct encoded as [|c encoded]; [congruence|].
  cbn [truthy_opt_string truthy_string negb nullish_or].
  rewrite Hparse. cbn [bind try_catch]. do 2 f_equal.
  apply (normalize_idempotent (Some scoreMap) dimensions (-10) 10). lia.
Qed.

Lemma legacy_scores_roundtrip_witness :
  let dimensions := List.map dimension ["a"; "b"; "c"; "d"; "z"]%string in
  exists encoded,
    encodeLegacyScoresForUrl stringify_text encodeURIComponent_text raw_scores
      dimensions = Returned encoded /\
    decodeLegacyScoresFromUrl parse_legacy_text (Some encoded) dimensions
    = Returned
        (Some [ (js "a", num_of_Z 3); (js "b", num_of_Z (-3));
                (js "c", num_of_Z 0); (js "d", num_of_Z 0);
                (js "z", num_of_Z 10) ]).
Proof.
  intros dimensions.
  exists (js "%7B%22a%22%3A3%2C%22b%22%3A-3%2C%22c%22%3A0%2C%22d%22%3A0%2C%22z%22%3A10%7D").
  apply (legacy_scores_roundtrip stringify_text encodeURIComponent_text
           parse_legacy_text raw_scores dimensions).
  - vm_compute. reflexivity.
  - discriminate.
  - vm_compute. reflexivity.
Defined.

(** ** The state in the page URL *)

Lemma searchParams_get_set_same (name value : jsstring)
  (params : URLSearchParams) :
  searchParams_get name (searchParams_set name value params) = Some value.
Proof.
  induction params as [|[k v] params IH]; cbn [searchParams_set searchParams_get].
  - now rewrite jsstring_eqb_refl.
  - destruct (jsstring_eqb k name) eqn:E; cbn [searchParams_get]; rewrite E;
      [reflexivity|exact IH].
Qed.

Lemma searchParams_get_delete_other (name name' : jsstring)
  (params : URLSearchParams) :
  name <> name' ->
  searchParams_get name' (searchParams_delete name params)
  = searchParams_get name' params.
Proof.
  intros Hne.
  induction params as [|[k v] params IH];
    cbn [searchParams_delete filter searchParams_get]; [reflexivity|].
  fold (searchParams_delete name params).
  destruct (jsstring_eqb k name) eqn:E; cbn [negb searchParams_get].
  - apply jsstring_eqb_eq in E. subst k.
    apply jsstring_eqb_neq in Hne. now rewrite Hne.
  - destruct (jsstring_eqb k name'); [reflexivity|exact IH].
Qed.

Lemma searchParams_get_delete_same (name : jsstring) (params : URLSearchParams) :
  searchParams_get name (searchParams_delete name params) = None.
Proof.
  induction params as [|[k v] params IH];
    cbn [searchParams_delete filter searchParams_get]; [reflexivity|].
  fold (searchParams_delete name params).
  destruct (jsstring_eqb k name) eqn:E; cbn [negb searchParams_get];
    [exact IH|]. now rewrite E.
Qed.

Lemma searchParams_get_set_other (name name' value : jsstring)
  (params : URLSearchParams) :
  name <> name' ->
  searchParams_get name' (searchParams_set name value params)
  = searchParams_get name' params.
Proof.
  intros Hne.
  induction params as [|[k v] params IH];
    cbn [searchParams_set searchParams_get].
  - now rewrite (proj2 (jsstring_eqb_neq name name') Hne).
  - destruct (jsstring_eqb k name) eqn:E; cbn [searchParams_get].
    + apply jsstring_eqb_eq in E. subst k.
      rewrite (proj2 (jsstring_eqb_neq name name') Hne).
      now apply searchParams_get_delete_other.
    + destruct (jsstring_eqb k name'); [reflexivity|exact IH].
Qed.

Lemma obj_get_numbers (k : jsstring) (scores : ScoreMap) :
  obj_get k (List.map (fun '(k, n) => (k, VNum n)) scores)
  = option_map VNum (obj_get k scores).
Proof.
  induction scores as [|[k' n] scores IH]; cbn [List.map obj_get];
    [reflexivity|].
  destruct (jsstring_eqb k k'); [reflexivity|exact IH].
Qed.

Lemma fold_thrown {A B : Type} (step : outcome A -> B -> outcome A)
  (l : list B) (e : exn) :
  (forall x, step (Thrown e) x = Thrown e) ->
  fold_left step l (Thrown e) = Thrown e.
Proof.
  intros H. induction l as [|x l IH]; cbn [fold_left]; [reflexivity|].
  now rewrite H.
Qed.

Lemma rounded_in_range (value : number) (lo hi : Z) :
  (lo <= 0 <= hi)%Z ->
  exists z : Z,
    (if Number_isFinite value
     then clamp (Math_round value) (num_of_Z lo) (num_of_Z hi)
     else Fin 0)
    = num_of_Z z /\ (lo <= z <= hi)%Z.
Proof.
  intros H. destruct value as [q| | |]; cbn [Number_isFinite Math_round].
  - exists (Z.max lo (Z.min hi (Qfloor (Qplus q (1 # 2))))).
    split; [|lia]. apply (clamp_of_Z (Qfloor (Qplus q (1 # 2))) lo hi).
  - exists 0%Z. split; [reflexivity|lia].
  - exists 0%Z. split; [reflexivity|lia].
  - exists 0%Z. split; [reflexivity|lia].
Qed.

Lemma within_bounds (input : option ScoreMap) (dimensions : list Dimension)
  (lo hi : Z) (m : ScoreMap) :
  (-20 <= lo)%Z -> (hi <= 20)%Z ->
  normalized_within input dimensions lo hi m ->
  (forall k, In k (Object_keys m) <-> In k (List.map dim_id dimensions)) /\
  (forall k v, obj_get k m = Some v ->
               exists z : Z, v = num_of_Z z /\ (-20 <= z <= 20)%Z).
Proof.
  intros Hlo Hhi [Hkeys [_ Hvalues]]. split; [exact Hkeys|].
  intros k v Hget. destruct (Hvalues k v Hget) as [z [Hv [Hz _]]].
  exists z. split; [exact Hv|lia].
Qed.

Section UrlStateProperties.

Variable JSON_stringify : value -> jsstring.
Variable JSON_parse : jsstring -> outcome value.
Variable encodeURIComponent : jsstring -> outcome jsstring.
Variable parse_legacy : jsstring -> outcome (option ScoreMap).
Variable ToNumber : value -> outcome number.

(** On an object of numbers the normalisation of a parsed value is the
    normalisation of the score vector. *)
Lemma normalize_of_scores_value (scores : ScoreMap)
  (dimensions : list Dimension) (min max : number) :
  normalizeScoresForDimensions_of_value ToNumber (Some (scores_value scores))
    dimensions min max
  = Returned (normalizeScoresForDimensions (Some scores) dimensions min max).
Proof.
  unfold normalizeScoresForDimensions_of_value, normalizeScoresForDimensions.
  generalize (@nil (jsstring * number)) as acc.
  induction dimensions as [|d dims IH]; intros acc; cbn [fold_left];
    [reflexivity|].
  cbn [bind scores_value get_prop]. rewrite obj_get_numbers.
  cbn [opt_get].
  destruct (obj_get (dim_id d) scores) as [n|];
    cbn [option_map Number_of_value Number_of bind]; apply IH.
Qed.

Lemma restored_answers_numbers (answers : list number) :
  restored_answers ToNumber (Some (VArr (List.map VNum answers)))
  = Returned (filter kept_answer answers).
Proof.
  unfold restored_answers.
  set (convert := fun value : value => Number_of_value ToNumber (Some value)).
  assert (H : Array_map_outcome convert (List.map VNum answers)
              = Returned answers).
  { induction answers as [|n answers IH]; cbn [List.map Array_map_outcome];
      [reflexivity|].
    rewrite IH. reflexivity. }
  rewrite H. reflexivity.
Qed.

(** What [updateUrlState] writes, [restoreFromUrl] reads back. *)
Lemma share_link_roundtrip (data : QuizData) (resultId : jsstring)
  (result : ResultProfile) (scoreMap : ScoreMap) (answers : list number)
  (search : URLSearchParams) (legacyScores : jsstring) :
  let dimensions := qd_dimensions data in
  let payload := share_payload resultId scoreMap answers dimensions in
  let text := JSON_stringify (payload_value payload) in
  resultId <> [] ->
  find_by_id (qd_results data) resultId = Some result ->
  encodeLegacyScoresForUrl JSON_stringify encodeURIComponent scoreMap dimensions
  = Returned legacyScores ->
  text <> [] -> latin1 text ->
  JSON_parse text = Returned (payload_value payload) ->
  exists search',
    updateUrlState JSON_stringify encodeURIComponent (Some resultId)
      (Some scoreMap) (Some answers) dimensions search
    = Returned search' /\
    buildResultShareUrl JSON_stringify encodeURIComponent resultId scoreMap
      answers dimensions search
    = Returned search' /\
    restoreFromUrl JSON_parse parse_legacy ToNumber data search'
    = Returned
        (Some {| rs_result := result;
                 rs_scores :=
                   normalizeScoresForDimensions (Some scoreMap) dimensions
                     (num_of_Z (-20)) (num_of_Z 20);
                 rs_answers := filter kept_answer answers |}).
Proof.
  intros dimensions payload text Hid Hfind Hlegacy Hne Hlatin Hparse.
  destruct (codec_roundtrip JSON_stringify JSON_parse payload eq_refl Hne
              Hlatin Hparse) as [state [Hencode Hdecode]].
  assert (Htruthy : truthy_string resultId = true)
    by (destruct resultId; [congruence|reflexivity]).
  eexists. split; [|split].
  - unfold updateUrlState.
    cbn [truthy_opt_string nullish_or]. rewrite Htruthy. cbn [negb].
    fold dimensions. rewrite Hlegacy. cbn [bind].
    fold (share_payload resultId scoreMap answers dimensions). fold payload.
    rewrite Hencode. cbn [bind]. reflexivity.
  - unfold buildResultShareUrl. rewrite Hlegacy. cbn [bind].
    fold (share_payload resultId scoreMap answers dimensions). fold payload.
    rewrite Hencode. cbn [bind]. reflexivity.
  - unfold restoreFromUrl.
    rewrite !searchParams_get_set_other by discriminate.
    rewrite searchParams_get_set_same, Hdecode. cbn [bind].
    change (get_prop (payload_value payload) (js "resultId"))
      with (Some (VStr resultId)).
    cbn [truthy_value find_by_value]. rewrite Htruthy, Hfind.
    change (get_prop (payload_value payload) (js "scores"))
      with (Some (scores_value (ss_scores payload))).
    change (get_prop (payload_value payload) (js "answers"))
      with (Some (VArr (List.map VNum answers))).
    fold dimensions.
    rewrite normalize_of_scores_value, restored_answers_numbers. cbn [bind].
    do 3 f_equal.
    apply (normalize_idempotent (Some scoreMap) dimensions (-20) 20). lia.
Qed.

(** X21. A share link restores what it encodes.  For a non-empty
    [resultId] that names a result of the quiz, [updateUrlState] and
    [buildResultShareUrl] write the same query, and [restoreFromUrl] reads
    from it that result, the scores normalised into [[-20, 20]] and the
    answers that are non-negative integers, whatever the query held before.
    The platform is assumed to encode the legacy scores without an exception
    and to read the JSON text of the payload back, the text having no code
    unit above U+00FF. *)
Theorem share_link_restores (data : QuizData) (resultId : jsstring)
  (result : ResultProfile) (scoreMap : ScoreMap) (answers : list number)
  (search : URLSearchParams) (legacyScores : jsstring) :
  let dimensions := qd_dimensions data in
  let payload := share_payload resultId scoreMap answers dimensions in
  let text := JSON_stringify (payload_value payload) in
  resultId <> [] ->
  find_by_id (qd_results data) resultId = Some result ->
  encodeLegacyScoresForUrl JSON_stringify encodeURIComponent scoreMap dimensions
  = Returned legacyScores ->
  text <> [] -> latin1 text ->
  JSON_parse text = Returned (payload_value payload) ->
  exists search',
    updateUrlState JSON_stringify encodeURIComponent (Some resultId)
      (Some scoreMap) (Some answers) dimensions search
    = Returned search' /\
    buildResultShareUrl JSON_stringify encodeURIComponent resultId scoreMap
      answers dimensions search
    = Returned search' /\
    restoreFromUrl JSON_parse parse_legacy ToNumber data search'
    = Returned
        (Some {| rs_result := result;
                 rs_scores :=
                   normalizeScoresForDimensions (Some scoreMap) dimensions
                     (num_of_Z (-20)) (num_of_Z 20);
                 rs_answers := filter kept_answer answers |}).
Proof.
  intros dimensions payload text.
  exact (share_link_roundtrip data resultId result scoreMap answers search
           legacyScores).
Qed.

(** X22. A reset clears the state: [updateUrlState] without a result id
    removes [state], [result] and [scores] from the query, however often
    they occur, keeps every other parameter, and [restoreFromUrl] then
    restores nothing. *)
Theorem cleared_url_restores_nothing (data : QuizData)
  (scoreMap : option ScoreMap) (answers : option (list number))
  (dimensions : list Dimension) (search : URLSearchParams) :
  exists search',
    updateUrlState JSON_stringify encodeURIComponent None scoreMap answers
      dimensions search
    = Returned search' /\
    searchParams_get (js "state") search' = None /\
    searchParams_get (js "result") search' = None /\
    searchParams_get (js "scores") search' = None /\
    (forall name, name <> js "state" -> name <> js "result" ->
                  name <> js "scores" ->
                  searchParams_get name search'
                  = searchParams_get name search) /\
    restoreFromUrl JSON_parse parse_legacy ToNumber data search'
    = Returned None.
Proof.
  exists (searchParams_delete (js "scores")
            (searchParams_delete (js "result")
               (searchParams_delete (js "state") search))).
  split; [|split; [|split; [|split; [|split]]]].
  - unfold updateUrlState. now destruct scoreMap.
  - rewrite !searchParams_get_delete_other by discriminate.
    apply searchParams_get_delete_same.
  - rewrite searchParams_get_delete_other by discriminate.
    apply searchParams_get_delete_same.
  - apply searchParams_get_delete_same.
  - intros name H1 H2 H3.
    rewrite !searchParams_get_delete_other by congruence. reflexivity.
  - unfold restoreFromUrl.
    rewrite !(searchParams_get_delete_other (js "scores")) by discriminate.
    rewrite (searchParams_get_delete_other (js "result") (js "state"))
      by discriminate.
    rewrite !searchParams_get_delete_same.
    reflexivity.
Qed.

(** X23. A potion-only link restores the named result with the initial
    scores and no answers, and nothing when the id is empty or names no
    result, whatever [state] and [scores] the query held before. *)
Theorem potion_link_restores_initial (data : QuizData) (resultId : jsstring)
  (search : URLSearchParams) :
  restoreFromUrl JSON_parse parse_legacy ToNumber data
    (buildPotionOnlyUrl resultId search)
  = Returned
      (if truthy_string resultId
       then
         match find_by_id (qd_results data) resultId with
         | Some result =>
             Some {| rs_result := result;
                     rs_scores := createInitialScores (qd_dimensions data);
                     rs_answers := [] |}
         | None => None
         end
       else None).
Proof.
  unfold restoreFromUrl, buildPotionOnlyUrl.
  rewrite (searchParams_get_delete_other (js "scores") (js "state"))
    by discriminate.
  rewrite !searchParams_get_delete_same.
  rewrite !searchParams_get_delete_other by discriminate.
  rewrite searchParams_get_set_same.
  cbn [decodeShareState truthy_opt_string negb bind nullish_or
       decodeLegacyScoresFromUrl].
  destruct (truthy_string resultId); cbn [negb]; [|reflexivity].
  destruct (find_by_id (qd_results data) resultId); reflexivity.
Qed.

(** What normalisation makes of any parsed value, when it returns: a score
    for each configured dimension and no other, each an integer of the
    range. *)
Lemma normalize_of_value_within (input : option value)
  (dimensions : list Dimension) (lo hi : Z) (m : ScoreMap) :
  (lo <= 0 <= hi)%Z ->
  normalizeScoresForDimensions_of_value ToNumber input dimensions
    (num_of_Z lo) (num_of_Z hi) = Returned m ->
  (forall k, In k (Object_keys m) <-> In k (List.map dim_id dimensions)) /\
  (forall k v, obj_get k m = Some v ->
               exists z : Z, v = num_of_Z z /\ (lo <= z <= hi)%Z).
Proof using ToNumber.
  clear JSON_stringify JSON_parse encodeURIComponent parse_legacy.
  intros Hrange. unfold normalizeScoresForDimensions_of_value.
  match goal with
  | |- context [fold_left ?f dimensions _] => set (step := f)
  end.
  assert (H : forall (dims : list Dimension) (acc : ScoreMap),
             fold_left step dims (Returned acc) = Returned m ->
             (forall k, In k (Object_keys m)
                        <-> In k (List.map dim_id dims) \/ In k (Object_keys acc))
             /\ (forall k v, obj_get k m = Some v ->
                   (exists z : Z, v = num_of_Z z /\ (lo <= z <= hi)%Z)
                   \/ obj_get k acc = Some v)).
  { induction dims as [|d dims IH]; intros acc Hfold; cbn [fold_left] in Hfold.
    - injection Hfold as <-. cbn [List.map In]. split; [tauto|auto].
    - unfold step at 2 in Hfold. cbn [bind] in Hfold.
      destruct (Number_of_value ToNumber _) as [value|e] in Hfold;
        cbn [bind] in Hfold.
      2:{ rewrite fold_thrown in Hfold by reflexivity. discriminate Hfold. }
      destruct (IH _ Hfold) as [Hkeys Hvalues]. split.
      + intros k. rewrite Hkeys, obj_set_In_keys. cbn [List.map In].
        intuition congruence.
      + intros k v Hget. destruct (Hvalues k v Hget) as [Hz | Hacc]; [now left|].
        destruct (jsstring_eqb (dim_id d) k) eqn:E.
        * apply jsstring_eqb_eq in E. subst k.
          rewrite obj_get_set_same in Hacc. injection Hacc as <-.
          left. apply rounded_in_range. exact Hrange.
        * apply jsstring_eqb_neq in E.
          rewrite obj_get_set_other in Hacc by exact E. now right. }
  intros Hfold. destruct (H dimensions [] Hfold) as [Hkeys Hvalues]. split.
  - intros k. rewrite Hkeys. cbn. tauto.
  - intros k v Hget. destruct (Hvalues k v Hget) as [Hz | Hacc];
      [exact Hz|discriminate Hacc].
Qed.

(** X24. [restoreFromUrl] sanitises what it restores, whatever the query
    holds: the result is one of the quiz, the scores are integers of
    [[-20, 20]] for exactly the configured dimensions, and the answers are
    non-negative integers. *)
Theorem restoreFromUrl_sanitises (data : QuizData) (search : URLSearchParams)
  (restored : RestoredState) :
  restoreFromUrl JSON_parse parse_legacy ToNumber data search
  = Returned (Some restored) ->
  In (rs_result restored) (qd_results data) /\
  (forall k, In k (Object_keys (rs_scores restored))
             <-> In k (List.map dim_id (qd_dimensions data))) /\
  (forall k v, obj_get k (rs_scores restored) = Some v ->
               exists z : Z, v = num_of_Z z /\ (-20 <= z <= 20)%Z) /\
  Forall (fun answer => kept_answer answer = true) (rs_answers restored).
Proof using JSON_parse parse_legacy ToNumber.
  clear JSON_stringify encodeURIComponent.
  unfold restoreFromUrl.
  set (direct := if negb (truthy_opt_string (searchParams_get (js "result") search))
                 then _ else _).
  assert (Hdirect : direct = Returned (Some restored) ->
            In (rs_result restored) (qd_results data) /\
            (forall k, In k (Object_keys (rs_scores restored))
                       <-> In k (List.map dim_id (qd_dimensions data))) /\
            (forall k v, obj_get k (rs_scores restored) = Some v ->
                         exists z : Z, v = num_of_Z z /\ (-20 <= z <= 20)%Z) /\
            Forall (fun answer => kept_answer answer = true)
              (rs_answers restored)).
  { unfold direct.
    destruct (negb (truthy_opt_string (searchParams_get (js "result") search)));
      [discriminate|].
    destruct (find_by_id (qd_results data) _) as [directResult|] eqn:Hfind;
      [|discriminate].
    apply find_some in Hfind. destruct Hfind as [Hin _].
    unfold decodeLegacyScoresFromUrl.
    destruct (negb (truthy_opt_string (searchParams_get (js "scores") search))).
    - cbn [bind]. intros [= <-]. cbn [rs_result rs_scores rs_answers].
      split; [exact Hin|]. apply and_assoc. split; [|constructor].
      apply (within_bounds None (qd_dimensions data) (-20) 20); try lia.
      apply (normalizeScoresForDimensions_within None (-20) 20); lia.
    - destruct (parse_legacy _) as [parsed|e]; cbn [bind try_catch].
      + intros [= <-]. cbn [rs_result rs_scores rs_answers].
        split; [exact Hin|]. apply and_assoc. split; [|constructor].
        apply (within_bounds parsed (qd_dimensions data) (-10) 10); try lia.
        apply (normalizeScoresForDimensions_within parsed (-10) 10); lia.
      + intros [= <-]. cbn [rs_result rs_scores rs_answers].
        split; [exact Hin|]. apply and_assoc. split; [|constructor].
        apply (within_bounds None (qd_dimensions data) (-20) 20); try lia.
        apply (normalizeScoresForDimensions_within None (-20) 20); lia. }
  destruct (decodeShareState JSON_parse _) as [[state|]|e]; cbn [bind];
    [|exact Hdirect|discriminate].
  destruct (truthy_value _); [|exact Hdirect].
  destruct (find_by_value _ _) as [result|] eqn:Hfind; [|exact Hdirect].
  assert (Hin : In result (qd_results data)).
  { unfold find_by_value in Hfind.
    destruct (get_prop state (js "resultId")) as [[| | |id| |]|];
      try discriminate Hfind.
    apply find_some in Hfind. apply Hfind. }
  destruct (normalizeScoresForDimensions_of_value _ _ _ _ _) as [scores|e]
    eqn:Hscores; cbn [bind]; [|discriminate].
  destruct (restored_answers _ _) as [answers|e] eqn:Hanswers; cbn [bind];
    [|discriminate].
  intros [= <-]. cbn [rs_result rs_scores rs_answers].
  split; [exact Hin|]. apply and_assoc. split.
  - apply (normalize_of_value_within (get_prop state (js "scores"))
             (qd_dimensions data) (-20) 20 scores); [lia|exact Hscores].
  - unfold restored_answers in Hanswers.
    destruct (get_prop state (js "answers")) as [[| | | |items|]|];
      try (injection Hanswers as <-; constructor).
    destruct (Array_map_outcome _ items) as [values|e]; cbn [bind] in Hanswers;
      [|discriminate Hanswers].
    injection Hanswers as <-. apply Forall_forall. intros a Ha.
    apply filter_In in Ha. apply Ha.
Qed.

Lemma find_by_id_unique (results : list ResultProfile) (r : ResultProfile) :
  NoDup (List.map rp_id results) -> In r results ->
  find_by_id results (rp_id r) = Some r.
Proof.
  unfold find_by_id.
  induction results as [|r0 results IH]; intros Hnd Hin; [destruct Hin|].
  cbn [List.map] in Hnd. inversion_clear Hnd as [|? ? Hfresh Hrest].
  cbn [find]. destruct Hin as [-> | Hin].
  - now rewrite jsstring_eqb_refl.
  - destruct (jsstring_eqb (rp_id r0) (rp_id r)) eqn:E; [|now apply IH].
    apply jsstring_eqb_eq in E. exfalso. apply Hfresh. rewrite E.
    now apply in_map.
Qed.

(** The outcome of [computeResult] over a non-empty [results] is one of
    them, annotated. *)
Lemma computeResult_is_a_result (results : list ResultProfile)
  (scoreMap : ScoreMap) :
  results <> [] ->
  exists r extra,
    In r results /\
    computeResult results scoreMap = with_summary_extra r (rp_summary r) extra.
Proof.
  intros Hne.
  assert (Hdefault : In (defaultResult_of results) results).
  { unfold defaultResult_of, find_by_id.
    destruct (find _ results) as [r|] eqn:E.
    - apply find_some in E. apply E.
    - destruct results; [congruence|now left]. }
  unfold computeResult.
  destruct (resolveConditionalResult results scoreMap) as [b|] eqn:Hres.
  - destruct (resolve_some results scoreMap b Hres) as [Hin _].
    exists b. eexists. split; [exact Hin|]. now rewrite string_or_empty.
  - destruct (dominant_of scoreMap) as [|top rest].
    + exists (defaultResult_of results). eexists. split; [exact Hdefault|].
      reflexivity.
    + cbv zeta.
      set (resolved := match match obj_get top fallbackMap with
                             | Some id => find_by_id results id
                             | None => None
                             end with
                       | Some r => r
                       | None => defaultResult_of results
                       end).
      assert (Hin : In resolved results).
      { unfold resolved. destruct (obj_get top fallbackMap) as [id|];
          [|exact Hdefault].
        unfold find_by_id. destruct (find _ results) as [r|] eqn:E;
          [|exact Hdefault].
        apply find_some in E. apply E. }
      exists resolved. eexists. split; [exact Hin|].
      now rewrite string_or_empty.
Qed.

(** X26. Reloading a finished quiz shows the same potion.  For a quiz
    with results, [finalizeQuiz] shows the outcome of [computeResult] and
    writes a query from which [restoreFromUrl] restores a result of the
    quiz with the same id, the normalised scores and the kept answers; with
    unique result ids the outcome shown is that result with the annotation
    of [computeResult], which the restored result does not carry.  The
    platform is assumed as for a share link, and the id is not empty. *)
Theorem reload_restores_shown_result (data : QuizData) (scores : ScoreMap)
  (answers : list number) (search : URLSearchParams) (legacyScores : jsstring) :
  let shown := fst (finalizeQuiz JSON_stringify encodeURIComponent data scores
                      answers search) in
  let url := snd (finalizeQuiz JSON_stringify encodeURIComponent data scores
                    answers search) in
  let dimensions := qd_dimensions data in
  let payload := share_payload (rp_id shown) scores answers dimensions in
  let text := JSON_stringify (payload_value payload) in
  qd_results data <> [] ->
  rp_id shown <> [] ->
  encodeLegacyScoresForUrl JSON_stringify encodeURIComponent scores dimensions
  = Returned legacyScores ->
  text <> [] -> latin1 text ->
  JSON_parse text = Returned (payload_value payload) ->
  exists search' restored,
    url = Returned search' /\
    restoreFromUrl JSON_parse parse_legacy ToNumber data search'
    = Returned (Some restored) /\
    In (rs_result restored) (qd_results data) /\
    rp_id (rs_result restored) = rp_id shown /\
    rs_scores restored
    = normalizeScoresForDimensions (Some scores) dimensions
        (num_of_Z (-20)) (num_of_Z 20) /\
    rs_answers restored = filter kept_answer answers /\
    (NoDup (List.map rp_id (qd_results data)) ->
     exists extra,
       shown = with_summary_extra (rs_result restored)
                 (rp_summary (rs_result restored)) extra).
Proof.
  intros shown url dimensions payload text Hne Hid Hlegacy Htext Hlatin Hparse.
  destruct (computeResult_is_a_result (qd_results data) scores Hne)
    as [r [extra [Hin Hshown]]].
  assert (Hsame : rp_id shown = rp_id r).
  { unfold shown, finalizeQuiz. cbn [fst]. now rewrite Hshown. }
  destruct (find_by_id (qd_results data) (rp_id shown)) as [r'|] eqn:Hfind.
  2:{ exfalso. unfold find_by_id in Hfind.
      apply (find_none _ _ Hfind r) in Hin. rewrite Hsame in Hin.
      now rewrite jsstring_eqb_refl in Hin. }
  destruct (share_link_roundtrip data (rp_id shown) r' scores answers search
              legacyScores Hid Hfind Hlegacy Htext Hlatin Hparse)
    as [search' [Hupdate [_ Hrestore]]].
  exists search'. eexists. split; [exact Hupdate|].
  split; [exact Hrestore|]. cbn [rs_result rs_scores rs_answers].
  pose proof Hfind as Hfound. unfold find_by_id in Hfound.
  apply find_some in Hfound. destruct Hfound as [Hin' Heq].
  apply jsstring_eqb_eq in Heq.
  repeat split; auto.
  intros Hnd. exists extra.
  assert (r' = r).
  { rewrite Hsame in Hfind.
    rewrite (find_by_id_unique _ r Hnd Hin) in Hfind. congruence. }
  subst r'. unfold shown, finalizeQuiz. cbn [fst]. exact Hshown.
Qed.

End UrlStateProperties.

Lemma share_link_restores_witness :
  exists search',
    updateUrlState stringify_text encodeURIComponent_text
      (Some (js "potion_calm")) (Some raw_scores)
      (Some [num_of_Z 0; num_of_Z (-1); num_of_Z 2])
      (qd_dimensions sample_quiz) stale_search
    = Returned search' /\
    option_map rs_scores
      match restoreFromUrl parse_text parse_legacy_text ToNumber_NaN
              sample_quiz search' with
      | Returned restored => restored
      | Thrown _ => None
      end
    = Some [ (js "a", num_of_Z 3); (js "b", num_of_Z (-3));
             (js "c", num_of_Z 0) ] /\
    option_map rs_answers
      match restoreFromUrl parse_text parse_legacy_text ToNumber_NaN
              sample_quiz search' with
      | Returned restored => restored
      | Thrown _ => None
      end
    = Some [num_of_Z 0; num_of_Z 2].
Proof.
  destruct (share_link_restores stringify_text parse_text
              encodeURIComponent_text parse_legacy_text ToNumber_NaN
              sample_quiz (js "potion_calm")
              (result_with "potion_calm" None (Some [calm_at_least 100]))
              raw_scores [num_of_Z 0; num_of_Z (-1); num_of_Z 2]
              stale_search
              (js "%7B%22a%22%3A3%2C%22b%22%3A-3%2C%22c%22%3A0%7D"))
    as [search' [Hupdate [_ Hrestore]]].
  - discriminate.
  - reflexivity.
  - vm_compute. reflexivity.
  - discriminate.
  - apply Forall_forall. intros c Hc. apply N.leb_le.
    revert c Hc. apply forallb_forall. vm_compute. reflexivity.
  - vm_compute. reflexivity.
  - exists search'. split; [exact Hupdate|].
    rewrite Hrestore. split; vm_compute; reflexivity.
Defined.

Lemma restoreFromUrl_sanitises_witness :
  exists restored,
    restoreFromUrl parse_text parse_legacy_text ToNumber_NaN sample_quiz
      [ (js "result", js "potion_storm");
        (js "scores", js "%7B%22a%22%3A99%2C%22b%22%3A-2.5%7D") ]
    = Returned (Some restored) /\
    In (rs_result restored) (qd_results sample_quiz) /\
    rs_scores restored
    = [ (js "a", num_of_Z 10); (js "b", num_of_Z (-2)); (js "c", num_of_Z 0) ].
Proof.
  eexists. split; [vm_compute; reflexivity|]. split.
  - apply (restoreFromUrl_sanitises parse_text parse_legacy_text ToNumber_NaN
             sample_quiz
             [ (js "result", js "potion_storm");
               (js "scores", js "%7B%22a%22%3A99%2C%22b%22%3A-2.5%7D") ]).
    vm_compute. reflexivity.
  - vm_compute. reflexivity.
Defined.

Lemma reload_restores_shown_result_witness :
  let shown := fst (finalizeQuiz stringify_text encodeURIComponent_text
                      sample_quiz raw_scores [num_of_Z 1] []) in
  rp_extra shown = Some (js "Dominant: c, Secondary: z") /\
  exists search' restored,
    snd (finalizeQuiz stringify_text encodeURIComponent_text sample_quiz
           raw_scores [num_of_Z 1] []) = Returned search' /\
    restoreFromUrl parse_text parse_legacy_text ToNumber_NaN sample_quiz search'
    = Returned (Some restored) /\
    rp_id (rs_result restored) = js "potion_calm".
Proof.
  intros shown. split; [vm_compute; reflexivity|].
  destruct (reload_restores_shown_result stringify_text parse_text
              encodeURIComponent_text parse_legacy_text ToNumber_NaN
              sample_quiz raw_scores [num_of_Z 1] []
              (js "%7B%22a%22%3A3%2C%22b%22%3A-3%2C%22c%22%3A0%7D"))
    as [search' [restored [Hurl [Hrestore [_ [Hid _]]]]]].
  - discriminate.
  - discriminate.
  - vm_compute. reflexivity.
  - discriminate.
  - apply Forall_forall. intros c Hc. apply N.leb_le.
    revert c Hc. apply forallb_forall. vm_compute. reflexivity.
  - vm_compute. reflexivity.
  - exists search', restored. split; [exact Hurl|]. split; [exact Hrestore|].
    rewrite Hid. reflexivity.
Defined.

(** ** The share card: wrapping text *)

Section CanvasProperties.

Variable measureText_width : jsstring -> number.
Variables x maxWidth lineHeight : number.
Variable all : list jsstring.

(** The loop of [wrapText] when drawing, against the loop when measuring:
    the same line, offset and count; the lines drawn and the pending line
    hold the words seen, each followed by a space; every line is one that
    fits or a single word; the pending line is empty only before the first
    word. *)
Lemma wrapText_loop (words seen : list jsstring) (line : jsstring)
  (offsetY drawnLines : number) (calls : list fillText_call) :
  (forall word, In word words -> In word all) ->
  flat_map ft_text calls ++ line = flat_map (fun w => w ++ js " ") seen ->
  Forall (fun c => fits_or_single_word measureText_width maxWidth all
                     (ft_text c)) calls ->
  (line = [] \/ fits_or_single_word measureText_width maxWidth all line) ->
  (seen <> [] -> line <> []) ->
  exists line' offsetY' drawnLines' calls',
    fold_left (wrapText_word measureText_width x maxWidth lineHeight false)
      words (line, offsetY, drawnLines, calls)
    = (line', offsetY', drawnLines', calls') /\
    fold_left (wrapText_word measureText_width x maxWidth lineHeight true)
      words (line, offsetY, drawnLines, [])
    = (line', offsetY', drawnLines', []) /\
    flat_map ft_text calls' ++ line'
    = flat_map (fun w => w ++ js " ") (seen ++ words) /\
    Forall (fun c => fits_or_single_word measureText_width maxWidth all
                       (ft_text c)) calls' /\
    (line' = [] \/ fits_or_single_word measureText_width maxWidth all line') /\
    (seen ++ words <> [] -> line' <> []).
Proof.
  revert seen line offsetY drawnLines calls.
  induction words as [|word words IH];
    intros seen line offsetY drawnLines calls Hall Htext Hcalls Hline Hne.
  - cbn [fold_left]. exists line, offsetY, drawnLines, calls.
    rewrite List.app_nil_r. repeat split; auto.
  - cbn [fold_left]. unfold wrapText_word at 2 4.
    replace (seen ++ word :: words) with ((seen ++ [word]) ++ words)
      by (rewrite <- List.app_assoc; reflexivity).
    assert (Hword : In word all) by (apply Hall; now left).
    assert (Hrest : forall w, In w words -> In w all)
      by (intros w Hw; apply Hall; now right).
    destruct (num_gt (measureText_width (line ++ word ++ js " ")) maxWidth
              && truthy_string line) eqn:E.
    + apply andb_true_iff in E. destruct E as [_ Htruthy].
      apply (IH (seen ++ [word]) (word ++ js " ")
               (num_add offsetY lineHeight) (num_add drawnLines (Fin 1))
               (calls ++ [{| ft_text := line; ft_x := x; ft_y := offsetY |}])).
      * exact Hrest.
      * rewrite !flat_map_app. cbn [flat_map ft_text].
        rewrite !List.app_nil_r. f_equal. exact Htext.
      * apply Forall_app. split; [exact Hcalls|].
        constructor; [|constructor]. cbn [ft_text].
        destruct Hline as [-> | Hline]; [discriminate Htruthy|exact Hline].
      * right. right. now exists word.
      * intros _. destruct word; discriminate.
    + apply (IH (seen ++ [word]) (line ++ word ++ js " ") offsetY drawnLines
               calls).
      * exact Hrest.
      * rewrite flat_map_app. cbn [flat_map].
        rewrite List.app_nil_r, List.app_assoc. f_equal. exact Htext.
      * exact Hcalls.
      * right. apply andb_false_iff in E. destruct E as [E | E].
        -- now left.
        -- right. exists word. split; [exact Hword|].
           destruct line; [reflexivity|discriminate E].
      * intros _. destruct line; [destruct word|]; discriminate.
Qed.

End CanvasProperties.

Lemma String_split_nonempty (sep : N) (s : jsstring) : String_split sep s <> [].
Proof.
  destruct s as [|c s]; cbn [String_split]; [discriminate|].
  destruct (c =? sep)%N; [discriminate|].
  destruct (String_split sep s); discriminate.
Qed.

(** X25. [wrapText] loses no text and breaks no word: the lines it draws,
    in order, are the words of the text, each followed by a space; every
    line either is not wider than [maxWidth] or is a single word; at least
    one line is drawn; and measuring ([measureOnly]) draws nothing and
    returns the height that drawing returns. *)
Theorem wrapText_keeps_the_text (measureText_width : jsstring -> number)
  (text : jsstring) (x y maxWidth lineHeight : number) :
  let words := String_split 32 text in
  let drawn := fst (wrapText measureText_width text x y maxWidth lineHeight
                      false) in
  flat_map ft_text drawn = flat_map (fun word => word ++ js " ") words /\
  Forall (fun call => fits_or_single_word measureText_width maxWidth words
                        (ft_text call)) drawn /\
  drawn <> [] /\
  wrapText measureText_width text x y maxWidth lineHeight true
  = ([], snd (wrapText measureText_width text x y maxWidth lineHeight false)).
Proof.
  intros words drawn. subst drawn. unfold wrapText. fold words.
  destruct (wrapText_loop measureText_width x maxWidth lineHeight words
              words [] [] y (Fin 0) [])
    as [line [offsetY [drawnLines [calls [Hdraw [Hmeasure [Htext [Hcalls
          [Hline Hne]]]]]]]]];
    [auto|reflexivity|constructor|now left|congruence|].
  unfold jsstring in *. rewrite Hdraw, Hmeasure. cbn [app] in Htext, Hne.
  specialize (Hne (String_split_nonempty 32 text)).
  assert (Htruthy : truthy_string line = true)
    by (destruct line; [congruence|reflexivity]).
  rewrite Htruthy. cbn [fst snd].
  split; [|split; [|split]].
  - rewrite flat_map_app. cbn [flat_map ft_text].
    now rewrite List.app_nil_r.
  - apply Forall_app. split; [exact Hcalls|].
    constructor; [|constructor]. cbn [ft_text].
    destruct Hline as [-> | Hline]; [congruence|exact Hline].
  - destruct calls; discriminate.
  - reflexivity.
Qed.

(** The text ["aa bb cc"] at ten units a character in a width of 60: the
    lines ["aa bb "] and ["cc "], one line height apart, and a height of two
    lines. *)
Example wrapText_two_lines :
  wrapText ten_per_character (js "aa bb cc") (Fin 0) (Fin 0) (num_of_Z 60)
    (num_of_Z 10) false
  = ([ {| ft_text := js "aa bb "; ft_x := Fin 0; ft_y := Fin 0 |};
       {| ft_text := js "cc "; ft_x := Fin 0; ft_y := num_of_Z 10 |} ],
     num_of_Z 20).
Proof. vm_compute. reflexivity. Qed.

(** ** The versioned codec with the reference JSON text layer *)

Lemma share_state_roundtrip_reference_witness :
  exists encoded,
    encodeShareState stringify_text sample_state = Returned encoded /\
    decodeShareState parse_text (Some encoded)
    = Returned (Some (payload_value sample_state)).
Proof.
  apply (share_state_roundtrip_reference sample_state).
  - reflexivity.
  - cbn. repeat constructor; cbn; intuition discriminate.
  - cbn. repeat constructor.
  - repeat constructor; cbn; eexists; reflexivity.
  - repeat constructor; eexists; reflexivity.
  - apply Forall_forall. intros c Hc. apply N.leb_le.
    revert c Hc. apply forallb_forall. vm_compute. reflexivity.
  - cbn.
    repeat (constructor;
            [apply Forall_forall; intros c Hc; apply N.leb_le; revert c Hc;
             apply forallb_forall; vm_compute; reflexivity|]).
    constructor.
Defined.

(** ** The state in the page URL: failures of the encoders *)

(** X28. A share payload outside Latin-1 leaves the page URL unwritten.
    For a non-empty result id, when the legacy encoding of the scores
    returns and the JSON text of the payload has a code unit above U+00FF,
    [updateUrlState] and [buildResultShareUrl] throw
    [InvalidCharacterError]: a result id or a dimension id outside Latin-1
    makes the quiz unable to write or copy its link. *)
Theorem url_state_encoding_failures (JSON_stringify : value -> jsstring)
  (encodeURIComponent : jsstring -> outcome jsstring)
  (resultId : jsstring) (scoreMap : ScoreMap) (answers : list number)
  (dimensions : list Dimension) (search : URLSearchParams)
  (legacyScores : jsstring) :
  let payload := share_payload resultId scoreMap answers dimensions in
  resultId <> [] ->
  encodeLegacyScoresForUrl JSON_stringify encodeURIComponent scoreMap
    dimensions
  = Returned legacyScores ->
  Exists (fun c => (255 < c)%N) (JSON_stringify (payload_value payload)) ->
  updateUrlState JSON_stringify encodeURIComponent (Some resultId)
    (Some scoreMap) (Some answers) dimensions search
  = Thrown InvalidCharacterError /\
  buildResultShareUrl JSON_stringify encodeURIComponent resultId scoreMap
    answers dimensions search
  = Thrown InvalidCharacterError.
Proof.
  intros payload Hid Hlegacy Hwide.
  assert (Htruthy : truthy_string resultId = true)
    by (destruct resultId; [congruence|reflexivity]).
  unfold updateUrlState, buildResultShareUrl.
  cbn [truthy_opt_string nullish_or]. rewrite Htruthy. cbn [negb].
  rewrite Hlegacy. fold (share_payload resultId scoreMap answers dimensions).
  fold payload. cbn [bind].
  rewrite (encodeShareState_throws JSON_stringify payload Hwide).
  split; reflexivity.
Qed.

Lemma url_state_encoding_failures_witness :
  updateUrlState stringify_text encodeURIComponent_text (Some [20013%N])
    (Some raw_scores) (Some []) (qd_dimensions sample_quiz) stale_search
  = Thrown InvalidCharacterError /\
  buildResultShareUrl stringify_text encodeURIComponent_text [20013%N]
    raw_scores [] (qd_dimensions sample_quiz) stale_search
  = Thrown InvalidCharacterError.
Proof.
  refine (url_state_encoding_failures stringify_text encodeURIComponent_text
            [20013%N] raw_scores [] (qd_dimensions sample_quiz) stale_search
            (js "%7B%22a%22%3A3%2C%22b%22%3A-3%2C%22c%22%3A0%7D") _ _ _).
  - discriminate.
  - vm_compute. reflexivity.
  - apply Exists_exists. exists 20013%N. split; [|reflexivity].
    vm_compute. tauto.
Defined.

(** ** Result resolution: the order of the results *)

Lemma num_le_antisym_eq (a b : number) :
  num_le a b = true -> num_le b a = true -> num_eq a b = true.
Proof.
  destruct a as [x| | |], b as [y| | |]; simpl; try congruence.
  rewrite !Qle_bool_iff, Qeq_bool_iff. apply Qle_antisym.
Qed.

(** X29. With distinct priorities the order of the results does not
    matter: when no two eligible results have the same priority,
    [resolveConditionalResult] returns the same result for every
    reordering of [results]. *)
Theorem resolve_order_independent (results results' : list ResultProfile)
  (scoreMap : ScoreMap) :
  Permutation results results' ->
  (forall c c', In c results -> In c' results ->
     resultMatchesConditions c scoreMap = true ->
     resultMatchesConditions c' scoreMap = true ->
     num_eq (priority_of c) (priority_of c') = true -> c = c') ->
  resolveConditionalResult results scoreMap
  = resolveConditionalResult results' scoreMap.
Proof.
  intros Hperm Hdistinct.
  destruct (resolveConditionalResult results scoreMap) as [b|] eqn:Hres.
  - destruct (resolve_some results scoreMap b Hres) as [Hin [Hb Hmax]].
    assert (Hin' : In b results') by (eapply Permutation_in; eauto).
    destruct (resolve_max_priority results' scoreMap b Hin' Hb)
      as [b' [-> [Hb'in [Hb' Hmax']]]].
    assert (Hb'in0 : In b' results).
    { eapply Permutation_in; [apply Permutation_sym; exact Hperm|exact Hb'in]. }
    f_equal. apply Hdistinct; auto.
    apply num_le_antisym_eq; auto.
  - symmetry. apply resolve_none. intros r Hr.
    destruct (resultMatchesConditions r scoreMap) eqn:E; [|reflexivity].
    assert (Hr0 : In r results).
    { eapply Permutation_in; [apply Permutation_sym; exact Hperm|exact Hr]. }
    destruct (resolve_max_priority results scoreMap r Hr0 E) as [b [Hb _]].
    congruence.
Qed.

Lemma resolve_order_independent_witness :
  resolveConditionalResult
    [ result_with "plain" (Some 1%Z) None;
      result_with "unreached" (Some 9%Z) (Some [calm_at_least 100]);
      result_with "brew" (Some 5%Z) (Some [calm_at_least 10]) ]
    sample_scores
  = resolveConditionalResult
      [ result_with "brew" (Some 5%Z) (Some [calm_at_least 10]);
        result_with "plain" (Some 1%Z) None;
        result_with "unreached" (Some 9%Z) (Some [calm_at_least 100]) ]
      sample_scores.
Proof.
  apply resolve_order_independent.
  - apply Permutation_sym. apply (Permutation_cons_app [_; _] []).
    apply Permutation_refl.
  - intros c c' [<- | [<- | [<- | []]]] [<- | [<- | [<- | []]]] Hc Hc' Hp;
      try reflexivity; discriminate.
Defined.

(** ** Ranking conditions out of range *)

Lemma getSortedScores_length (scoreMap : ScoreMap) :
  List.length (getSortedScores scoreMap) = List.length scoreMap.
Proof.
  unfold getSortedScores, Object_entries.
  rewrite (Array_sort_length se_value). apply length_map.
Qed.

Lemma Array_get_past_end {A : Type} (l : list A) (n : Z) :
  (Z.of_nat (List.length l) < n)%Z ->
  Array_get l (num_sub (num_of_Z n) (Fin 1)) = None.
Proof.
  intros Hn. unfold num_sub, num_neg, num_add, num_of_Z, Array_get.
  assert (Hfloor : Qfloor (Qplus (inject_Z n) (Qopp 1)) = (n - 1)%Z).
  { unfold Qfloor, Qplus, Qopp, inject_Z. cbn. rewrite Z.div_1_r. lia. }
  rewrite Hfloor.
  destruct (Qeq_bool _ _ && Qle_bool _ _); [|reflexivity].
  apply nth_error_None. lia.
Qed.

(** X30. A ranking condition on a named dimension that asks for a place the
    vector does not have is false, not an error: [top_is] on the empty
    vector, and [rank_is] with an integer rank beyond the number of
    entries; [not_top_is] on the empty vector is true. *)
Theorem ranking_out_of_range (cond : ResultCondition) (scoreMap : ScoreMap)
  (dim : jsstring) :
  cond_dim cond = Some dim ->
  (cond_type cond = Some (js "top_is") -> scoreMap = [] ->
   meetsCondition (Some cond) scoreMap = false) /\
  (cond_type cond = Some (js "not_top_is") -> scoreMap = [] ->
   meetsCondition (Some cond) scoreMap = true) /\
  (cond_type cond = Some (js "rank_is") ->
   forall rank : Z,
     cond_rank cond = Some (num_of_Z rank) ->
     (Z.of_nat (List.length scoreMap) < rank)%Z ->
     meetsCondition (Some cond) scoreMap = false).
Proof.
  intros Hdim. split; [|split].
  - intros Htype ->. enter_typed Htype. now rewrite Hdim.
  - intros Htype ->. enter_typed Htype. now rewrite Hdim.
  - intros Htype rank Hrank Hpast. enter_typed Htype.
    rewrite Hrank, Hdim. cbn [Number_of number_or].
    assert (Hpos : (1 <= rank)%Z) by lia.
    assert (Htruthy : truthy_number (num_of_Z rank) = true).
    { unfold truthy_number, num_of_Z. apply Bool.negb_true_iff.
      destruct (Qeq_bool (inject_Z rank) 0) eqn:E; [|reflexivity].
      apply Qeq_bool_iff in E. unfold Qeq, inject_Z in E. cbn in E. lia. }
    rewrite Htruthy.
    assert (Hmax : Math_max (Fin 1) (num_of_Z rank) = num_of_Z rank).
    { change (Fin 1) with (num_of_Z 1).
      change (Math_max (num_of_Z 1) (num_of_Z rank))
        with (if num_lt (num_of_Z 1) (num_of_Z rank)
              then num_of_Z rank else num_of_Z 1).
      rewrite num_lt_of_Z. destruct (Z.ltb_spec 1 rank); [reflexivity|].
      f_equal. lia. }
    rewrite Hmax, Array_get_past_end; [reflexivity|].
    now rewrite getSortedScores_length.
Qed.

Lemma ranking_out_of_range_witness :
  meetsCondition (Some (rank_is "calm" (Some (num_of_Z 4)))) sample_scores
  = false.
Proof.
  apply (proj2 (proj2 (ranking_out_of_range
                         (rank_is "calm" (Some (num_of_Z 4))) sample_scores
                         (js "calm") eq_refl)) eq_refl 4%Z eq_refl).
  cbn. lia.
Defined.
